(** * Dither-Generator: the dithering and palette engine (Dithering.js)
      and the processing step of the page (app.js)

    A shallow embedding of the classes [Dithering] and [ColorPalettes] and
    of [processImage].

    - A JavaScript number is an IEEE-754 binary64 value: the [spec_float]
      model of the Standard Library at precision 53, every operation
      rounded to nearest, ties to even. An integer literal or a byte read
      from an array is [Js.of_Z], a decimal literal is [Js.decimal].
    - A [Uint8ClampedArray] is a list of integers, read by index ([read])
      and written through the conversion of the language ([write]): the
      number rounded to the nearest integer and clamped to [0, 255]. The
      bytes of an [ImageData] lie in [0, 255] and number
      [width * height * 4]; [valid_image] says so.
    - A colour, returned by a resolver or held by a palette, is an array of
      numbers, or [null]/[undefined]: an [option (list number)].
    - [throw] is the [Throw] of an error monad, carrying the message; a
      [for] loop is [for_loop].
    - The page is a record of the variables and element properties that
      [processImage] touches ([App]); the function that it hands to
      [setTimeout] is returned with the new state. *)

From Stdlib Require Import ZArith List Bool String QArith Lia.
From Stdlib Require Import Floats.SpecFloat.
From stdpp Require Import base list.

(** ** JavaScript numbers *)

Module Js.

Local Open Scope Z_scope.

Definition number := spec_float.

Definition prec : Z := 53.
Definition emax : Z := 1024.

Definition NaN : number := S754_nan.
Definition Infinity : number := S754_infinity false.

Definition add : number -> number -> number := SFadd prec emax.
Definition sub : number -> number -> number := SFsub prec emax.
Definition mul : number -> number -> number := SFmul prec emax.
Definition div : number -> number -> number := SFdiv prec emax.
Definition lt : number -> number -> bool := SFltb.

(** An integer literal, or a byte read from a typed array. *)
Definition of_Z (z : Z) : number := binary_normalize prec emax z 0 false.

(** A decimal literal [n/d] such as [0.299]: the binary64 value nearest to
    the quotient, which is what a correctly rounded division of the two
    (exactly represented) integers gives. *)
Definition decimal (n d : Z) : number := div (of_Z n) (of_Z d).

Definition isNaN (x : number) : bool :=
  match x with S754_nan => true | _ => false end.

Definition is_zero (x : number) : bool :=
  match x with S754_zero _ => true | _ => false end.

(** Neither NaN nor an infinity. *)
Definition is_finite (x : number) : bool :=
  match x with S754_zero _ | S754_finite _ _ _ => true | _ => false end.

Definition sign_bit (x : number) : bool :=
  match x with
  | S754_zero s | S754_infinity s | S754_finite s _ _ => s
  | S754_nan => false
  end.

(** [Math.max] and [Math.min] of two arguments: NaN is contagious and
    [+0] is larger than [-0]. *)
Definition max (a b : number) : number :=
  if isNaN a || isNaN b then NaN
  else if is_zero a && is_zero b then S754_zero (sign_bit a && sign_bit b)
  else if lt a b then b else a.

Definition min (a b : number) : number :=
  if isNaN a || isNaN b then NaN
  else if is_zero a && is_zero b then S754_zero (sign_bit a || sign_bit b)
  else if lt b a then b else a.

(** The real value of a finite number, as a rational. *)
Definition to_Q (x : number) : option Q :=
  match x with
  | S754_zero _ => Some 0%Q
  | S754_finite s m e =>
      let v := if (0 <=? e)%Z then inject_Z (Z.pos m * 2 ^ e)
               else Qmake (Z.pos m) (Z.to_pos (2 ^ (- e))) in
      Some (if s then Qopp v else v)
  | _ => None
  end.

(** Storing a number in a [Uint8ClampedArray] (ToUint8Clamp): NaN becomes 0,
    the value is clamped to [0, 255] and rounded to the nearest integer,
    a tie going to the even one. *)
Definition round_half_even (m : positive) (e : Z) : Z :=
  if (0 <=? e)%Z then Z.pos m * 2 ^ e
  else
    let d := 2 ^ (- e) in
    let q := Z.pos m / d in
    let r := Z.pos m mod d in
    match (2 * r ?= d)%Z with
    | Lt => q
    | Gt => q + 1
    | Eq => if Z.even q then q else q + 1
    end.

Definition toUint8Clamp (x : number) : Z :=
  match x with
  | S754_nan => 0
  | S754_zero _ => 0
  | S754_infinity s => if s then 0 else 255
  | S754_finite true _ _ => 0
  | S754_finite false m e =>
      if (8 <=? e)%Z then 255 else Z.min 255 (round_half_even m e)
  end.

(** [Math.round]: the nearest integer, a tie going up; a result of zero
    keeps the sign of the argument. *)
Definition round (x : number) : number :=
  match x with
  | S754_finite s m e =>
      if (0 <=? e)%Z then x
      else
        let d := 2 ^ (- e) in
        let n := (2 * (if s then Z.neg m else Z.pos m) + d) / (2 * d) in
        if (n =? 0)%Z then S754_zero s else of_Z n
  | _ => x
  end.

End Js.

Declare Scope js_scope.
Delimit Scope js_scope with js.
Bind Scope js_scope with Js.number.
Notation "x + y" := (Js.add x y) : js_scope.
Notation "x - y" := (Js.sub x y) : js_scope.
Notation "x * y" := (Js.mul x y) : js_scope.
Notation "x / y" := (Js.div x y) : js_scope.
Notation "x <? y" := (Js.lt x y) : js_scope.
Abbreviation int := Js.of_Z (only parsing).

(** ** Values crossing the interfaces *)

(** A JavaScript array of numbers; a resolver or a palette slot may also hold
    [null] or [undefined], which is [None]. *)
Abbreviation color := (list Js.number).
Abbreviation jsval := (option color).

(** [c[k]]: an index past the end reads [undefined], which is NaN in any
    arithmetic and 0 when stored in a clamped byte array. *)
Definition chan (c : color) (k : nat) : Js.number := nth k c Js.NaN.

Definition black : color := [Js.of_Z 0; Js.of_Z 0; Js.of_Z 0].
Definition white : color := [Js.of_Z 255; Js.of_Z 255; Js.of_Z 255].

(** ** ColorPalettes *)

(** [monochrome(threshold = 128)]: the argument is not used. *)
Definition monochrome (threshold : Js.number) : list jsval :=
  [ Some black; Some white ].

Definition cga : list jsval :=
  [ Some black;
    Some [Js.of_Z 85; Js.of_Z 255; Js.of_Z 255];
    Some [Js.of_Z 255; Js.of_Z 85; Js.of_Z 255];
    Some white ].

(** [!color || color.length < 3] *)
Definition invalid_color (c : jsval) : bool :=
  match c with
  | None => true
  | Some l => (length l <? 3)%nat
  end.

Definition distance (r g b : Js.number) (c : color) : Js.number :=
  (let dr := r - chan c 0 in
   let dg := g - chan c 1 in
   let db := b - chan c 2 in
   dr * dr + dg * dg + db * db)%js.

(** One iteration of [for (const color of palette)], on the pair
    [(minDistance, closestColor)]. *)
Definition closest_step (r g b : Js.number) (st : Js.number * jsval) (c : jsval)
  : Js.number * jsval :=
  match c with
  | None => st
  | Some l =>
      if (length l <? 3)%nat then st
      else
        let d := distance r g b l in
        if (d <? fst st)%js then (d, c) else st
  end.

(** [palette] is [None] for a missing or non-array argument. *)
Definition findClosestColor (r g b : Js.number) (palette : option (list jsval)) : jsval :=
  match palette with
  | None => Some black
  | Some [] => Some black
  | Some (first :: rest) =>
      snd (fold_left (closest_step r g b) (first :: rest) (Js.Infinity, first))
  end.

Definition luminance (r g b : Js.number) : Js.number :=
  (Js.decimal 299 1000 * r + Js.decimal 587 1000 * g + Js.decimal 114 1000 * b)%js.

Definition findClosestMonochromeColor (r g b threshold : Js.number) : jsval :=
  let validThreshold := if Js.isNaN threshold then Js.of_Z 128 else threshold in
  let gray := luminance r g b in
  if (gray <? validThreshold)%js then Some black else Some white.

(** ** Exceptions *)

Inductive result (A : Type) : Type :=
  | Ok (a : A)
  | Throw (message : string).
Arguments Ok {A} a.
Arguments Throw {A} message.

#[global] Instance result_ret : MRet result := fun A a => Ok a.
#[global] Instance result_bind : MBind result := fun A B f m =>
  match m with
  | Ok a => f a
  | Throw msg => Throw msg
  end.

(** [try { body } catch (error) { throw new Error(prefix + error.message) }] *)
Definition try_catch {A} (prefix : string) (body : result A) : result A :=
  match body with
  | Ok a => Ok a
  | Throw msg => Throw (prefix ++ msg)
  end.

(** [for (let i = start; i < start + count; i++) body(i)] on a state. *)
Fixpoint for_loop {St : Type} (start count : nat) (body : nat -> St -> result St) (s : St)
  : result St :=
  match count with
  | O => Ok s
  | S count' => s' ← body start s; for_loop (S start) count' body s'
  end.

(** ** Pixel buffers *)

Record ImageData : Type := mkImageData {
  data : list Z;
  width : nat;
  height : nat
}.

(** Reading a [Uint8ClampedArray]; past the end the read is [undefined]. *)
Definition read (a : list Z) (i : nat) : Js.number :=
  match a !! i with
  | Some v => Js.of_Z v
  | None => Js.NaN
  end.

(** Writing a [Uint8ClampedArray]: the value is converted as it is stored,
    and a write past the end is ignored. *)
Definition write (a : list Z) (i : nat) (v : Js.number) : list Z :=
  <[ i := Js.toUint8Clamp v ]> a.

Definition resolver := Js.number -> Js.number -> Js.number -> jsval.

Definition invalid_color_msg : string := "Invalid color returned from palette".

(** The four stores that set the output pixel at [idx]. *)
Definition set_pixel (output : list Z) (idx : nat) (closestColor : color) (alpha : Js.number)
  : list Z :=
  let output := write output idx (chan closestColor 0) in
  let output := write output (idx + 1) (chan closestColor 1) in
  let output := write output (idx + 2) (chan closestColor 2) in
  write output (idx + 3) alpha.

(** The three compound assignments [data[base + c] += error_c * k / 16]. *)
Definition add_error (data : list Z) (base : nat) (errorR errorG errorB : Js.number) (k : Z)
  : list Z :=
  let data := write data base (read data base + errorR * int k / int 16)%js in
  let data := write data (base + 1) (read data (base + 1) + errorG * int k / int 16)%js in
  write data (base + 2) (read data (base + 2) + errorB * int k / int 16)%js.

(** ** Dithering.floydSteinberg *)

(** The body of the inner loop, on the pair of the working copy and the
    output. *)
Definition fs_pixel (findClosestColor : resolver) (width height y x : nat)
  (st : list Z * list Z) : result (list Z * list Z) :=
  let '(data, output) := st in
  let idx := ((y * width + x) * 4)%nat in
  let r := read data idx in
  let g := read data (idx + 1) in
  let b := read data (idx + 2) in
  match findClosestColor r g b with
  | None => Throw invalid_color_msg
  | Some closestColor =>
      if (length closestColor <? 3)%nat then Throw invalid_color_msg
      else
        let output := set_pixel output idx closestColor (read data (idx + 3)) in
        let errorR := (r - chan closestColor 0)%js in
        let errorG := (g - chan closestColor 1)%js in
        let errorB := (b - chan closestColor 2)%js in
        let data :=
          if (x + 1 <? width)%nat
          then add_error data ((y * width + x + 1) * 4) errorR errorG errorB 7
          else data in
        let data :=
          if (0 <=? Z.of_nat x - 1)%Z && (y + 1 <? height)%nat
          then add_error data (((y + 1) * width + x - 1) * 4) errorR errorG errorB 3
          else data in
        let data :=
          if (y + 1 <? height)%nat
          then add_error data (((y + 1) * width + x) * 4) errorR errorG errorB 5
          else data in
        let data :=
          if (x + 1 <? width)%nat && (y + 1 <? height)%nat
          then add_error data (((y + 1) * width + x + 1) * 4) errorR errorG errorB 1
          else data in
        Ok (data, output)
  end.

(** The function ends with [new ImageData(output, width, height)]. The
    constructor takes a buffer of [4 * width * height] bytes, neither
    dimension zero, which is what every [ImageData] holds, and so what
    [output], of the length of [data], is for the [imageData] received. It
    is modelled there, as the record that it builds: what is proved of a
    returned buffer is proved for an image whose buffer has that length
    ([valid_image]). The same holds for [bayer] and [ordered]. *)
Definition floydSteinberg (imageData : option ImageData) (findClosestColor : option resolver)
  : result ImageData :=
  match imageData, findClosestColor with
  | Some imageData, Some findClosestColor =>
      try_catch "Failed to apply Floyd-Steinberg dithering: "
        (let width := imageData.(width) in
         let height := imageData.(height) in
         let data := imageData.(data) in
         let output := data in
         '(_, output) ← for_loop 0 height (fun y =>
             for_loop 0 width (fun x => fs_pixel findClosestColor width height y x))
           (data, output);
         Ok (mkImageData output width height))
  | _, _ => Throw "Invalid parameters for Floyd-Steinberg dithering"
  end.

(** ** Dithering.bayer and Dithering.ordered *)

Definition bayerMatrix : list (list Z) :=
  [ [0; 48; 12; 60; 3; 51; 15; 63];
    [32; 16; 44; 28; 35; 19; 47; 31];
    [8; 56; 4; 52; 11; 59; 7; 55];
    [40; 24; 36; 20; 43; 27; 39; 23];
    [2; 50; 14; 62; 1; 49; 13; 61];
    [34; 18; 46; 30; 33; 17; 45; 29];
    [10; 58; 6; 54; 9; 57; 5; 53];
    [42; 26; 38; 22; 41; 25; 37; 21] ]%Z.

Definition orderedMatrix : list (list Z) :=
  [ [0; 8; 2; 10];
    [12; 4; 14; 6];
    [3; 11; 1; 9];
    [15; 7; 13; 5] ]%Z.

(** [matrix.map(row => row.map(val => (val + 0.5) / size - 0.5))] *)
Definition normalize (size : Z) (matrix : list (list Z)) : list (list Js.number) :=
  map (map (fun val => (int val + Js.decimal 5 10) / int size - Js.decimal 5 10)%js) matrix.

(** [m[i][j]] for indices inside the matrix. *)
Definition at2 (m : list (list Js.number)) (i j : nat) : Js.number :=
  match m !! i with
  | Some row => nth j row Js.NaN
  | None => Js.NaN
  end.

(** [Math.min(255, Math.max(0, v + threshold))] *)
Definition adjust (v threshold : Js.number) : Js.number :=
  Js.min (int 255) (Js.max (int 0) (v + threshold))%js.

Definition bayer_pixel (findClosestColor : resolver) (normalizedMatrix : list (list Js.number))
  (data : list Z) (width y x : nat) (output : list Z) : result (list Z) :=
  let idx := ((y * width + x) * 4)%nat in
  let r := read data idx in
  let g := read data (idx + 1) in
  let b := read data (idx + 2) in
  let threshold := (at2 normalizedMatrix (y mod 8) (x mod 8) * int 255)%js in
  let adjustedR := adjust r threshold in
  let adjustedG := adjust g threshold in
  let adjustedB := adjust b threshold in
  match findClosestColor adjustedR adjustedG adjustedB with
  | None => Throw invalid_color_msg
  | Some closestColor =>
      if (length closestColor <? 3)%nat then Throw invalid_color_msg
      else Ok (set_pixel output idx closestColor (read data (idx + 3)))
  end.

Definition bayer (imageData : option ImageData) (findClosestColor : option resolver)
  : result ImageData :=
  match imageData, findClosestColor with
  | Some imageData, Some findClosestColor =>
      try_catch "Failed to apply Bayer dithering: "
        (let width := imageData.(width) in
         let height := imageData.(height) in
         let data := imageData.(data) in
         let output := replicate (length data) 0%Z in
         let normalizedMatrix := normalize 64 bayerMatrix in
         output ← for_loop 0 height (fun y =>
             for_loop 0 width (fun x =>
               bayer_pixel findClosestColor normalizedMatrix data width y x))
           output;
         Ok (mkImageData output width height))
  | _, _ => Throw "Invalid parameters for Bayer dithering"
  end.

Definition ordered_pixel (findClosestColor : resolver) (normalizedMatrix : list (list Js.number))
  (data : list Z) (width y x : nat) (output : list Z) : result (list Z) :=
  let idx := ((y * width + x) * 4)%nat in
  let r := read data idx in
  let g := read data (idx + 1) in
  let b := read data (idx + 2) in
  let threshold := (at2 normalizedMatrix (y mod 4) (x mod 4) * int 255)%js in
  let adjustedR := adjust r threshold in
  let adjustedG := adjust g threshold in
  let adjustedB := adjust b threshold in
  match findClosestColor adjustedR adjustedG adjustedB with
  | None => Throw invalid_color_msg
  | Some closestColor =>
      if (length closestColor <? 3)%nat then Throw invalid_color_msg
      else Ok (set_pixel output idx closestColor (read data (idx + 3)))
  end.

Definition ordered (imageData : option ImageData) (findClosestColor : option resolver)
  : result ImageData :=
  match imageData, findClosestColor with
  | Some imageData, Some findClosestColor =>
      try_catch "Failed to apply Ordered dithering: "
        (let width := imageData.(width) in
         let height := imageData.(height) in
         let data := imageData.(data) in
         let output := replicate (length data) 0%Z in
         let normalizedMatrix := normalize 16 orderedMatrix in
         output ← for_loop 0 height (fun y =>
             for_loop 0 width (fun x =>
               ordered_pixel findClosestColor normalizedMatrix data width y x))
           output;
         Ok (mkImageData output width height))
  | _, _ => Throw "Invalid parameters for Ordered dithering"
  end.

(** ** ColorPalettes.webSafe *)

(** The palette returned when the generation throws. *)
Definition webSafe_fallback : list jsval :=
  [ Some [int 0; int 0; int 0];
    Some [int 255; int 0; int 0];
    Some [int 0; int 255; int 0];
    Some [int 0; int 0; int 255];
    Some [int 255; int 255; int 0];
    Some [int 0; int 255; int 255];
    Some [int 255; int 0; int 255];
    Some [int 255; int 255; int 255] ].

(** The three nested loops, each iteration pushing
    [[Math.round(r * 51), Math.round(g * 51), Math.round(b * 51)]]. *)
Definition webSafe : list jsval :=
  match
    for_loop 0 6 (fun r =>
      for_loop 0 6 (fun g =>
        for_loop 0 6 (fun b palette =>
          Ok (palette ++
                [Some [Js.round (int (Z.of_nat r) * int 51)%js;
                       Js.round (int (Z.of_nat g) * int 51)%js;
                       Js.round (int (Z.of_nat b) * int 51)%js]]))))
      []
  with
  | Ok palette => palette
  | Throw _ => webSafe_fallback
  end.

(** * The application (app.js): [processImage]

    The part of the page that [processImage] reads and writes: the two
    global variables, what [putImageData] last drew on the dithered canvas,
    the [disabled] flag of the download button, whether the loader and the
    error modal carry the class [hidden], and the text of the error message.
    Console output is left out. *)

Record App : Type := mkApp {
  currentImageData : option ImageData;
  currentDitheredImageData : option ImageData;
  ditheredCanvas : option ImageData;
  downloadBtn_disabled : bool;
  ditheredLoader_hidden : bool;
  errorModal_hidden : bool;
  errorMessage_textContent : string
}.

(** What [processImage] reads from the controls when it is called:
    [algorithmSelect.value], [paletteSelect.value] and
    [parseInt(thresholdSlider.value)]. *)
Record Controls : Type := mkControls {
  algorithm : string;
  palette : string;
  threshold : Js.number
}.

(** [showError(message)], the modal's elements being on the page. *)
Definition showError (message : string) (app : App) : App :=
  mkApp app.(currentImageData) app.(currentDitheredImageData) app.(ditheredCanvas)
        app.(downloadBtn_disabled) app.(ditheredLoader_hidden)
        false
        (if String.eqb message "" then "An unknown error occurred." else message).

(** [switch (palette)]: the pair of [colorPalette] and [findClosestColorFn];
    [ColorPalettes.monochrome()] is called without argument. *)
Definition selectPalette (palette : string) (threshold : Js.number)
  : list jsval * resolver :=
  if String.eqb palette "1bit" then
    let colorPalette := monochrome (int 128) in
    (colorPalette, fun r g b => findClosestMonochromeColor r g b threshold)
  else if String.eqb palette "cga" then
    let colorPalette := cga in
    (colorPalette, fun r g b => findClosestColor r g b (Some colorPalette))
  else if String.eqb palette "websafe" then
    let colorPalette := webSafe in
    (colorPalette, fun r g b => findClosestColor r g b (Some colorPalette))
  else
    let colorPalette := monochrome (int 128) in
    (colorPalette, fun r g b => findClosestMonochromeColor r g b threshold).

(** [switch (algorithm)] *)
Definition applyDithering (algorithm : string) (imageData : option ImageData)
  (findClosestColorFn : resolver) : result ImageData :=
  if String.eqb algorithm "floyd-steinberg" then
    floydSteinberg imageData (Some findClosestColorFn)
  else if String.eqb algorithm "bayer" then
    bayer imageData (Some findClosestColorFn)
  else if String.eqb algorithm "ordered" then
    ordered imageData (Some findClosestColorFn)
  else
    floydSteinberg imageData (Some findClosestColorFn).

(** The function passed to [setTimeout]: it runs later, on the state of
    that moment, with the controls as they were read at the call. *)
Definition processImage_timeout (c : Controls) (app : App) : App :=
  let app :=
    match applyDithering c.(algorithm) app.(currentImageData)
            (selectPalette c.(palette) c.(threshold)).2 with
    | Ok ditheredImageData =>
        mkApp app.(currentImageData) (Some ditheredImageData) (Some ditheredImageData)
              false app.(ditheredLoader_hidden)
              app.(errorModal_hidden) app.(errorMessage_textContent)
    | Throw message =>
        showError ("An error occurred while processing the image: " ++ message) app
    end in
  mkApp app.(currentImageData) app.(currentDitheredImageData) app.(ditheredCanvas)
        app.(downloadBtn_disabled) true
        app.(errorModal_hidden) app.(errorMessage_textContent).

(** [processImage()]: the new state and the function scheduled, if any. *)
Definition processImage (c : Controls) (app : App) : App * option (App -> App) :=
  match app.(currentImageData) with
  | None => (showError "Please upload an image first." app, None)
  | Some _ =>
      (mkApp app.(currentImageData) app.(currentDitheredImageData) app.(ditheredCanvas)
             app.(downloadBtn_disabled) false
             app.(errorModal_hidden) app.(errorMessage_textContent),
       Some (processImage_timeout c))
  end.

(** * The specification's vocabulary *)

(** ** Buffers and pixels *)

Definition is_byte (v : Z) : Prop := (0 <= v <= 255)%Z.

Definition valid_image (img : ImageData) : Prop :=
  length img.(data) = img.(width) * img.(height) * 4 ∧ Forall is_byte img.(data).

Definition valid_imageb (img : ImageData) : bool :=
  (length img.(data) =? img.(width) * img.(height) * 4)%nat
  && forallb (fun v => (0 <=? v)%Z && (v <=? 255)%Z) img.(data).

Definition pixel_index (w x y : nat) : nat := (y * w + x) * 4.

Definition byte_at (img : ImageData) (x y c : nat) : option Z :=
  img.(data) !! (pixel_index img.(width) x y + c).

Definition rgb_at (img : ImageData) (x y : nat) : list (option Z) :=
  [byte_at img x y 0; byte_at img x y 1; byte_at img x y 2].

Definition in_bounds (w h : nat) (p : nat * nat) : Prop := p.1 < w ∧ p.2 < h.

Definition row_major (w h : nat) : list (nat * nat) :=
  flat_map (fun y => map (fun x => (x, y)) (seq 0 w)) (seq 0 h).

(** Running a loop body over an explicit list of pixels [(x, y)]. *)
Fixpoint run {St : Type} (body : nat -> nat -> St -> result St) (ps : list (nat * nat)) (s : St)
  : result St :=
  match ps with
  | [] => Ok s
  | p :: ps' => s' ← body p.2 p.1 s; run body ps' s'
  end.

(** A resolver every answer of which passes the length check. *)
Definition always_accepted (f : resolver) : Prop :=
  forall r g b, exists c, f r g b = Some c ∧ 3 <= length c.

Definition well_shaped (img : ImageData) (res : result ImageData) : Prop :=
  exists out,
    res = Ok out ∧ out.(width) = img.(width) ∧ out.(height) = img.(height) ∧
    length out.(data) = img.(width) * img.(height) * 4 ∧
    Forall is_byte out.(data).

(** ** Colours *)

(** A resolver's answer that passes the check
    [!closestColor || closestColor.length < 3]. *)
Definition accepted (v : jsval) : option color :=
  match v with
  | Some c => if (length c <? 3)%nat then None else Some c
  | None => None
  end.

Definition usable (c : jsval) : Prop := invalid_color c = false.

#[global] Instance usable_dec c : Decision (usable c).
Proof. unfold usable. apply _. Defined.

(** The specification's notion of a well-formed colour: exactly three
    channel values, each in [0, 255]. *)
Definition in_byte_range (v : Js.number) : bool :=
  SFleb (int 0) v && SFleb v (int 255).

Definition spec_well_formed (v : jsval) : bool :=
  match v with
  | Some [c0; c1; c2] => in_byte_range c0 && in_byte_range c1 && in_byte_range c2
  | _ => false
  end.

(** A resolver's answers cut after their third entry. *)
Definition first_three (f : resolver) : resolver := fun r g b => take 3 <$> f r g b.

(** A channel value of the documented range, 0-255: a binary64 number
    that lies between 0 and 255. ([spec_float] also holds pairs of a
    mantissa and an exponent that are not in the canonical form of the
    format; [valid_binary] leaves them out.) *)
Definition channel_value (v : Js.number) : Prop :=
  valid_binary Js.prec Js.emax v = true ∧ in_byte_range v = true.

(** A palette whose usable entries hold such values in the three channels
    that the search reads. *)
Definition channel_palette (palette : list jsval) : Prop :=
  forall c, Some c ∈ palette -> 3 <= length c -> forall k, k < 3 -> channel_value (chan c k).

(** The monochrome resolver in the words of the specification. *)
Definition resolveMonochrome_spec (r g b threshold : Js.number) : color :=
  let lum := (Js.decimal 299 1000 * r + Js.decimal 587 1000 * g + Js.decimal 114 1000 * b)%js in
  let t := if Js.isNaN threshold then int 128 else threshold in
  if (lum <? t)%js then black else white.

(** ** Error diffusion on a grid of pixels *)

(** A buffer seen by pixel coordinates: [g x y c] is channel [c] of the
    pixel in column [x] of row [y]. *)
Definition grid := nat -> nat -> nat -> Z.

Definition grid_of (w : nat) (buf : list Z) : grid :=
  fun x y c => default 0%Z (buf !! (pixel_index w x y + c)).

(** The share (in sixteenths) of the error of pixel [(x, y)] that its
    neighbour [(x', y')] receives. *)
Definition diffusion_weight (x y x' y' : nat) : option Z :=
  if decide (x' = x + 1 ∧ y' = y) then Some 7%Z
  else if decide (x' + 1 = x ∧ y' = y + 1) then Some 3%Z
  else if decide (x' = x ∧ y' = y + 1) then Some 5%Z
  else if decide (x' = x + 1 ∧ y' = y + 1) then Some 1%Z
  else None.

(** The algorithm as the specification words it: one pixel of the scan, on
    the working grid and the output grid; [source] supplies the alpha. *)
Definition diffuse_pixel (source : grid) (resolve : resolver) (w h y x : nat)
  (st : grid * grid) : result (grid * grid) :=
  let '(working, output) := st in
  match accepted (resolve (int (working x y 0)) (int (working x y 1)) (int (working x y 2)))%js with
  | None => Throw invalid_color_msg
  | Some chosen =>
      let error c := (int (working x y c) - chan chosen c)%js in
      let output' x' y' c :=
        if decide (x' = x ∧ y' = y)
        then (if decide (c = 3) then source x y 3 else Js.toUint8Clamp (chan chosen c))
        else output x' y' c in
      let working' x' y' c :=
        if decide (x' < w ∧ y' < h ∧ c < 3)
        then match diffusion_weight x y x' y' with
             | Some k => Js.toUint8Clamp (int (working x' y' c) + error c * int k / int 16)%js
             | None => working x' y' c
             end
        else working x' y' c in
      Ok (working', output')
  end.

Definition floydSteinberg_spec (w h : nat) (source : grid) (resolve : resolver) : result grid :=
  '(_, output) ← run (diffuse_pixel source resolve w h) (row_major w h)
                     (source, fun _ _ _ => 0%Z);
  Ok output.

(** ** Threshold offsets over the rationals *)

Definition matrix_entry (M : list (list Z)) (i j : nat) : Z := nth j (nth i M []) 0%Z.

Definition matrix_ok (n : nat) (M : list (list Z)) : Prop :=
  length M = n ∧
  Forall (fun row => length row = n ∧ Forall (fun v => (0 <= v < Z.of_nat (n * n))%Z) row) M.

(** [((m + 0.5) / size - 0.5) * 255] over the rationals. *)
Definition spec_offset (size m : Z) : Q :=
  (((inject_Z m + (1 # 2)) / inject_Z size - (1 # 2)) * 255)%Q.

Definition clampQ (q : Q) : Q :=
  if Qle_bool q 0 then 0%Q else if Qle_bool 255 q then 255%Q else q.

(** The number [x], not a negative zero, has exactly the value [q]. *)
Definition exactly (x : Js.number) (q : Q) : bool :=
  match Js.to_Q x with
  | Some v => Qeq_bool v q && negb (Js.sign_bit x && Js.is_zero x)
  | None => false
  end.

(** ** Numbers of few bits *)

#[global] Instance number_eq_dec : EqDecision Js.number.
Proof. solve_decision. Defined.

(** The number [m * 2^e]; [Js.of_Z z] is [dyadic z 0]. *)
Definition dyadic (m e : Z) : Js.number := binary_normalize Js.prec Js.emax m e false.

(** [x] is a zero or a finite number of absolute value below [2 ^ D]. *)
Definition below (D : Z) (x : Js.number) : Prop :=
  match x with
  | S754_zero _ => True
  | S754_finite _ m e => (Z.pos m < 2 ^ (D - e))%Z
  | _ => False
  end.

(** ** Colours of bytes *)

(** The byte that channel [k] of a colour is stored as. *)
Definition channel_byte (c : color) (k : nat) : Z := Js.toUint8Clamp (chan c k).

(** A colour of three channels or more, the first three of them integers in
    [0, 255]. *)
Definition byte_color (c : color) : Prop :=
  3 <= length c ∧ forall k, k < 3 -> chan c k = Js.of_Z (channel_byte c k).

(** A palette every usable entry of which is such a colour. *)
Definition byte_palette (palette : list jsval) : Prop :=
  forall c, Some c ∈ palette -> 3 <= length c -> byte_color c.

(** The squared distance in integers. *)
Definition distanceZ (r g b : Z) (c : color) : Z :=
  (let dr := r - channel_byte c 0 in
   let dg := g - channel_byte c 1 in
   let db := b - channel_byte c 2 in
   dr * dr + dg * dg + db * db)%Z.

(** The resolver [(r, g, b) => ColorPalettes.findClosestColor(r, g, b, palette)]. *)
Definition nearest_in (palette : list jsval) : resolver :=
  fun r g b => findClosestColor r g b (Some palette).

(** The resolver
    [(r, g, b) => ColorPalettes.findClosestMonochromeColor(r, g, b, t)] for
    an integer [t]. *)
Definition mono (t : Z) : resolver :=
  fun r g b => findClosestMonochromeColor r g b (int t).

(** The pixel [(x, y)] of [out] holds the colour [c] as it is stored. *)
Definition shows (out : ImageData) (x y : nat) (c : color) : Prop :=
  forall k, k < 3 -> byte_at out x y k = Some (channel_byte c k).

(** A pixel that the resolver answers with its own colour. *)
Definition fixed_pixel (f : resolver) (img : ImageData) (x y : nat) : Prop :=
  forall r g b, rgb_at img x y = [Some r; Some g; Some b] ->
    exists c, f (int r) (int g) (int b) = Some c ∧ 3 <= length c ∧
      chan c 0 = int r ∧ chan c 1 = int g ∧ chan c 2 = int b.

(** The 216 colours [(51 i, 51 j, 51 k)] in the order of the three loops. *)
Definition webSafe_colors : list jsval :=
  i ← seq 0 6; j ← seq 0 6; k ← seq 0 6;
  [Some [int (51 * Z.of_nat i); int (51 * Z.of_nat j); int (51 * Z.of_nat k)]].

(** The index, 0 to 5, of the multiple of 51 nearest to a byte. *)
Definition nearest51 (x : Z) : Z := ((x + 25) / 51)%Z.

(** ** The order of the scan *)

(** [(x', y')] is visited no later than [(x, y)] by the row-major scan. *)
Definition upto (x y x' y' : nat) : Prop := y' < y ∨ (y' = y ∧ x' <= x).

Definition grid_bytes (W : grid) : Prop := forall x y c, is_byte (W x y c).

(** ** Integer arithmetic of the transforms *)

(** [n / 16] rounded to the nearest integer, a tie going to the even one. *)
Definition round16 (n : Z) : Z :=
  (let q := n / 16 in
   let r := n mod 16 in
   if r <? 8 then q else if 8 <? r then q + 1 else if Z.even q then q else q + 1)%Z.

Definition clamp_byte (z : Z) : Z := Z.max 0 (Z.min 255 z).

(** 128 times the gray level [v] moved by the offset of the matrix entry
    [m], [((m + 1/2) / size - 1/2) * 255], and clamped to [0, 255]. *)
Definition adjusted128 (size m v : Z) : Z :=
  Z.max 0 (Z.min 32640 (128 * v + 255 * (2 * m + 1 - size) * (64 / size))).

(** The three coefficients of the luminance, as the divisions round them. *)
Definition luminance_weights : Js.number * Js.number * Js.number :=
  Eval vm_compute in (Js.decimal 299 1000, Js.decimal 587 1000, Js.decimal 114 1000).

(** The luminance of the gray level [v] lies in [(v - 1, v]]. *)
Definition gray_luminance_ok (v : Z) : bool :=
  let gray := luminance (int v) (int v) (int v) in
  negb (Js.isNaN gray) && (int (v - 1) <? gray)%js && negb (int v <? gray)%js.

(** The luminance of the adjusted gray [a], which is [k / 128], lies
    strictly between the multiples of 1/128 next to it, and is not below it
    when it is a whole number. *)
Definition gray_adjust_ok (a : Js.number) (k : Z) : bool :=
  let '(wr, wg, wb) := luminance_weights in
  let gray := (wr * a + wg * a + wb * a)%js in
  negb (Js.isNaN gray) && (dyadic (k - 1) (-7) <? gray)%js
  && (gray <? dyadic (k + 1) (-7))%js
  && ((negb (k mod 128 =? 0)%Z) || negb (gray <? dyadic k (-7))%js).

Definition gray_adjust_check (n : nat) (size : Z) (M : list (list Z)) : bool :=
  let normalizedMatrix := normalize size M in
  forallb (fun i =>
    forallb (fun j =>
      let threshold := (at2 normalizedMatrix i j * int 255)%js in
      let m := matrix_entry M i j in
      forallb (fun v =>
        gray_adjust_ok (adjust (int (Z.of_nat v)) threshold) (adjusted128 size m (Z.of_nat v)))
        (seq 0 256))
      (seq 0 n))
    (seq 0 n).

(** ** Sample inputs *)

Definition gray2x2 : ImageData :=
  mkImageData (concat (replicate 4 [128; 128; 128; 255]%Z)) 2 2.

Definition gray2x2_marked : ImageData :=
  mkImageData [7; 7; 7; 7; 128; 128; 128; 255; 9; 9; 9; 9; 1; 2; 3; 4]%Z 2 2.

Definition translucent2x2 : ImageData :=
  mkImageData [200; 10; 10; 17; 0; 128; 255; 99; 30; 30; 30; 0; 255; 255; 255; 254]%Z 2 2.

Definition one_pixel : ImageData := mkImageData [10; 20; 30; 255]%Z 1 1.

(** What the transforms return on them with the monochrome resolver. *)
Definition gray2x2_dithered : ImageData :=
  mkImageData [0; 0; 0; 255; 255; 255; 255; 255; 255; 255; 255; 255; 0; 0; 0; 255]%Z 2 2.

Definition gray2x2_marked_dithered : ImageData :=
  mkImageData [0; 0; 0; 7; 255; 255; 255; 255; 0; 0; 0; 9; 0; 0; 0; 4]%Z 2 2.

Definition translucent2x2_diffused : ImageData :=
  mkImageData [0; 0; 0; 17; 255; 255; 255; 99; 0; 0; 0; 0; 255; 255; 255; 254]%Z 2 2.

Definition translucent2x2_ordered : ImageData :=
  mkImageData [0; 0; 0; 17; 0; 0; 0; 99; 0; 0; 0; 0; 255; 255; 255; 254]%Z 2 2.

Definition mono128 : resolver :=
  fun r g b => findClosestMonochromeColor r g b (Js.of_Z 128).

Definition noise3x2 : ImageData :=
  mkImageData
    [240; 93; 155; 102; 209; 135; 125; 255; 181; 212; 111; 158;
     169; 38; 105; 239; 75; 108; 210; 29; 178; 213; 238; 63]%Z 3 2.

Definition cga_resolver : resolver :=
  fun r g b => findClosestColor r g b (Some cga).

(** A resolver whose answers have four entries, out of range or fractional. *)
Definition loud : resolver :=
  fun _ _ _ => Some [int 300; int (-20); Js.decimal 255 2; int 7].

(** A resolver that answers with two channels only once the working value
    has been pushed above 150. *)
Definition shy : resolver :=
  fun r g b => if (int 150 <? r)%js then Some [int 0; int 0] else Some black.

(** An image of black and white pixels, and two images that differ in
    their last pixel only, with what [floydSteinberg] makes of them. *)
Definition checker2x2 : ImageData :=
  mkImageData [0; 0; 0; 255; 255; 255; 255; 255; 255; 255; 255; 10; 0; 0; 0; 0]%Z 2 2.

Definition gray2x2_tail : ImageData :=
  mkImageData [128; 128; 128; 255; 128; 128; 128; 255; 128; 128; 128; 255; 9; 9; 9; 9]%Z 2 2.

Definition gray2x2_diffused : ImageData :=
  mkImageData [0; 0; 0; 255; 255; 255; 255; 255; 255; 255; 255; 255; 0; 0; 0; 255]%Z 2 2.

Definition gray2x2_tail_diffused : ImageData :=
  mkImageData [0; 0; 0; 255; 255; 255; 255; 255; 255; 255; 255; 255; 0; 0; 0; 9]%Z 2 2.

Definition noise3x2_cga_diffused : ImageData :=
  mkImageData
    [255; 85; 255; 102; 255; 85; 255; 255; 85; 255; 255; 158;
     0; 0; 0; 239; 85; 255; 255; 29; 255; 85; 255; 63]%Z 3 2.

(** A row of nine pixels, the first and the last of the same colour. *)
Definition stripe9x1 : ImageData :=
  mkImageData
    [200; 100; 50; 255; 10; 20; 30; 255; 40; 50; 60; 255; 70; 80; 90; 255;
     100; 110; 120; 255; 130; 140; 150; 255; 160; 170; 180; 255; 190; 200; 210; 255;
     200; 100; 50; 77]%Z 9 1.

(** The page once [noise3x2] is loaded, and a choice of the controls. *)
Definition app_loaded : App :=
  mkApp (Some noise3x2) None None true true true "An error occurred. Please try again.".

Definition bayer_cga : Controls := mkControls "bayer" "cga" (int 128).

(** A palette with a null slot, an entry of two channels and an entry of
    four. *)
Definition mixed_palette : list jsval :=
  [ None; Some [int 0; int 0]; Some black;
    Some [int 255; int 255; int 255; int 128]; Some white ].

(** * Numbers *)

(** ** Stores into a clamped byte array *)

Lemma round_half_even_nonneg m e : (0 <= Js.round_half_even m e)%Z.
Proof.
  unfold Js.round_half_even.
  destruct (0 <=? e)%Z eqn:He.
  - apply Z.leb_le in He. apply Z.mul_nonneg_nonneg; [lia |].
    apply Z.pow_nonneg. lia.
  - apply Z.leb_gt in He.
    assert (Hd : (0 < 2 ^ (- e))%Z) by (apply Z.pow_pos_nonneg; lia).
    assert (Hq : (0 <= Z.pos m / 2 ^ (- e))%Z) by (apply Z.div_pos; lia).
    destruct (2 * (Z.pos m mod 2 ^ (- e)) ?= 2 ^ (- e))%Z; [| lia | lia].
    destruct (Z.even _); lia.
Qed.

Lemma toUint8Clamp_byte x : is_byte (Js.toUint8Clamp x).
Proof.
  unfold is_byte.
  destruct x as [s | s | | s m e]; simpl; try lia.
  - destruct s; lia.
  - destruct s; [lia |].
    destruct (8 <=? e)%Z; [lia |].
    pose proof (round_half_even_nonneg m e). lia.
Qed.

Lemma toUint8Clamp_of_Z v : is_byte v -> Js.toUint8Clamp (Js.of_Z v) = v.
Proof.
  intros Hv.
  assert (Hall : forallb (fun n => (Js.toUint8Clamp (Js.of_Z (Z.of_nat n)) =? Z.of_nat n)%Z)
                   (seq 0 256) = true) by (vm_compute; reflexivity).
  rewrite forallb_forall in Hall.
  specialize (Hall (Z.to_nat v)).
  unfold is_byte in Hv.
  rewrite Z2Nat.id in Hall by lia.
  apply Z.eqb_eq, Hall, in_seq. lia.
Qed.

Lemma round_half_even_nearest m e :
  (e < 0)%Z ->
  (2 * Z.abs (Js.round_half_even m e * 2 ^ (- e) - Z.pos m) <= 2 ^ (- e))%Z.
Proof.
  intros He. unfold Js.round_half_even.
  destruct (Z.leb_spec 0 e) as [| _]; [lia |].
  assert (Hd : (0 < 2 ^ (- e))%Z) by (apply Z.pow_pos_nonneg; lia).
  pose proof (Z.div_mod (Z.pos m) (2 ^ (- e)) ltac:(lia)) as Hdm.
  pose proof (Z.mod_pos_bound (Z.pos m) (2 ^ (- e)) Hd) as Hr.
  set (d := (2 ^ (- e))%Z) in *.
  set (q := (Z.pos m / d)%Z) in *. set (r := (Z.pos m mod d)%Z) in *.
  destruct (Z.compare_spec (2 * r) d) as [Heq | Hlt | Hgt].
  - destruct (Z.even q); lia.
  - lia.
  - lia.
Qed.

Lemma round_half_even_monotone_255 m e :
  (e < 0)%Z ->
  (Z.pos m <= 255 * 2 ^ (- e) -> Js.round_half_even m e <= 255)%Z ∧
  (255 * 2 ^ (- e) <= Z.pos m -> 255 <= Js.round_half_even m e)%Z.
Proof.
  intros He.
  assert (Hd : (0 < 2 ^ (- e))%Z) by (apply Z.pow_pos_nonneg; lia).
  pose proof (round_half_even_nearest m e He) as Hn.
  assert (Heven : (2 ^ (- e) = 2 * 2 ^ (- e - 1))%Z).
  { rewrite <- Z.pow_succ_r by lia. f_equal. lia. }
  set (d := (2 ^ (- e))%Z) in *. set (n := Js.round_half_even m e) in *.
  set (k := (2 ^ (- e - 1))%Z) in *.
  split; intros Hm; nia.
Qed.

(** [toUint8Clamp] on a number of value [q]: 0 below 0, 255 above 255, and
    in between an integer within 1/2 of [q]. *)
Lemma toUint8Clamp_nearest x q :
  Js.to_Q x = Some q ->
  (q <= 0 -> Js.toUint8Clamp x = 0%Z)%Q ∧
  (255 <= q -> Js.toUint8Clamp x = 255%Z)%Q ∧
  (0 <= q -> q <= 255 ->
     inject_Z (Js.toUint8Clamp x) - (1 # 2) <= q ∧
     q <= inject_Z (Js.toUint8Clamp x) + (1 # 2))%Q.
Proof.
  destruct x as [s | s | | s m e]; try done; cbn [Js.to_Q Js.toUint8Clamp].
  - intros [= <-]. split_and!; try done.
  - intros [= <-].
    destruct (Z.leb_spec 0 e) as [He | He].
    + (* an integer *)
      assert (Hp : (0 < 2 ^ e)%Z) by (apply Z.pow_pos_nonneg; lia).
      assert (H8 : (8 <= e -> 256 <= 2 ^ e)%Z).
      { intros H. change 256%Z with (2 ^ 8)%Z. apply Z.pow_le_mono_r; lia. }
      unfold Js.round_half_even. destruct (Z.leb_spec 0 e) as [_ |]; [| lia].
      destruct s; unfold Qle; cbn; destruct (Z.leb_spec 8 e); split_and!; intros; nia.
    + pose proof (round_half_even_nearest m e He) as Hn.
      pose proof (round_half_even_monotone_255 m e He) as [Hle Hge].
      pose proof (round_half_even_nonneg m e) as H0.
      assert (Hd : (0 < 2 ^ (- e))%Z) by (apply Z.pow_pos_nonneg; lia).
      destruct (Z.leb_spec 8 e); [lia |].
      destruct s; unfold Qle; cbn; rewrite ?Z2Pos.id by lia;
        set (d := (2 ^ (- e))%Z) in *; set (n := Js.round_half_even m e) in *;
        split_and!; intros; try lia; nia.
Qed.

(** ** Numbers that are not NaN *)

(** [x] is a zero, a finite number or an infinity of sign [s]. *)
Definition signed (s : bool) (x : Js.number) : Prop :=
  match x with
  | S754_zero s' | S754_infinity s' | S754_finite s' _ _ => s' = s
  | S754_nan => False
  end.

Lemma signed_not_nan s x : signed s x -> Js.isNaN x = false.
Proof. by destruct x. Qed.

Lemma shr_1_nonneg mrs : (0 <= shr_m mrs)%Z -> (0 <= shr_m (shr_1 mrs))%Z.
Proof. destruct mrs as [[| [p | p |] | p] rb sb]; cbn; lia. Qed.

Lemma iter_shr_1_nonneg p mrs :
  (0 <= shr_m mrs)%Z -> (0 <= shr_m (SpecFloat.iter_pos shr_1 p mrs))%Z.
Proof.
  revert mrs. induction p as [p IH | p IH |]; intros mrs Hm; cbn.
  - by apply IH, IH, shr_1_nonneg.
  - by apply IH, IH.
  - by apply shr_1_nonneg.
Qed.

Lemma shr_fexp_nonneg m e l :
  (0 <= m)%Z -> (0 <= shr_m (shr_fexp Js.prec Js.emax m e l).1)%Z.
Proof.
  intros Hm. unfold shr_fexp, shr.
  assert (H0 : (0 <= shr_m (shr_record_of_loc m l))%Z) by by destruct l as [| []].
  destruct (_ - e)%Z; cbn [fst]; [done | by apply iter_shr_1_nonneg | done].
Qed.

Lemma round_nearest_even_nonneg m l : (0 <= m)%Z -> (0 <= round_nearest_even m l)%Z.
Proof.
  intros Hm. unfold round_nearest_even.
  destruct l as [| []]; try lia. destruct (Z.even m); lia.
Qed.

Lemma binary_round_aux_signed s m e l :
  (0 <= m)%Z -> signed s (binary_round_aux Js.prec Js.emax s m e l).
Proof.
  intros Hm. unfold binary_round_aux.
  pose proof (shr_fexp_nonneg m e l Hm) as H1.
  destruct (shr_fexp Js.prec Js.emax m e l) as [mrs' e'] eqn:E1. cbn [fst] in H1.
  pose proof (shr_fexp_nonneg _ e' loc_Exact
                (round_nearest_even_nonneg _ (loc_of_shr_record mrs') H1)) as H2.
  destruct (shr_fexp Js.prec Js.emax _ e' loc_Exact) as [mrs'' e''] eqn:E2. cbn [fst] in H2.
  destruct (shr_m mrs'') as [| p | p]; [done | | lia].
  by destruct (e'' <=? _)%Z.
Qed.

Lemma binary_round_signed s m e : signed s (binary_round Js.prec Js.emax s m e).
Proof.
  unfold binary_round. destruct (shl_align m e _) as [mz ez].
  by apply binary_round_aux_signed.
Qed.

Lemma binary_normalize_not_nan m e : Js.isNaN (binary_normalize Js.prec Js.emax m e false) = false.
Proof.
  destruct m as [| p | p]; cbn [binary_normalize]; [done | |];
    eapply signed_not_nan, binary_round_signed.
Qed.

(** ** The order of numbers *)

Ltac compare_cases :=
  repeat match goal with
         | H : context [(?a ?= ?b)%Z] |- _ => destruct (Z.compare_spec a b); cbn in H
         | H : context [Pos.compare_cont Eq ?a ?b] |- _ =>
             change (Pos.compare_cont Eq a b) with (Pos.compare a b) in H;
             destruct (Pos.compare_spec a b); cbn in H
         | |- context [(?a ?= ?b)%Z] => destruct (Z.compare_spec a b); cbn
         | |- context [Pos.compare_cont Eq ?a ?b] =>
             change (Pos.compare_cont Eq a b) with (Pos.compare a b);
             destruct (Pos.compare_spec a b); cbn
         end;
  try congruence; try lia.

Lemma lt_irrefl x : Js.lt x x = false.
Proof.
  unfold Js.lt, SFltb, SFcompare.
  destruct x as [[] | [] | | [] m e]; cbn; try done; compare_cases.
Qed.

Lemma lt_trans x y z : Js.lt x y = true -> Js.lt y z = true -> Js.lt x z = true.
Proof.
  unfold Js.lt, SFltb, SFcompare.
  destruct x as [[] | [] | | [] mx ex], y as [[] | [] | | [] my ey],
           z as [[] | [] | | [] mz ez]; cbn; try done; intros Hxy Hyz; compare_cases.
Qed.

(** Two numbers that are not NaN compare one way or the other, or are equal:
    what lies below [z] lies below whatever does not. *)
Lemma lt_connex x y z :
  Js.isNaN y = false -> Js.lt x z = true -> Js.lt y z = false -> Js.lt x y = true.
Proof.
  unfold Js.lt, SFltb, SFcompare.
  destruct x as [[] | [] | | [] mx ex], y as [[] | [] | | [] my ey],
           z as [[] | [] | | [] mz ez]; cbn; try done; intros Hy Hxz Hyz; compare_cases.
Qed.

(** The three coefficients are the binary64 numbers nearest to 0.299, 0.587
    and 0.114: each is within half a unit in the last place of the decimal. *)
Lemma luminance_coefficients :
  forallb (fun '(n, ulp) =>
             match Js.to_Q (Js.decimal n 1000) with
             | Some v => Qle_bool (v - (1 # ulp)) (n # 1000) && Qle_bool (n # 1000) (v + (1 # ulp))
             | None => false
             end)
          [(299%Z, Pos.pow 2 55); (587%Z, Pos.pow 2 54); (114%Z, Pos.pow 2 57)] = true.
Proof. vm_compute. reflexivity. Qed.

(** ** Numbers computed exactly

    A number [m * 2^e] whose integer [m] has at most 53 binary digits is
    represented without rounding. Sums, differences, products and
    comparisons of such numbers are those of the integers, as long as the
    result has at most 53 digits too. *)

Section Exact.
Local Open Scope Z_scope.

Lemma digits2_pos_bounds p :
  2 ^ (Z.pos (digits2_pos p) - 1) <= Z.pos p < 2 ^ Z.pos (digits2_pos p).
Proof.
  induction p as [p IH | p IH |]; cbn [digits2_pos].
  - rewrite Pos2Z.inj_succ.
    replace (Z.succ (Z.pos (digits2_pos p)) - 1) with (Z.succ (Z.pos (digits2_pos p) - 1)) by lia.
    rewrite !Z.pow_succ_r by lia. lia.
  - rewrite Pos2Z.inj_succ.
    replace (Z.succ (Z.pos (digits2_pos p)) - 1) with (Z.succ (Z.pos (digits2_pos p) - 1)) by lia.
    rewrite !Z.pow_succ_r by lia. lia.
  - cbn. lia.
Qed.

Lemma digits2_pos_unique p k :
  2 ^ (k - 1) <= Z.pos p < 2 ^ k -> Z.pos (digits2_pos p) = k.
Proof.
  intros [Hlo Hhi]. pose proof (digits2_pos_bounds p) as [Hlo' Hhi'].
  assert (Hk : 0 < k).
  { destruct k as [| k | k]; [cbn in Hhi; lia | lia |].
    rewrite Z.pow_neg_r in Hhi by lia. lia. }
  destruct (Z.lt_trichotomy (Z.pos (digits2_pos p)) k) as [Hlt | [Heq | Hgt]]; [| done |].
  - assert (2 ^ Z.pos (digits2_pos p) <= 2 ^ (k - 1)) by (apply Z.pow_le_mono_r; lia). lia.
  - assert (2 ^ k <= 2 ^ (Z.pos (digits2_pos p) - 1)) by (apply Z.pow_le_mono_r; lia). lia.
Qed.

Lemma digits2_pos_shift p q j :
  0 <= j -> Z.pos q = Z.pos p * 2 ^ j ->
  Z.pos (digits2_pos q) = Z.pos (digits2_pos p) + j.
Proof.
  intros Hj Hq. apply digits2_pos_unique.
  pose proof (digits2_pos_bounds p) as [Hlo Hhi].
  replace (Z.pos (digits2_pos p) + j - 1) with (Z.pos (digits2_pos p) - 1 + j) by lia.
  rewrite !Z.pow_add_r by lia.
  assert (0 < 2 ^ j) by (apply Z.pow_pos_nonneg; lia).
  rewrite Hq. nia.
Qed.

Lemma iter_xO_val p k : Z.pos (Pos.iter xO p k) = Z.pos p * 2 ^ Z.pos k.
Proof.
  induction k as [| k IH] using Pos.peano_ind.
  - cbn. lia.
  - rewrite Pos.iter_succ, Pos2Z.inj_succ, Z.pow_succ_r by lia.
    rewrite Pos2Z.inj_xO, IH. lia.
Qed.

Lemma iter_shr_1_exact k Q :
  SpecFloat.iter_pos shr_1 k (Build_shr_record (Z.pos (Pos.iter xO Q k)) false false)
  = Build_shr_record (Z.pos Q) false false.
Proof.
  revert Q. induction k as [k IH | k IH |]; intros Q; cbn [SpecFloat.iter_pos Pos.iter].
  - cbn [shr_1 orb]. by rewrite !IH.
  - by rewrite !IH.
  - done.
Qed.

Lemma fexp_normal d : -1021 <= d -> fexp Js.prec Js.emax d = d - 53.
Proof. intros Hd. unfold fexp, emin, Js.prec, Js.emax. lia. Qed.

(** A mantissa of 53 digits followed by [j] zero bits rounds to itself. *)
Lemma binary_round_aux_exact s (M P : positive) (j e : Z) :
  Z.pos (digits2_pos P) = 53 -> 0 <= j -> Z.pos M = Z.pos P * 2 ^ j ->
  -1074 <= e + j <= 971 ->
  binary_round_aux Js.prec Js.emax s (Z.pos M) e loc_Exact = S754_finite s P (e + j).
Proof.
  intros HP Hj HM He.
  pose proof (digits2_pos_shift P M j Hj HM) as HdM.
  unfold binary_round_aux, shr_fexp. cbn [Zdigits2 shr_record_of_loc].
  rewrite HdM, HP, fexp_normal by lia.
  replace (53 + j + e - 53 - e) with j by lia.
  assert (Hshr : shr (Build_shr_record (Z.pos M) false false) e j
                 = (Build_shr_record (Z.pos P) false false, e + j)).
  { destruct j as [| k | k]; [| | lia].
    - cbn. f_equal; [| lia]. f_equal. rewrite HM. lia.
    - cbn [shr]. f_equal. rewrite <- (iter_shr_1_exact k P). do 2 f_equal.
      rewrite iter_xO_val. done. }
  rewrite Hshr. cbn [shr_m loc_of_shr_record round_nearest_even Zdigits2 shr_record_of_loc].
  rewrite HP, fexp_normal by lia.
  replace (53 + (e + j) - 53 - (e + j)) with 0 by lia.
  cbn [shr shr_m].
  unfold Js.emax, Js.prec.
  destruct (Z.leb_spec (e + j) (1024 - 53)); [done | lia].
Qed.

Lemma binary_round_exact s (M P : positive) (a e : Z) :
  Z.pos (digits2_pos P) = 53 ->
  (0 <= a -> Z.pos M = Z.pos P * 2 ^ a) ->
  (a < 0 -> Z.pos P = Z.pos M * 2 ^ (- a)) ->
  -1074 <= e + a <= 971 ->
  binary_round Js.prec Js.emax s M e = S754_finite s P (e + a).
Proof.
  intros HP Hpos Hneg He.
  assert (HdM : Z.pos (digits2_pos M) = 53 + a).
  { destruct (Z.leb_spec 0 a) as [Ha | Ha].
    - rewrite (digits2_pos_shift P M a Ha (Hpos Ha)). lia.
    - pose proof (digits2_pos_shift M P (- a) ltac:(lia) (Hneg Ha)). lia. }
  unfold binary_round. rewrite HdM, fexp_normal by lia.
  unfold shl_align. replace (53 + a + e - 53 - e) with a by lia.
  destruct a as [| k | k].
  - rewrite (binary_round_aux_exact s M P 0 e); [done | done | lia | by apply Hpos | lia].
  - rewrite (binary_round_aux_exact s M P (Z.pos k) e); [done | done | lia | by apply Hpos | lia].
  - assert (Pos.iter xO M k = P) as ->.
    { apply Pos2Z.inj. rewrite iter_xO_val, (Hneg ltac:(lia)). done. }
    rewrite (binary_round_aux_exact s P P 0); [f_equal; lia | done | lia | lia | lia].
Qed.

(** The mantissa of a nonzero [m] with at most 53 digits, once normalised. *)
Definition mant (m : Z) : positive := Z.to_pos (Z.abs m * 2 ^ (53 - Zdigits2 m)).

Lemma Zdigits2_bounds m :
  m <> 0 -> 2 ^ (Zdigits2 m - 1) <= Z.abs m < 2 ^ Zdigits2 m.
Proof. destruct m as [| p | p]; [done | |]; intros _; apply digits2_pos_bounds. Qed.

Lemma Zdigits2_range m : m <> 0 -> Z.abs m < 2 ^ 53 -> 1 <= Zdigits2 m <= 53.
Proof.
  intros Hm Hlt. pose proof (Zdigits2_bounds m Hm) as [Hlo Hhi].
  split; [destruct m; cbn; lia |].
  destruct (Z.leb_spec (Zdigits2 m) 53) as [| Hgt]; [done |].
  assert (2 ^ 53 <= 2 ^ (Zdigits2 m - 1)) by (apply Z.pow_le_mono_r; lia). lia.
Qed.

Lemma mant_val m :
  m <> 0 -> Z.abs m < 2 ^ 53 -> Z.pos (mant m) = Z.abs m * 2 ^ (53 - Zdigits2 m).
Proof.
  intros Hm Hlt. pose proof (Zdigits2_range m Hm Hlt).
  unfold mant. rewrite Z2Pos.id; [done |].
  apply Z.mul_pos_pos; [lia |]. apply Z.pow_pos_nonneg; lia.
Qed.

Lemma mant_digits m :
  m <> 0 -> Z.abs m < 2 ^ 53 -> Z.pos (digits2_pos (mant m)) = 53.
Proof.
  intros Hm Hlt. pose proof (Zdigits2_range m Hm Hlt).
  assert (exists p, Z.abs m = Z.pos p ∧ Zdigits2 m = Z.pos (digits2_pos p)) as (p & Hp & Hd).
  { destruct m as [| p | p]; [done | |]; by exists p. }
  rewrite (digits2_pos_shift p (mant m) (53 - Zdigits2 m)); [lia | lia |].
  rewrite mant_val, Hp by done. done.
Qed.

(** Rounding [p * 2^k * 2^e], for [p] of at most 53 digits, is exact. *)
Lemma binary_round_shifted s (p M : positive) (k e : Z) :
  Z.pos M = Z.pos p * 2 ^ k -> 0 <= k -> Z.pos p < 2 ^ 53 -> -1022 <= e + k <= 971 ->
  binary_round Js.prec Js.emax s M e
  = S754_finite s (mant (Z.pos p)) (e + k + Z.pos (digits2_pos p) - 53).
Proof.
  intros HM Hk Hp He.
  pose proof (Zdigits2_range (Z.pos p) ltac:(done) ltac:(lia)) as Hd. cbn [Zdigits2] in Hd.
  pose proof (mant_val (Z.pos p) ltac:(done) ltac:(lia)) as Hv. cbn [Zdigits2] in Hv.
  replace (e + k + Z.pos (digits2_pos p) - 53) with (e + (k + Z.pos (digits2_pos p) - 53)) by lia.
  apply binary_round_exact.
  - apply mant_digits; [done | lia].
  - intros Ha. rewrite HM, Hv.
    replace k with (53 - Z.pos (digits2_pos p) + (k + Z.pos (digits2_pos p) - 53)) at 1 by lia.
    rewrite Z.pow_add_r by lia. rewrite Z.abs_eq by lia. lia.
  - intros Ha. rewrite HM, Hv.
    replace (53 - Z.pos (digits2_pos p)) with (k + - (k + Z.pos (digits2_pos p) - 53)) by lia.
    rewrite Z.pow_add_r by lia. rewrite Z.abs_eq by lia. lia.
  - lia.
Qed.

Lemma dyadic_shifted m z k e :
  z = m * 2 ^ k -> 0 <= k -> m <> 0 -> Z.abs m < 2 ^ 53 -> -1022 <= e + k <= 971 ->
  dyadic z e = S754_finite (m <? 0) (mant m) (e + k + Zdigits2 m - 53).
Proof.
  intros Hz Hk Hm Hlt He.
  assert (H2 : 0 < 2 ^ k) by (apply Z.pow_pos_nonneg; lia).
  destruct m as [| p | p]; [done | |].
  - destruct z as [| M | M]; [nia | | nia].
    unfold dyadic. cbn [binary_normalize Zdigits2 Z.ltb Z.compare].
    apply binary_round_shifted; [done | done | lia | done].
  - destruct z as [| M | M]; [nia | nia |].
    unfold dyadic. cbn [binary_normalize Zdigits2 Z.ltb Z.compare].
    rewrite (binary_round_shifted true p M k e); [done | nia | done | lia | done].
Qed.

Lemma dyadic_finite m e :
  m <> 0 -> Z.abs m < 2 ^ 53 -> -1022 <= e <= 971 ->
  dyadic m e = S754_finite (m <? 0) (mant m) (e + Zdigits2 m - 53).
Proof.
  intros Hm Hlt He.
  rewrite (dyadic_shifted m m 0 e); [f_equal; lia | cbn; lia | done | done | done | lia].
Qed.

Lemma dyadic_zero e : dyadic 0 e = S754_zero false.
Proof. done. Qed.

(** The same value with a scaled mantissa. *)
Lemma dyadic_align m k e :
  0 <= k -> Z.abs m < 2 ^ 53 -> -1022 <= e + k <= 971 ->
  dyadic (m * 2 ^ k) e = dyadic m (e + k).
Proof.
  intros Hk Hlt He.
  destruct (decide (m = 0)) as [-> | Hm]; [done |].
  rewrite (dyadic_shifted m (m * 2 ^ k) k e), dyadic_finite by done. done.
Qed.

Lemma shl_align_val m ex ez :
  ez <= ex -> Z.pos (shl_align m ex ez).1 = Z.pos m * 2 ^ (ex - ez).
Proof.
  intros Hle. unfold shl_align.
  destruct (ez - ex) as [| d | d] eqn:Hd; cbn [fst].
  - replace (ex - ez) with 0 by lia. cbn. lia.
  - lia.
  - rewrite iter_xO_val. f_equal. f_equal. lia.
Qed.

Lemma cond_Zopp_abs m x : m <> 0 -> cond_Zopp (m <? 0) (Z.abs m * x) = m * x.
Proof. intros Hm. unfold cond_Zopp. destruct (Z.ltb_spec m 0); lia. Qed.

(** The mantissas of two operands of a sum, aligned. *)
Lemma aligned_val m e ez :
  m <> 0 -> Z.abs m < 2 ^ 53 -> ez <= e + Zdigits2 m - 53 ->
  cond_Zopp (m <? 0) (Z.pos (shl_align (mant m) (e + Zdigits2 m - 53) ez).1) = m * 2 ^ (e - ez).
Proof.
  intros Hm Hlt Hle. pose proof (Zdigits2_range m Hm Hlt).
  rewrite shl_align_val, mant_val by done.
  rewrite <- Z.mul_assoc, <- Z.pow_add_r by lia.
  rewrite cond_Zopp_abs by done. do 2 f_equal. lia.
Qed.

Lemma add_dyadic a b e :
  Z.abs a < 2 ^ 53 -> Z.abs b < 2 ^ 53 -> Z.abs (a + b) < 2 ^ 53 -> -1022 <= e <= 971 ->
  (dyadic a e + dyadic b e)%js = dyadic (a + b) e.
Proof.
  intros Ha Hb Hab He.
  destruct (decide (a = 0)) as [-> | Ha0], (decide (b = 0)) as [-> | Hb0].
  - done.
  - rewrite dyadic_zero, Z.add_0_l. by rewrite dyadic_finite.
  - rewrite dyadic_zero, Z.add_0_r. by rewrite dyadic_finite.
  - pose proof (Zdigits2_range a Ha0 Ha). pose proof (Zdigits2_range b Hb0 Hb).
    rewrite (dyadic_finite a), (dyadic_finite b) by done.
    unfold Js.add, SFadd.
    set (ez := Z.min (e + Zdigits2 a - 53) (e + Zdigits2 b - 53)).
    rewrite !aligned_val by (done || lia).
    rewrite <- Z.mul_add_distr_r.
    change (binary_normalize Js.prec Js.emax ?z ez false) with (dyadic z ez).
    rewrite dyadic_align by lia. f_equal. lia.
Qed.

Lemma sub_dyadic a b e :
  Z.abs a < 2 ^ 53 -> Z.abs b < 2 ^ 53 -> Z.abs (a - b) < 2 ^ 53 -> -1022 <= e <= 971 ->
  (dyadic a e - dyadic b e)%js = dyadic (a - b) e.
Proof.
  intros Ha Hb Hab He.
  destruct (decide (a = 0)) as [-> | Ha0], (decide (b = 0)) as [-> | Hb0].
  - done.
  - rewrite dyadic_zero, Z.sub_0_l.
    pose proof (Zdigits2_range b Hb0 Hb).
    rewrite !dyadic_finite by (done || lia). cbn [Js.sub SFsub].
    destruct b as [| p | p]; done.
  - rewrite dyadic_zero, Z.sub_0_r. by rewrite dyadic_finite.
  - pose proof (Zdigits2_range a Ha0 Ha). pose proof (Zdigits2_range b Hb0 Hb).
    rewrite (dyadic_finite a), (dyadic_finite b) by done.
    unfold Js.sub, SFsub.
    set (ez := Z.min (e + Zdigits2 a - 53) (e + Zdigits2 b - 53)).
    rewrite !aligned_val by (done || lia).
    rewrite <- Z.mul_sub_distr_r.
    change (binary_normalize Js.prec Js.emax ?z ez false) with (dyadic z ez).
    rewrite dyadic_align by lia. f_equal. lia.
Qed.

Lemma Zdigits2_mul a b :
  a <> 0 -> b <> 0 -> Zdigits2 a + Zdigits2 b - 1 <= Zdigits2 (a * b).
Proof.
  intros Ha Hb.
  pose proof (Zdigits2_bounds a Ha) as [Ha1 _].
  pose proof (Zdigits2_bounds b Hb) as [Hb1 _].
  pose proof (Zdigits2_bounds (a * b) ltac:(nia)) as [_ Hab].
  assert (1 <= Zdigits2 a) by (destruct a; cbn; lia).
  assert (1 <= Zdigits2 b) by (destruct b; cbn; lia).
  assert (H2 : 2 ^ (Zdigits2 a - 1 + (Zdigits2 b - 1)) < 2 ^ Zdigits2 (a * b)).
  { rewrite Z.pow_add_r by lia. rewrite Z.abs_mul in Hab.
    assert (0 < 2 ^ (Zdigits2 a - 1)) by (apply Z.pow_pos_nonneg; lia).
    assert (0 < 2 ^ (Zdigits2 b - 1)) by (apply Z.pow_pos_nonneg; lia).
    nia. }
  apply Z.pow_lt_mono_r_iff in H2; [lia | lia |].
  destruct (a * b) eqn:E; cbn; lia.
Qed.

Lemma mul_dyadic a b e1 e2 :
  (a = 0 -> 0 <= b) -> (b = 0 -> 0 <= a) ->
  Z.abs a < 2 ^ 53 -> Z.abs b < 2 ^ 53 -> Z.abs (a * b) < 2 ^ 53 ->
  -1022 <= e1 <= 971 -> -1022 <= e2 <= 971 -> -1022 <= e1 + e2 <= 971 ->
  (dyadic a e1 * dyadic b e2)%js = dyadic (a * b) (e1 + e2).
Proof.
  intros Hza Hzb Ha Hb Hab He1 He2 He.
  destruct (decide (a = 0)) as [-> | Ha0], (decide (b = 0)) as [-> | Hb0].
  - done.
  - rewrite Z.mul_0_l, !dyadic_zero, dyadic_finite by done. cbn.
    destruct (Z.ltb_spec b 0); [specialize (Hza eq_refl); lia | done].
  - rewrite Z.mul_0_r, !dyadic_zero, dyadic_finite by done. cbn.
    destruct (Z.ltb_spec a 0); [specialize (Hzb eq_refl); lia | done].
  - pose proof (Zdigits2_range a Ha0 Ha). pose proof (Zdigits2_range b Hb0 Hb).
    assert (Hab0 : a * b <> 0) by nia.
    pose proof (Zdigits2_range (a * b) Hab0 Hab).
    pose proof (Zdigits2_mul a b Ha0 Hb0).
    rewrite (dyadic_finite a), (dyadic_finite b), (dyadic_finite (a * b)) by done.
    unfold Js.mul, SFmul.
    rewrite (binary_round_aux_exact _ _ (mant (a * b))
               (53 - Zdigits2 a - Zdigits2 b + Zdigits2 (a * b))).
    + f_equal; [| lia]. destruct (Z.ltb_spec a 0), (Z.ltb_spec b 0), (Z.ltb_spec (a * b) 0);
        cbn; try done; nia.
    + by apply mant_digits.
    + lia.
    + rewrite Pos2Z.inj_mul, !mant_val by done.
      rewrite Z.abs_mul.
      replace (Z.abs a * 2 ^ (53 - Zdigits2 a) * (Z.abs b * 2 ^ (53 - Zdigits2 b)))
        with (Z.abs a * Z.abs b * (2 ^ (53 - Zdigits2 a) * 2 ^ (53 - Zdigits2 b))) by lia.
      rewrite <- !Z.mul_assoc. do 2 f_equal.
      rewrite <- !Z.pow_add_r by lia. f_equal. lia.
    + lia.
Qed.

Lemma Zdigits2_mono a b :
  0 < a -> 0 < b -> Zdigits2 a < Zdigits2 b -> a < b.
Proof.
  intros Ha Hb Hd.
  pose proof (Zdigits2_bounds a ltac:(lia)) as [_ Ha2].
  pose proof (Zdigits2_bounds b ltac:(lia)) as [Hb1 _].
  assert (2 ^ Zdigits2 a <= 2 ^ (Zdigits2 b - 1)).
  { apply Z.pow_le_mono_r; [lia |]. lia. }
  lia.
Qed.

Lemma mant_compare a b :
  0 < a -> 0 < b -> a < 2 ^ 53 -> b < 2 ^ 53 -> Zdigits2 a = Zdigits2 b ->
  (mant a ?= mant b)%positive = (a ?= b).
Proof.
  intros Ha Hb Ha2 Hb2 Hd.
  rewrite Pos2Z.inj_compare, !mant_val by lia. rewrite Hd, !Z.abs_eq by lia.
  pose proof (Zdigits2_range b ltac:(lia) ltac:(lia)).
  assert (0 < 2 ^ (53 - Zdigits2 b)) by (apply Z.pow_pos_nonneg; lia).
  destruct (Z.compare_spec a b); [subst; apply Z.compare_refl | |].
  - apply Z.compare_lt_iff. nia.
  - apply Z.compare_gt_iff. nia.
Qed.

Lemma lt_dyadic a b e :
  Z.abs a < 2 ^ 53 -> Z.abs b < 2 ^ 53 -> -1022 <= e <= 971 ->
  (dyadic a e <? dyadic b e)%js = (a <? b).
Proof.
  intros Ha Hb He.
  destruct (decide (a = 0)) as [-> | Ha0], (decide (b = 0)) as [-> | Hb0].
  - done.
  - rewrite dyadic_zero, dyadic_finite by done. unfold Js.lt, SFltb. cbn.
    destruct (Z.ltb_spec b 0), (Z.ltb_spec 0 b); try done; lia.
  - rewrite dyadic_zero, dyadic_finite by done. unfold Js.lt, SFltb. cbn.
    destruct (Z.ltb_spec a 0); try done; destruct (Z.ltb_spec a 0); try done; lia.
  - rewrite (dyadic_finite a), (dyadic_finite b) by done.
    unfold Js.lt, SFltb, SFcompare.
    change (Pos.compare_cont Eq (mant a) (mant b)) with (mant a ?= mant b)%positive.
    destruct (Z.ltb_spec a 0) as [Han | Hap], (Z.ltb_spec b 0) as [Hbn | Hbp].
    + (* both negative *)
      replace (mant a) with (mant (- a)) by (unfold mant; destruct a; done).
      replace (mant b) with (mant (- b)) by (unfold mant; destruct b; done).
      assert (Hda : Zdigits2 a = Zdigits2 (- a)) by (destruct a; done).
      assert (Hdb : Zdigits2 b = Zdigits2 (- b)) by (destruct b; done).
      rewrite Hda, Hdb.
      destruct (Z.compare_spec (e + Zdigits2 (- a) - 53) (e + Zdigits2 (- b) - 53)) as [Heq | Hlt | Hgt].
      * rewrite mant_compare by lia.
        destruct (Z.compare_spec (- a) (- b)), (Z.ltb_spec a b); cbn; try done; lia.
      * pose proof (Zdigits2_mono (- a) (- b) ltac:(lia) ltac:(lia) ltac:(lia)).
        destruct (Z.ltb_spec a b); [lia | done].
      * pose proof (Zdigits2_mono (- b) (- a) ltac:(lia) ltac:(lia) ltac:(lia)).
        destruct (Z.ltb_spec a b); [done | lia].
    + destruct (Z.ltb_spec a b); [done | lia].
    + destruct (Z.ltb_spec a b); [lia | done].
    + destruct (Z.compare_spec (e + Zdigits2 a - 53) (e + Zdigits2 b - 53)) as [Heq | Hlt | Hgt].
      * rewrite mant_compare by lia.
        destruct (Z.compare_spec a b), (Z.ltb_spec a b); cbn; try done; lia.
      * pose proof (Zdigits2_mono a b ltac:(lia) ltac:(lia) ltac:(lia)).
        destruct (Z.ltb_spec a b); [done | lia].
      * pose proof (Zdigits2_mono b a ltac:(lia) ltac:(lia) ltac:(lia)).
        destruct (Z.ltb_spec a b); [lia | done].
Qed.

Lemma lt_dyadic_Infinity a e :
  Z.abs a < 2 ^ 53 -> -1022 <= e <= 971 -> (dyadic a e <? Js.Infinity)%js = true.
Proof.
  intros Ha He. destruct (decide (a = 0)) as [-> | Ha0]; [done |].
  by rewrite dyadic_finite.
Qed.

Lemma of_Z_dyadic z : Js.of_Z z = dyadic z 0.
Proof. done. Qed.

Lemma pow2_53 : 2 ^ 53 = 9007199254740992.
Proof. done. Qed.

Lemma sub_bytes a b : is_byte a -> is_byte b -> (int a - int b)%js = int (a - b).
Proof.
  unfold is_byte. intros Ha Hb. rewrite !of_Z_dyadic.
  apply sub_dyadic; rewrite ?pow2_53; lia.
Qed.

Lemma square_small d : -255 <= d <= 255 -> (int d * int d)%js = int (d * d).
Proof.
  intros Hd. rewrite !of_Z_dyadic.
  rewrite mul_dyadic; rewrite ?pow2_53; try lia; try nia. done.
Qed.

Lemma add_small a b :
  0 <= a <= 200000 -> 0 <= b <= 200000 -> (int a + int b)%js = int (a + b).
Proof.
  intros Ha Hb. rewrite !of_Z_dyadic. apply add_dyadic; rewrite ?pow2_53; lia.
Qed.

Lemma lt_small a b :
  0 <= a <= 200000 -> 0 <= b <= 200000 -> (int a <? int b)%js = (a <? b).
Proof.
  intros Ha Hb. rewrite !of_Z_dyadic. apply lt_dyadic; rewrite ?pow2_53; lia.
Qed.

Lemma lt_int a b :
  Z.abs a < 2 ^ 53 -> Z.abs b < 2 ^ 53 -> (int a <? int b)%js = (a <? b).
Proof. intros Ha Hb. rewrite !of_Z_dyadic. by apply lt_dyadic. Qed.

Lemma int_dyadic7 t : Z.abs t < 2 ^ 40 -> int t = dyadic (128 * t) (-7).
Proof.
  intros Ht. rewrite of_Z_dyadic.
  replace (128 * t) with (t * 2 ^ 7) by (cbn; lia).
  rewrite dyadic_align; [done | lia | | lia].
  assert (2 ^ 40 < 2 ^ 53) by (apply Z.pow_lt_mono_r; lia). lia.
Qed.

Lemma add_zero_byte v : is_byte v -> (int v + S754_zero false)%js = int v.
Proof.
  unfold is_byte. intros Hv. change (S754_zero false) with (dyadic 0 0).
  rewrite of_Z_dyadic, add_dyadic; rewrite ?pow2_53, ?Z.add_0_r; (done || lia).
Qed.

Lemma sub_self_byte v : is_byte v -> (int v - int v)%js = S754_zero false.
Proof. intros Hv. by rewrite sub_bytes, Z.sub_diag. Qed.

End Exact.

(** ** Numbers of bounded size

    No operation overflows on numbers that are small: the difference, the
    product and the sum of numbers below a power of two are finite numbers
    below a power of two. *)

Section Magnitude.
Local Open Scope Z_scope.

Lemma shr_1_half mrs : 0 <= shr_m mrs -> shr_m (shr_1 mrs) = shr_m mrs / 2.
Proof.
  destruct mrs as [[| [p | p |] | p] rb sb]; cbn [shr_1 shr_m]; intros H; try lia.
  - done.
  - rewrite Pos2Z.inj_xI. apply (Z.div_unique _ _ _ 1); lia.
  - rewrite Pos2Z.inj_xO. apply (Z.div_unique _ _ _ 0); lia.
  - done.
Qed.

Lemma iter_shr_1_div p mrs :
  0 <= shr_m mrs -> shr_m (SpecFloat.iter_pos shr_1 p mrs) = shr_m mrs / 2 ^ Z.pos p.
Proof.
  revert mrs. induction p as [p IH | p IH |]; intros mrs Hm; cbn [SpecFloat.iter_pos].
  - rewrite IH, IH, shr_1_half
      by (repeat first [apply iter_shr_1_nonneg | apply shr_1_nonneg | done]).
    rewrite !Z.div_div by (try apply Z.pow_pos_nonneg; lia).
    f_equal. rewrite (Pos2Z.inj_xI p).
    replace (2 * Z.pos p + 1) with (Z.pos p + Z.pos p + 1) by lia.
    rewrite !Z.pow_add_r by lia. change (2 ^ 1) with 2. ring.
  - rewrite IH, IH by (repeat first [apply iter_shr_1_nonneg | done]).
    rewrite !Z.div_div by (try apply Z.pow_pos_nonneg; lia).
    f_equal. rewrite (Pos2Z.inj_xO p).
    replace (2 * Z.pos p) with (Z.pos p + Z.pos p) by lia.
    by rewrite !Z.pow_add_r by lia.
  - by apply shr_1_half.
Qed.

Lemma shr_fexp_spec m e l mrs e' :
  0 <= m -> shr_fexp Js.prec Js.emax m e l = (mrs, e') ->
  e' = Z.max e (fexp Js.prec Js.emax (Zdigits2 m + e)) ∧ shr_m mrs = m / 2 ^ (e' - e).
Proof.
  intros Hm. unfold shr_fexp, shr.
  assert (H0 : shr_m (shr_record_of_loc m l) = m) by by destruct l as [| []].
  destruct (fexp Js.prec Js.emax (Zdigits2 m + e) - e) as [| p | p] eqn:Hn; intros [= <- <-].
  - split; [lia |]. rewrite Z.sub_diag, H0. cbn. by rewrite Z.div_1_r.
  - split; [lia |]. rewrite iter_shr_1_div by lia. rewrite H0. f_equal. f_equal. lia.
  - split; [lia |]. rewrite Z.sub_diag, H0. cbn. by rewrite Z.div_1_r.
Qed.

Lemma fexp_le z D : z <= D -> 0 <= D -> fexp Js.prec Js.emax z <= Z.max (D - 53) (-1074).
Proof. unfold fexp, emin, Js.prec, Js.emax. lia. Qed.

Lemma Zdigits2_le m k : 0 <= m -> 0 <= k -> m <= 2 ^ k -> Zdigits2 m <= k + 1.
Proof.
  intros Hm Hk Hle. destruct (decide (m = 0)) as [-> | Hm0]; [cbn; lia |].
  pose proof (Zdigits2_bounds m Hm0) as [Hlo _]. rewrite Z.abs_eq in Hlo by done.
  destruct (Z.leb_spec (Zdigits2 m) (k + 1)) as [| Hgt]; [done |].
  assert (2 ^ (k + 1) <= 2 ^ (Zdigits2 m - 1)) by (apply Z.pow_le_mono_r; lia).
  rewrite Z.pow_add_r in * by lia. lia.
Qed.

Lemma Zdigits2_lt m k : 0 <= m -> 0 <= k -> m < 2 ^ k -> Zdigits2 m <= k.
Proof.
  intros Hm Hk Hle. destruct (decide (m = 0)) as [-> | Hm0]; [cbn; lia |].
  pose proof (Zdigits2_bounds m Hm0) as [Hlo _]. rewrite Z.abs_eq in Hlo by done.
  destruct (Z.leb_spec (Zdigits2 m) k) as [| Hgt]; [done |].
  assert (2 ^ k <= 2 ^ (Zdigits2 m - 1)) by (apply Z.pow_le_mono_r; lia). lia.
Qed.

(** Rounding a value below [2 ^ D] gives a number below [2 ^ (D + 1)]: the
    result is finite. *)
Lemma binary_round_aux_below s m e l D :
  0 < m -> m < 2 ^ (D - e) -> e <= 971 -> 0 <= D <= 1000 ->
  below (D + 1) (binary_round_aux Js.prec Js.emax s m e l).
Proof.
  intros Hm Hlt He HD. unfold binary_round_aux.
  assert (HDe : 0 < D - e).
  { destruct (Z.ltb_spec 0 (D - e)); [done |].
    destruct (D - e) as [| p | p]; [cbn in Hlt; lia | lia |].
    rewrite Z.pow_neg_r in Hlt; lia. }
  pose proof (Zdigits2_lt m (D - e) ltac:(lia) ltac:(lia) Hlt) as Hd.
  destruct (shr_fexp Js.prec Js.emax m e l) as [mrs' e'] eqn:E1.
  apply shr_fexp_spec in E1 as [He' Hm']; [| lia].
  pose proof (fexp_le (Zdigits2 m + e) D ltac:(lia) ltac:(lia)) as Hf1.
  assert (He'1 : e <= e' ∧ e' <= 971 ∧ e' <= D) by lia.
  assert (Hm'1 : 0 <= shr_m mrs' < 2 ^ (D - e')).
  { rewrite Hm'. assert (0 < 2 ^ (e' - e)) by (apply Z.pow_pos_nonneg; lia).
    split; [apply Z.div_pos; lia |].
    apply Z.div_lt_upper_bound; [done |].
    rewrite <- Z.pow_add_r by lia.
    by replace (e' - e + (D - e')) with (D - e) by lia. }
  set (m2 := round_nearest_even (shr_m mrs') (loc_of_shr_record mrs')).
  assert (Hm2 : 0 <= m2 <= 2 ^ (D - e')).
  { unfold m2, round_nearest_even.
    destruct (loc_of_shr_record mrs') as [| []]; try lia. destruct (Z.even _); lia. }
  destruct (shr_fexp Js.prec Js.emax m2 e' loc_Exact) as [mrs'' e''] eqn:E2.
  apply shr_fexp_spec in E2 as [He'' Hm'']; [| lia].
  pose proof (Zdigits2_le m2 (D - e') ltac:(lia) ltac:(lia) ltac:(lia)) as Hd2.
  pose proof (fexp_le (Zdigits2 m2 + e') (D + 1) ltac:(lia) ltac:(lia)) as Hf2.
  assert (He''1 : e' <= e'' ∧ e'' <= 971 ∧ e'' <= D) by lia.
  assert (Hm''1 : 0 <= shr_m mrs'' <= 2 ^ (D - e'')).
  { rewrite Hm''. assert (0 < 2 ^ (e'' - e')) by (apply Z.pow_pos_nonneg; lia).
    split; [apply Z.div_pos; lia |].
    apply Z.div_le_upper_bound; [done |].
    rewrite <- Z.pow_add_r by lia.
    replace (e'' - e' + (D - e'')) with (D - e') by lia. lia. }
  destruct (shr_m mrs'') as [| p | p]; [done | | lia].
  destruct (Z.leb_spec e'' (Js.emax - Js.prec)) as [_ | Hgt];
    [| unfold Js.emax, Js.prec in Hgt; lia].
  cbn [below]. replace (D + 1 - e'') with (Z.succ (D - e'')) by lia.
  rewrite Z.pow_succ_r by lia. assert (0 < 2 ^ (D - e'')) by (apply Z.pow_pos_nonneg; lia). lia.
Qed.

Lemma below_pos D s m e : below D (S754_finite s m e) -> 0 < D - e.
Proof.
  cbn. intros Hlt. destruct (Z.ltb_spec 0 (D - e)); [done |].
  destruct (D - e) as [| p | p]; [cbn in Hlt; lia | lia |].
  rewrite Z.pow_neg_r in Hlt; lia.
Qed.

Lemma below_mono D D' x : D <= D' -> below D x -> below D' x.
Proof.
  intros HD. destruct x as [s | s | | s m e]; try done. intros Hx.
  pose proof (below_pos _ _ _ _ Hx). cbn in *.
  assert (2 ^ (D - e) <= 2 ^ (D' - e)) by (apply Z.pow_le_mono_r; lia). lia.
Qed.

Lemma binary_round_below s m e D :
  Z.pos m < 2 ^ (D - e) -> 0 <= D <= 1000 ->
  below (D + 1) (binary_round Js.prec Js.emax s m e).
Proof.
  intros Hlt HD. pose proof (below_pos D s m e Hlt) as HDe.
  pose proof (Zdigits2_lt (Z.pos m) (D - e) ltac:(lia) ltac:(lia) Hlt) as Hd.
  cbn [Zdigits2] in Hd.
  pose proof (fexp_le (Z.pos (digits2_pos m) + e) D ltac:(lia) ltac:(lia)) as Hf.
  unfold binary_round, shl_align.
  destruct (fexp Js.prec Js.emax (Z.pos (digits2_pos m) + e) - e) as [| p | p] eqn:Hn.
  - apply binary_round_aux_below; (done || lia).
  - apply binary_round_aux_below; (done || lia).
  - apply binary_round_aux_below; try lia.
    rewrite iter_xO_val.
    replace (D - fexp Js.prec Js.emax (Z.pos (digits2_pos m) + e)) with (D - e + Z.pos p) by lia.
    rewrite Z.pow_add_r by lia.
    apply Z.mul_lt_mono_pos_r; [by apply Z.pow_pos_nonneg | done].
Qed.

Lemma binary_normalize_below m e D :
  Z.abs m < 2 ^ (D - e) -> 0 <= D <= 1000 ->
  below (D + 1) (binary_normalize Js.prec Js.emax m e false).
Proof.
  intros Hlt HD. destruct m as [| p | p]; cbn [binary_normalize]; [done | |];
    by apply binary_round_below.
Qed.

Lemma aligned_below D s m e ez :
  below D (S754_finite s m e) -> ez <= e ->
  Z.abs (cond_Zopp s (Z.pos (shl_align m e ez).1)) < 2 ^ (D - ez).
Proof.
  intros Hx Hle. pose proof (below_pos _ _ _ _ Hx). cbn in Hx.
  rewrite shl_align_val by done.
  replace (D - ez) with (D - e + (e - ez)) by lia. rewrite Z.pow_add_r by lia.
  assert (0 < 2 ^ (e - ez)) by (apply Z.pow_pos_nonneg; lia).
  destruct s; cbn [cond_Zopp]; rewrite ?Z.abs_opp, Z.abs_eq by lia;
    by apply Z.mul_lt_mono_pos_r.
Qed.

Lemma add_below D x y :
  below D x -> below D y -> 0 <= D <= 999 -> below (D + 2) (x + y)%js.
Proof.
  intros Hx Hy HD.
  destruct x as [sx | sx | | sx mx ex], y as [sy | sy | | sy my ey]; try done.
  - by destruct sx, sy.
  - apply (below_mono D); [lia | done].
  - apply (below_mono D); [lia | done].
  - cbn [Js.add SFadd]. unfold Js.add, SFadd.
    pose proof (aligned_below D sx mx ex (Z.min ex ey) Hx ltac:(lia)).
    pose proof (aligned_below D sy my ey (Z.min ex ey) Hy ltac:(lia)).
    replace (D + 2) with (D + 1 + 1) by lia.
    apply binary_normalize_below; [| lia].
    replace (D + 1 - Z.min ex ey) with (Z.succ (D - Z.min ex ey)) by lia.
    pose proof (below_pos _ _ _ _ Hx). pose proof (below_pos _ _ _ _ Hy).
    rewrite Z.pow_succ_r by lia.
    set (a := cond_Zopp sx _) in *. set (c := cond_Zopp sy _) in *.
    set (X := 2 ^ _) in *. clearbody a c X. lia.
Qed.

Lemma sub_below D x y :
  below D x -> below D y -> 0 <= D <= 999 -> below (D + 2) (x - y)%js.
Proof.
  intros Hx Hy HD.
  destruct x as [sx | sx | | sx mx ex], y as [sy | sy | | sy my ey]; try done.
  - by destruct sx, sy.
  - apply (below_mono D); [lia | done].
  - apply (below_mono D); [lia | done].
  - unfold Js.sub, SFsub.
    pose proof (aligned_below D sx mx ex (Z.min ex ey) Hx ltac:(lia)).
    pose proof (aligned_below D sy my ey (Z.min ex ey) Hy ltac:(lia)).
    replace (D + 2) with (D + 1 + 1) by lia.
    apply binary_normalize_below; [| lia].
    replace (D + 1 - Z.min ex ey) with (Z.succ (D - Z.min ex ey)) by lia.
    pose proof (below_pos _ _ _ _ Hx). pose proof (below_pos _ _ _ _ Hy).
    rewrite Z.pow_succ_r by lia.
    set (a := cond_Zopp sx _) in *. set (c := cond_Zopp sy _) in *.
    set (X := 2 ^ _) in *. clearbody a c X. lia.
Qed.

Lemma mul_below D1 D2 x y :
  below D1 x -> below D2 y -> 0 <= D1 + D2 <= 900 -> below (D1 + D2 + 1) (x * y)%js.
Proof.
  intros Hx Hy HD.
  destruct x as [sx | sx | | sx mx ex], y as [sy | sy | | sy my ey]; try done.
  unfold Js.mul, SFmul.
  pose proof (below_pos _ _ _ _ Hx). pose proof (below_pos _ _ _ _ Hy). cbn in Hx, Hy.
  apply binary_round_aux_below; [lia | | lia | lia].
  rewrite Pos2Z.inj_mul.
  replace (D1 + D2 - (ex + ey)) with (D1 - ex + (D2 - ey)) by lia.
  rewrite Z.pow_add_r by lia. apply Z.mul_lt_mono_nonneg; lia.
Qed.

Lemma below_finite D x : below D x -> Js.is_finite x = true ∧ (x <? Js.Infinity)%js = true.
Proof. by destruct x as [s | s | | s m e]. Qed.

(** A channel value lies below 256. *)
Lemma channel_value_below v : channel_value v -> below 8 v.
Proof.
  intros [Hvalid Hrange]. destruct v as [s | s | | s m e]; cbn [below].
  - done.
  - by destruct s.
  - done.
  - unfold in_byte_range in Hrange. apply andb_true_iff in Hrange as [H0 H255].
    destruct s; [done |].
    assert (He : e <= -45).
    { change (int 255) with (S754_finite false 8972014882652160 (-45)) in H255.
      unfold SFleb, SFcompare in H255. destruct (Z.compare_spec e (-45)); (done || lia). }
    cbn [valid_binary] in Hvalid. unfold bounded, canonical_mantissa in Hvalid.
    apply andb_true_iff in Hvalid as [Hcan _]. apply Z.eqb_eq in Hcan.
    unfold fexp, emin, Js.prec, Js.emax in Hcan.
    pose proof (digits2_pos_bounds m) as [_ Hhi].
    assert (2 ^ Z.pos (digits2_pos m) <= 2 ^ (8 - e)) by (apply Z.pow_le_mono_r; lia).
    lia.
Qed.

End Magnitude.

(** The squared distance between channel values is a finite number. *)
Lemma distance_channel_values r g b c :
  channel_value r -> channel_value g -> channel_value b ->
  channel_value (chan c 0) -> channel_value (chan c 1) -> channel_value (chan c 2) ->
  Js.is_finite (distance r g b c) = true ∧ (distance r g b c <? Js.Infinity)%js = true.
Proof.
  intros Hr Hg Hb H0 H1 H2. apply (below_finite 25).
  unfold distance. cbv zeta.
  assert (Hsq : forall x y, channel_value x -> channel_value y ->
            below 21 ((x - y) * (x - y))%js).
  { intros x y Hx Hy. apply (mul_below 10 10); [| | lia];
      apply (sub_below 8); (by apply channel_value_below) || lia. }
  apply (add_below 23); [| | lia].
  - apply (add_below 21); [by apply Hsq | by apply Hsq | lia].
  - eapply below_mono; [| by apply Hsq]. lia.
Qed.

(** ** More of the order *)

(** [x <= y < z] *)
Lemma le_lt_trans x y z :
  Js.isNaN x = false -> Js.lt y x = false -> Js.lt y z = true -> Js.lt x z = true.
Proof.
  unfold Js.lt, SFltb, SFcompare.
  destruct x as [[] | [] | | [] mx ex], y as [[] | [] | | [] my ey],
           z as [[] | [] | | [] mz ez]; cbn; try done; intros Hx Hyx Hyz; compare_cases.
Qed.

(** [z <= x < y] refutes [y < z]. *)
Lemma lt_le_not_lt x y z :
  Js.lt x y = true -> Js.lt x z = false -> Js.lt y z = false.
Proof.
  intros Hxy Hxz. destruct (Js.lt y z) eqn:Hyz; [| done].
  by rewrite (lt_trans x y z Hxy Hyz) in Hxz.
Qed.

(** ** The luminance of a gray *)

Lemma luminance_weighted r g b :
  luminance r g b =
    (luminance_weights.1.1 * r + luminance_weights.1.2 * g + luminance_weights.2 * b)%js.
Proof.
  unfold luminance.
  by replace (Js.decimal 299 1000) with luminance_weights.1.1 by (vm_compute; reflexivity);
     replace (Js.decimal 587 1000) with luminance_weights.1.2 by (vm_compute; reflexivity);
     replace (Js.decimal 114 1000) with luminance_weights.2 by (vm_compute; reflexivity).
Qed.

Lemma gray_luminance_check :
  forallb (fun n => gray_luminance_ok (Z.of_nat n)) (seq 0 256) = true.
Proof. vm_compute. reflexivity. Qed.

Lemma gray_luminance v :
  is_byte v ->
  Js.isNaN (luminance (int v) (int v) (int v)) = false ∧
  (int (v - 1) <? luminance (int v) (int v) (int v))%js = true ∧
  (int v <? luminance (int v) (int v) (int v))%js = false.
Proof.
  intros Hv. unfold is_byte in Hv.
  pose proof (proj1 (forallb_forall _ _) gray_luminance_check (Z.to_nat v)) as Hall.
  cbv beta in Hall. rewrite Z2Nat.id in Hall by lia.
  specialize (Hall ltac:(apply in_seq; lia)).
  unfold gray_luminance_ok in Hall.
  apply andb_prop in Hall as [[H1 H2]%andb_prop H3].
  apply negb_true_iff in H1, H3. by split_and!.
Qed.

(** ** The sixteenths of the error diffusion *)

Lemma sixteenth_check :
  forallb (fun i => let n := (Z.of_nat i - 1785)%Z in
                    bool_decide ((int n / int 16)%js = dyadic n (-4)))
          (seq 0 (Z.to_nat 3571)) = true.
Proof. vm_compute. reflexivity. Qed.

Lemma store_check :
  forallb (fun i => let n := (Z.of_nat i - 1785)%Z in
                    (Js.toUint8Clamp (dyadic n (-4)) =? clamp_byte (round16 n))%Z)
          (seq 0 (Z.to_nat 7651)) = true.
Proof. vm_compute. reflexivity. Qed.

Section ExactDiffusion.
Local Open Scope Z_scope.

Lemma sixteenth n : -1785 <= n <= 1785 -> (int n / int 16)%js = dyadic n (-4).
Proof.
  intros Hn.
  pose proof (proj1 (forallb_forall _ _) sixteenth_check (Z.to_nat (n + 1785))) as Hall.
  cbv beta zeta in Hall. rewrite Z2Nat.id in Hall by lia.
  replace (n + 1785 - 1785) with n in Hall by lia.
  eapply bool_decide_eq_true_1, Hall, in_seq. lia.
Qed.

Lemma store_sixteenths n :
  -1785 <= n <= 5865 -> Js.toUint8Clamp (dyadic n (-4)) = clamp_byte (round16 n).
Proof.
  intros Hn.
  pose proof (proj1 (forallb_forall _ _) store_check (Z.to_nat (n + 1785))) as Hall.
  cbv beta zeta in Hall. rewrite Z2Nat.id in Hall by lia.
  replace (n + 1785 - 1785) with n in Hall by lia.
  apply Z.eqb_eq, Hall, in_seq. lia.
Qed.

(** [data[i] += (r - c) * k / 16] between bytes, in integers. *)
Lemma diffusion_store v r c k :
  is_byte v -> is_byte r -> is_byte c -> 0 < k <= 7 ->
  Js.toUint8Clamp (int v + (int r - int c) * int k / int 16)%js
  = clamp_byte (round16 (16 * v + (r - c) * k)).
Proof.
  unfold is_byte. intros Hv Hr Hc Hk.
  assert (Hp : 2 ^ 53 = 9007199254740992) by done.
  rewrite sub_bytes by done.
  rewrite (of_Z_dyadic (r - c)), (of_Z_dyadic k), mul_dyadic by (rewrite ?Hp; lia || nia).
  change (dyadic ((r - c) * k) (0 + 0)) with (int ((r - c) * k)).
  rewrite sixteenth by nia.
  rewrite (of_Z_dyadic v).
  replace (dyadic v 0) with (dyadic (v * 2 ^ 4) (-4))
    by (rewrite dyadic_align; rewrite ?Hp; (done || lia)).
  rewrite add_dyadic by (rewrite ?Hp; cbn; lia || nia).
  rewrite store_sixteenths by (cbn; nia).
  do 2 f_equal. cbn. lia.
Qed.

End ExactDiffusion.

(** * Arrays and loops *)

(** ** Reads and writes *)

Lemma length_write a i v : length (write a i v) = length a.
Proof. apply length_insert. Qed.

Lemma lookup_write_ne a i j v : i ≠ j -> write a i v !! j = a !! j.
Proof. apply list_lookup_insert_ne. Qed.

Lemma lookup_write_eq a i v :
  i < length a -> write a i v !! i = Some (Js.toUint8Clamp v).
Proof. apply list_lookup_insert_eq. Qed.

Lemma read_write_ne a i j v : i ≠ j -> read (write a i v) j = read a j.
Proof. intros H. unfold read. by rewrite lookup_write_ne. Qed.

Lemma write_bytes a i v : Forall is_byte a -> Forall is_byte (write a i v).
Proof. intros H. apply Forall_insert; [done | apply toUint8Clamp_byte]. Qed.

Lemma length_set_pixel out idx c alpha : length (set_pixel out idx c alpha) = length out.
Proof. unfold set_pixel. by rewrite !length_write. Qed.

Lemma lookup_set_pixel_other out idx c alpha j :
  j < idx ∨ idx + 4 <= j -> set_pixel out idx c alpha !! j = out !! j.
Proof.
  intros H. unfold set_pixel.
  rewrite !lookup_write_ne by lia. done.
Qed.

Lemma lookup_set_pixel out idx c alpha k :
  idx + 3 < length out -> k < 4 ->
  set_pixel out idx c alpha !! (idx + k) =
    Some (Js.toUint8Clamp (if decide (k = 3) then alpha else chan c k)).
Proof.
  intros Hlen Hk. unfold set_pixel.
  destruct k as [|[|[|[|k]]]]; [| | | | lia]; simpl decide; cbv iota.
  - rewrite Nat.add_0_r. rewrite !lookup_write_ne by lia.
    apply lookup_write_eq. lia.
  - rewrite !lookup_write_ne by lia.
    apply lookup_write_eq. rewrite length_write. lia.
  - rewrite !lookup_write_ne by lia.
    apply lookup_write_eq. rewrite !length_write. lia.
  - apply lookup_write_eq. rewrite !length_write. lia.
Qed.

Lemma set_pixel_bytes out idx c alpha :
  Forall is_byte out -> Forall is_byte (set_pixel out idx c alpha).
Proof. intros H. unfold set_pixel. by do 4 apply write_bytes. Qed.

Lemma lookup_set_pixel_gen out idx c alpha j :
  set_pixel out idx c alpha !! j =
    if decide (idx <= j < idx + 4 ∧ j < length out)
    then Some (Js.toUint8Clamp (if decide (j = idx + 3) then alpha else chan c (j - idx)))
    else out !! j.
Proof.
  case_decide as Hj.
  - destruct Hj as [Hj Hlen].
    assert (Hk : exists k, j = idx + k ∧ k < 4) by (exists (j - idx); lia).
    destruct Hk as (k & -> & Hk).
    replace (idx + k - idx) with k by lia.
    unfold set_pixel.
    destruct k as [|[|[|[|k]]]]; [| | | | lia].
    + rewrite decide_False by lia. rewrite !lookup_write_ne by lia.
      rewrite Nat.add_0_r. apply lookup_write_eq. lia.
    + rewrite decide_False by lia. rewrite !lookup_write_ne by lia.
      apply lookup_write_eq. rewrite length_write. lia.
    + rewrite decide_False by lia. rewrite !lookup_write_ne by lia.
      apply lookup_write_eq. rewrite !length_write. lia.
    + rewrite decide_True by lia.
      apply lookup_write_eq. rewrite !length_write. lia.
  - destruct (decide (idx <= j < idx + 4)) as [Hin | Hout].
    + assert (Hlen : length out <= j) by lia.
      rewrite (lookup_ge_None_2 out) by done.
      apply lookup_ge_None_2. by rewrite length_set_pixel.
    + apply lookup_set_pixel_other. lia.
Qed.

Lemma length_add_error d base eR eG eB k :
  length (add_error d base eR eG eB k) = length d.
Proof. unfold add_error. by rewrite !length_write. Qed.

Lemma lookup_add_error_other d base eR eG eB k j :
  j < base ∨ base + 3 <= j -> add_error d base eR eG eB k !! j = d !! j.
Proof.
  intros H. unfold add_error.
  rewrite !lookup_write_ne by lia. done.
Qed.

Definition pick3 {A} (c : nat) (x0 x1 x2 : A) : A :=
  match c with 0 => x0 | 1 => x1 | _ => x2 end.

Lemma lookup_add_error d base eR eG eB k c :
  base + 2 < length d -> c < 3 ->
  add_error d base eR eG eB k !! (base + c) =
    Some (Js.toUint8Clamp (read d (base + c) + pick3 c eR eG eB * int k / int 16)%js).
Proof.
  intros Hlen Hc. unfold add_error.
  destruct c as [|[|[|c]]]; [| | | lia]; simpl pick3.
  - rewrite Nat.add_0_r. rewrite !lookup_write_ne by lia.
    apply lookup_write_eq. lia.
  - rewrite !lookup_write_ne by lia.
    rewrite read_write_ne by lia.
    apply lookup_write_eq. rewrite length_write. lia.
  - rewrite !read_write_ne by lia.
    apply lookup_write_eq. rewrite !length_write. lia.
Qed.

Lemma add_error_bytes d base eR eG eB k :
  Forall is_byte d -> Forall is_byte (add_error d base eR eG eB k).
Proof. intros H. unfold add_error. by do 3 apply write_bytes. Qed.

(** ** The scan as a list of pixels *)

Lemma run_app {St} (body : nat -> nat -> St -> result St) ps qs s :
  run body (ps ++ qs) s = run body ps s ≫= run body qs.
Proof.
  revert s. induction ps as [| p ps IH]; intros s; simpl; [done |].
  destruct (body p.2 p.1 s) as [s' | msg]; simpl; [apply IH | done].
Qed.

Lemma for_loop_row {St} (body : nat -> nat -> St -> result St) y a n s :
  for_loop a n (body y) s = run body (map (fun x => (x, y)) (seq a n)) s.
Proof.
  revert a s. induction n as [| n IH]; intros a s; simpl; [done |].
  destruct (body y a s) as [s' | msg]; simpl; [apply IH | done].
Qed.

Lemma for_loop_rows {St} (body : nat -> nat -> St -> result St) w b m s :
  for_loop b m (fun y => for_loop 0 w (body y)) s =
    run body (flat_map (fun y => map (fun x => (x, y)) (seq 0 w)) (seq b m)) s.
Proof.
  revert b s. induction m as [| m IH]; intros b s; simpl; [done |].
  rewrite run_app, for_loop_row.
  destruct (run body _ s) as [s' | msg]; simpl; [apply IH | done].
Qed.

Lemma nested_loops_row_major {St} (body : nat -> nat -> St -> result St) w h s :
  for_loop 0 h (fun y => for_loop 0 w (body y)) s = run body (row_major w h) s.
Proof. apply for_loop_rows. Qed.

Lemma elem_of_row_major w h x y : (x, y) ∈ row_major w h ↔ x < w ∧ y < h.
Proof.
  unfold row_major. rewrite list_elem_of_In, in_flat_map. split.
  - intros (y' & Hy & Hx). apply in_map_iff in Hx as (x' & Heq & Hx).
    apply in_seq in Hy, Hx. injection Heq as -> ->. lia.
  - intros [Hx Hy]. exists y. split; [apply in_seq; lia |].
    apply in_map_iff. exists x. split; [done | apply in_seq; lia].
Qed.

Lemma row_major_in_bounds w h : Forall (in_bounds w h) (row_major w h).
Proof.
  apply Forall_forall. intros [x y] Hp. by apply elem_of_row_major.
Qed.

Lemma pixel_index_inj w x y x' y' :
  x < w -> x' < w -> pixel_index w x y = pixel_index w x' y' -> x = x' ∧ y = y'.
Proof.
  unfold pixel_index. intros Hx Hx' Heq.
  assert (H : y * w + x = y' * w + x') by lia.
  assert (Hy : y = y').
  { destruct (Nat.lt_trichotomy y y') as [Hlt | [Heq' | Hgt]]; [| done |].
    - assert (y * w + w <= y' * w) by (replace (y * w + w) with ((S y) * w) by lia;
        apply Nat.mul_le_mono_r; lia). lia.
    - assert (y' * w + w <= y * w) by (replace (y' * w + w) with ((S y') * w) by lia;
        apply Nat.mul_le_mono_r; lia). lia. }
  subst y'. lia.
Qed.

Lemma pixel_index_apart w x y x' y' :
  x < w -> x' < w -> (x, y) ≠ (x', y') ->
  pixel_index w x y + 4 <= pixel_index w x' y' ∨ pixel_index w x' y' + 4 <= pixel_index w x y.
Proof.
  intros Hx Hx' Hne.
  destruct (decide (pixel_index w x y = pixel_index w x' y')) as [Heq | Hneq].
  - apply pixel_index_inj in Heq as [-> ->]; [done | done | done].
  - unfold pixel_index in *. lia.
Qed.

Lemma pixel_index_bound w h x y :
  x < w -> y < h -> pixel_index w x y + 3 < w * h * 4.
Proof.
  unfold pixel_index. intros Hx Hy.
  assert (y * w + w <= h * w) by (replace (y * w + w) with ((S y) * w) by lia;
    apply Nat.mul_le_mono_r; lia).
  lia.
Qed.

Lemma pixel_index_4 w x y : pixel_index w x y = 4 * (y * w + x).
Proof. unfold pixel_index. lia. Qed.

Lemma valid_imageb_correct img : valid_imageb img = true -> valid_image img.
Proof.
  unfold valid_imageb, valid_image. intros H.
  apply andb_prop in H as [Hlen Hbytes].
  split; [by apply Nat.eqb_eq |].
  apply Forall_forall. intros v Hv.
  rewrite forallb_forall in Hbytes.
  apply list_elem_of_In, Hbytes, andb_prop in Hv as [H0 H255].
  unfold is_byte. lia.
Qed.

Lemma valid_image_byte img x y k :
  valid_image img -> x < img.(width) -> y < img.(height) -> k < 4 ->
  exists v, byte_at img x y k = Some v ∧ is_byte v ∧
            read img.(data) (pixel_index img.(width) x y + k) = Js.of_Z v.
Proof.
  intros [Hlen Hbytes] Hx Hy Hk. unfold byte_at, read.
  destruct (lookup_lt_is_Some_2 img.(data) (pixel_index img.(width) x y + k)) as [v Hv].
  { rewrite Hlen. pose proof (pixel_index_bound _ _ x y Hx Hy). lia. }
  exists v. rewrite Hv. split_and!; try done.
  eapply Forall_lookup_1; eauto.
Qed.

Lemma accepted_invalid v : accepted v = None ↔ invalid_color v = true.
Proof.
  unfold accepted, invalid_color. destruct v as [c |]; [| done].
  destruct (length c <? 3)%nat; split; congruence.
Qed.

Lemma accepted_Some v c : accepted v = Some c ↔ v = Some c ∧ 3 <= length c.
Proof.
  unfold accepted. destruct v as [c' |].
  - destruct (Nat.ltb_spec (length c') 3); split.
    + done.
    + intros [[= ->] ?]. lia.
    + intros [= ->]. split; [done | lia].
    + by intros [[= ->] ?].
  - split; [done | by intros [? ?]].
Qed.

Lemma always_accepted_Some f r g b :
  always_accepted f -> accepted (f r g b) <> None.
Proof.
  intros Hacc. destruct (Hacc r g b) as (c & Hc & Hlen).
  assert (accepted (f r g b) = Some c) as -> by by apply accepted_Some.
  done.
Qed.

(** * Ordered dithering: both functions as one pass over the pixels *)

Section ThresholdPass.
Variable n : nat.
Variable normalizedMatrix : list (list Js.number).
Variable findClosestColor : resolver.
Variable data : list Z.
Variable width : nat.

(** The loop body of [bayer] and of [ordered], the modulus left open. *)
Definition threshold_pixel (y x : nat) (output : list Z) : result (list Z) :=
  let idx := ((y * width + x) * 4)%nat in
  let r := read data idx in
  let g := read data (idx + 1) in
  let b := read data (idx + 2) in
  let threshold := (at2 normalizedMatrix (y mod n) (x mod n) * int 255)%js in
  let adjustedR := adjust r threshold in
  let adjustedG := adjust g threshold in
  let adjustedB := adjust b threshold in
  match findClosestColor adjustedR adjustedG adjustedB with
  | None => Throw invalid_color_msg
  | Some closestColor =>
      if (length closestColor <? 3)%nat then Throw invalid_color_msg
      else Ok (set_pixel output idx closestColor (read data (idx + 3)))
  end.

Definition offset_at (x y : nat) : Js.number :=
  (at2 normalizedMatrix (y mod n) (x mod n) * int 255)%js.

Definition adjusted (x y c : nat) : Js.number :=
  adjust (read data (pixel_index width x y + c)) (offset_at x y).

Definition chosen (p : nat * nat) : jsval :=
  findClosestColor (adjusted p.1 p.2 0) (adjusted p.1 p.2 1) (adjusted p.1 p.2 2).

Definition paint (output : list Z) (p : nat * nat) : list Z :=
  match accepted (chosen p) with
  | Some c =>
      set_pixel output (pixel_index width p.1 p.2) c
        (read data (pixel_index width p.1 p.2 + 3))
  | None => output
  end.

Lemma threshold_pixel_paint y x output :
  threshold_pixel y x output =
    match accepted (chosen (x, y)) with
    | Some _ => Ok (paint output (x, y))
    | None => Throw invalid_color_msg
    end.
Proof.
  unfold threshold_pixel, paint, chosen, adjusted, offset_at, accepted, pixel_index.
  cbn [fst snd]. rewrite Nat.add_0_r.
  destruct (findClosestColor _ _ _) as [c |]; [| done].
  by destruct (length c <? 3)%nat.
Qed.

Definition all_accepted (ps : list (nat * nat)) : bool :=
  forallb (fun p => bool_decide (is_Some (accepted (chosen p)))) ps.

Lemma run_threshold ps output :
  run threshold_pixel ps output =
    if all_accepted ps then Ok (foldl paint output ps) else Throw invalid_color_msg.
Proof.
  revert output. induction ps as [| [x y] ps IH]; intros output; [done |].
  cbn [run all_accepted forallb foldl fst snd].
  rewrite threshold_pixel_paint.
  destruct (accepted (chosen (x, y))) as [c |] eqn:Hc.
  - rewrite bool_decide_true by eauto. cbn. apply IH.
  - rewrite bool_decide_false by (by intros [? ?]). done.
Qed.

Lemma length_paint output p : length (paint output p) = length output.
Proof. unfold paint. destruct (accepted _); [apply length_set_pixel | done]. Qed.

Lemma length_foldl_paint ps output : length (foldl paint output ps) = length output.
Proof.
  revert output. induction ps as [| p ps IH]; intros output; [done |].
  cbn. by rewrite IH, length_paint.
Qed.

Lemma paint_comm output p q :
  p.1 < width -> q.1 < width -> paint (paint output p) q = paint (paint output q) p.
Proof.
  intros Hp Hq.
  destruct (decide (p = q)) as [-> | Hne]; [done |].
  unfold paint.
  destruct (accepted (chosen p)) as [cp |]; destruct (accepted (chosen q)) as [cq |];
    try done.
  destruct p as [x y], q as [x' y']; cbn [fst snd] in *.
  pose proof (pixel_index_apart width x y x' y' Hp Hq Hne) as Hapart.
  apply list_eq. intros j.
  rewrite !lookup_set_pixel_gen, !length_set_pixel.
  repeat case_decide; try lia; done.
Qed.

Lemma foldl_paint_perm ps qs output :
  ps ≡ₚ qs -> Forall (fun p => p.1 < width) ps ->
  foldl paint output ps = foldl paint output qs.
Proof.
  intros Hperm. revert output.
  induction Hperm as [| p ps qs Hperm IH | p q ps | ps qs rs Hpq IH1 Hqr IH2];
    intros output Hin.
  - done.
  - cbn. apply IH. by inversion Hin.
  - cbn. f_equal. inversion Hin as [| ? ? Hq Hin']. inversion Hin' as [| ? ? Hp ?].
    by apply paint_comm.
  - rewrite IH1 by done. apply IH2. by rewrite <- Hpq.
Qed.

Lemma all_accepted_perm ps qs : ps ≡ₚ qs -> all_accepted ps = all_accepted qs.
Proof.
  intros Hperm. unfold all_accepted.
  induction Hperm as [| p ps qs Hperm IH | p q ps | ps qs rs Hpq IH1 Hqr IH2]; cbn.
  - done.
  - by rewrite IH.
  - rewrite !andb_assoc. f_equal. apply andb_comm.
  - congruence.
Qed.

(** The four bytes of a painted pixel, once every pixel of [ps] is done. *)
Lemma lookup_foldl_paint ps output x y c k :
  (x, y) ∈ ps -> Forall (fun p => p.1 < width) ps ->
  accepted (chosen (x, y)) = Some c ->
  pixel_index width x y + 3 < length output -> k < 4 ->
  foldl paint output ps !! (pixel_index width x y + k) =
    Some (Js.toUint8Clamp
            (if decide (k = 3) then read data (pixel_index width x y + 3) else chan c k)).
Proof.
  intros Hel Hin Hc Hlen Hk.
  apply elem_of_Permutation in Hel as [ps' Hperm].
  assert (Hperm' : ps ≡ₚ ps' ++ [(x, y)]).
  { rewrite Hperm. apply Permutation_cons_append. }
  rewrite (foldl_paint_perm _ _ _ Hperm' Hin).
  rewrite foldl_app. cbn [foldl]. unfold paint at 1. cbn [fst snd]. rewrite Hc.
  rewrite lookup_set_pixel by (rewrite ?length_foldl_paint; lia).
  done.
Qed.

End ThresholdPass.

Lemma foldl_paint_bytes n nm f d w ps output :
  Forall is_byte output -> Forall is_byte (foldl (paint n nm f d w) output ps).
Proof.
  revert output. induction ps as [| p ps IH]; intros output Hbytes; [done |].
  cbn. apply IH. unfold paint. destruct (accepted _); [by apply set_pixel_bytes | done].
Qed.

Lemma all_accepted_always n nm f d w ps :
  always_accepted f -> all_accepted n nm f d w ps = true.
Proof.
  intros Hacc. unfold all_accepted. apply forallb_forall. intros p _.
  apply bool_decide_eq_true.
  destruct (accepted (chosen n nm f d w p)) eqn:Hc; [by eexists |].
  by apply always_accepted_Some in Hc.
Qed.

Lemma all_accepted_elem n nm f d w ps p :
  all_accepted n nm f d w ps = true -> p ∈ ps -> accepted (chosen n nm f d w p) <> None.
Proof.
  unfold all_accepted. rewrite forallb_forall. intros Hall Hp.
  apply list_elem_of_In, Hall, bool_decide_eq_true in Hp as [c Hc]. congruence.
Qed.

Lemma chosen_local n nm f d1 d2 w x y :
  (forall k, k < 4 -> d1 !! (pixel_index w x y + k) = d2 !! (pixel_index w x y + k)) ->
  chosen n nm f d1 w (x, y) = chosen n nm f d2 w (x, y).
Proof.
  intros Hsame. unfold chosen, adjusted, read. cbn [fst snd].
  by rewrite !Hsame by lia.
Qed.

(** ** The two functions as passes *)

(** [bayer] and [ordered] with the visiting order of the pixels left open;
    the functions themselves visit [row_major width height]. *)
Definition threshold_dither (prefix : string) (n : nat) (size : Z) (matrix : list (list Z))
  (order : list (nat * nat)) (img : ImageData) (f : resolver) : result ImageData :=
  try_catch prefix
    (output ← run (threshold_pixel n (normalize size matrix) f img.(data) img.(width)) order
                  (replicate (length img.(data)) 0%Z);
     Ok (mkImageData output img.(width) img.(height))).

Definition bayer_visiting : list (nat * nat) -> ImageData -> resolver -> result ImageData :=
  threshold_dither "Failed to apply Bayer dithering: " 8 64 bayerMatrix.

Definition ordered_visiting : list (nat * nat) -> ImageData -> resolver -> result ImageData :=
  threshold_dither "Failed to apply Ordered dithering: " 4 16 orderedMatrix.

Lemma bayer_row_major img f :
  bayer (Some img) (Some f) = bayer_visiting (row_major img.(width) img.(height)) img f.
Proof.
  unfold bayer, bayer_visiting, threshold_dither. cbv zeta.
  by rewrite nested_loops_row_major.
Qed.

Lemma ordered_row_major img f :
  ordered (Some img) (Some f) = ordered_visiting (row_major img.(width) img.(height)) img f.
Proof.
  unfold ordered, ordered_visiting, threshold_dither. cbv zeta.
  by rewrite nested_loops_row_major.
Qed.

Lemma threshold_dither_result prefix n size matrix order img f :
  threshold_dither prefix n size matrix order img f =
    if all_accepted n (normalize size matrix) f img.(data) img.(width) order
    then Ok (mkImageData
               (foldl (paint n (normalize size matrix) f img.(data) img.(width))
                      (replicate (length img.(data)) 0%Z) order)
               img.(width) img.(height))
    else Throw (prefix ++ invalid_color_msg).
Proof.
  unfold threshold_dither. rewrite run_threshold.
  by destruct (all_accepted _ _ _ _ _ _).
Qed.

Lemma threshold_dither_perm prefix n size matrix order order' img f :
  order ≡ₚ order' -> Forall (fun p => p.1 < img.(width)) order ->
  threshold_dither prefix n size matrix order img f =
    threshold_dither prefix n size matrix order' img f.
Proof.
  intros Hperm Hin. rewrite !threshold_dither_result.
  rewrite (all_accepted_perm _ _ _ _ _ _ _ Hperm).
  by rewrite (foldl_paint_perm _ _ _ _ _ _ _ _ Hperm Hin).
Qed.

(** What a successful pass leaves at an in-bounds pixel. *)
Lemma threshold_dither_pixel prefix n size matrix img f out x y :
  length img.(data) = img.(width) * img.(height) * 4 ->
  x < img.(width) -> y < img.(height) ->
  threshold_dither prefix n size matrix (row_major img.(width) img.(height)) img f = Ok out ->
  out.(width) = img.(width) ∧
  exists c,
    chosen n (normalize size matrix) f img.(data) img.(width) (x, y) = Some c ∧
    3 <= length c ∧
    forall k, k < 4 ->
      byte_at out x y k =
        Some (Js.toUint8Clamp
                (if decide (k = 3) then read img.(data) (pixel_index img.(width) x y + 3)
                 else chan c k)).
Proof.
  intros Hlen Hx Hy. rewrite threshold_dither_result.
  destruct (all_accepted _ _ _ _ _ _) eqn:Hall; [| done].
  intros [= <-]. split; [done |].
  unfold all_accepted in Hall. rewrite forallb_forall in Hall.
  assert (Hel : (x, y) ∈ row_major (width img) (height img)) by by apply elem_of_row_major.
  pose proof (Hall (x, y) (proj1 (list_elem_of_In _ _) Hel)) as Hacc.
  apply bool_decide_eq_true in Hacc as [c Hc].
  exists c. apply accepted_Some in Hc as Hc'. destruct Hc' as [Hch Hc3].
  split; [done |]. split; [done |].
  intros k Hk. unfold byte_at. cbn [data width].
  apply lookup_foldl_paint; try done.
  - eapply Forall_impl; [apply row_major_in_bounds |]. by intros p [? ?].
  - rewrite length_replicate, Hlen.
    pose proof (pixel_index_bound _ _ x y Hx Hy). lia.
Qed.

Lemma threshold_dither_local prefix n size M img1 img2 f out1 out2 x y :
  img1.(width) = img2.(width) -> img1.(height) = img2.(height) ->
  length img1.(data) = img1.(width) * img1.(height) * 4 ->
  length img2.(data) = img2.(width) * img2.(height) * 4 ->
  x < img1.(width) -> y < img1.(height) ->
  (forall k, k < 4 -> byte_at img1 x y k = byte_at img2 x y k) ->
  threshold_dither prefix n size M (row_major img1.(width) img1.(height)) img1 f = Ok out1 ->
  threshold_dither prefix n size M (row_major img2.(width) img2.(height)) img2 f = Ok out2 ->
  forall k, k < 4 -> byte_at out1 x y k = byte_at out2 x y k.
Proof.
  intros Hw Hh Hl1 Hl2 Hx Hy Hsame Hr1 Hr2 k Hk.
  unfold byte_at in Hsame. rewrite <- Hw in Hsame.
  destruct (threshold_dither_pixel _ _ _ _ _ _ _ x y Hl1 Hx Hy Hr1) as (_ & c1 & Hc1 & _ & Ho1).
  destruct (threshold_dither_pixel _ _ _ _ _ _ _ x y Hl2 ltac:(lia) ltac:(lia) Hr2)
    as (_ & c2 & Hc2 & _ & Ho2).
  rewrite <- Hw in Hc2, Ho2.
  rewrite (chosen_local _ _ _ _ _ _ _ _ Hsame) in Hc1.
  assert (c1 = c2) as -> by congruence.
  rewrite Ho1, Ho2 by done. unfold read. by rewrite Hsame by lia.
Qed.

Lemma threshold_dither_alpha prefix n size M img f out x y :
  valid_image img -> x < img.(width) -> y < img.(height) ->
  threshold_dither prefix n size M (row_major img.(width) img.(height)) img f = Ok out ->
  byte_at out x y 3 = byte_at img x y 3.
Proof.
  intros Hvalid Hx Hy Hrun.
  destruct (threshold_dither_pixel _ _ _ _ _ _ _ x y (proj1 Hvalid) Hx Hy Hrun)
    as (_ & c & _ & _ & Hout).
  destruct (valid_image_byte img x y 3 Hvalid Hx Hy) as (a & Ha & Hbyte & Hread); [lia |].
  rewrite Hout, Ha by lia. rewrite decide_True by done.
  by rewrite Hread, toUint8Clamp_of_Z.
Qed.

Lemma threshold_dither_well_shaped prefix n size M order img f :
  length img.(data) = img.(width) * img.(height) * 4 -> always_accepted f ->
  well_shaped img (threshold_dither prefix n size M order img f).
Proof.
  intros Hlen Hacc. rewrite threshold_dither_result, all_accepted_always by done.
  eexists. split; [reflexivity |]. cbn. split_and!; try done.
  - by rewrite length_foldl_paint, length_replicate.
  - apply foldl_paint_bytes, Forall_replicate. unfold is_byte. lia.
Qed.

Lemma threshold_dither_rejects prefix n size M img f x y :
  x < img.(width) -> y < img.(height) ->
  invalid_color (chosen n (normalize size M) f img.(data) img.(width) (x, y)) = true ->
  threshold_dither prefix n size M (row_major img.(width) img.(height)) img f
    = Throw (prefix ++ invalid_color_msg).
Proof.
  intros Hx Hy Hbad. rewrite threshold_dither_result.
  destruct (all_accepted _ _ _ _ _ _) eqn:Hall; [| done].
  exfalso. eapply all_accepted_elem; [exact Hall | | by apply accepted_invalid].
  by apply elem_of_row_major.
Qed.

(** ** The threshold offsets are exact *)

Definition adjust_check (n : nat) (size : Z) (M : list (list Z)) : bool :=
  let normalizedMatrix := normalize size M in
  forallb (fun i =>
    forallb (fun j =>
      let threshold := (at2 normalizedMatrix i j * int 255)%js in
      let offset := spec_offset size (matrix_entry M i j) in
      forallb (fun v =>
        exactly (adjust (Js.of_Z (Z.of_nat v)) threshold)
                (clampQ (inject_Z (Z.of_nat v) + offset)))
        (seq 0 256))
      (seq 0 n))
    (seq 0 n).

Lemma adjust_check_bayer : adjust_check 8 64 bayerMatrix = true.
Proof. vm_compute. reflexivity. Qed.

Lemma adjust_check_ordered : adjust_check 4 16 orderedMatrix = true.
Proof. vm_compute. reflexivity. Qed.

Lemma adjust_exact n size M i j v :
  adjust_check n size M = true -> i < n -> j < n -> is_byte v ->
  exactly (adjust (Js.of_Z v) (at2 (normalize size M) i j * int 255)%js)
          (clampQ (inject_Z v + spec_offset size (matrix_entry M i j))) = true.
Proof.
  unfold adjust_check, is_byte. cbv zeta. intros Hall Hi Hj Hv.
  assert (Hin : forall k m, k < m -> In k (seq 0 m)) by (intros; apply in_seq; lia).
  pose proof (proj1 (forallb_forall _ _) Hall i (Hin _ _ Hi)) as Hrow.
  pose proof (proj1 (forallb_forall _ _) Hrow j (Hin _ _ Hj)) as Hcol.
  pose proof (proj1 (forallb_forall _ _) Hcol (Z.to_nat v) (Hin (Z.to_nat v) 256 ltac:(lia))) as Hval.
  cbv beta in Hval. by rewrite Z2Nat.id in Hval by lia.
Qed.

(** What the specification says of the output pixel [(x, y)]: the offset is
    [((m + 1/2) / size - 1/2) * 255] for the matrix entry [m] at
    [(y mod n, x mod n)], each colour channel is the source channel plus the
    offset clamped to [0, 255], and the resolver's answer on the three
    adjusted channels is what the output holds. *)
Definition threshold_pixel_spec (n : nat) (size : Z) (M : list (list Z))
  (img : ImageData) (f : resolver) (out : ImageData) (x y : nat) : Prop :=
  exists (r g b : Z) (aR aG aB : Js.number) (c : color),
    byte_at img x y 0 = Some r ∧ byte_at img x y 1 = Some g ∧ byte_at img x y 2 = Some b ∧
    exactly aR (clampQ (inject_Z r + spec_offset size (matrix_entry M (y mod n) (x mod n))))
      = true ∧
    exactly aG (clampQ (inject_Z g + spec_offset size (matrix_entry M (y mod n) (x mod n))))
      = true ∧
    exactly aB (clampQ (inject_Z b + spec_offset size (matrix_entry M (y mod n) (x mod n))))
      = true ∧
    f aR aG aB = Some c ∧ 3 <= length c ∧
    rgb_at out x y = [Some (Js.toUint8Clamp (chan c 0));
                      Some (Js.toUint8Clamp (chan c 1));
                      Some (Js.toUint8Clamp (chan c 2))].

Lemma threshold_dither_spec prefix n size M img f out x y :
  adjust_check n size M = true -> 0 < n ->
  valid_image img -> x < img.(width) -> y < img.(height) ->
  threshold_dither prefix n size M (row_major img.(width) img.(height)) img f = Ok out ->
  threshold_pixel_spec n size M img f out x y.
Proof.
  intros Hcheck Hn Hvalid Hx Hy Hrun.
  destruct (threshold_dither_pixel _ _ _ _ _ _ _ x y (proj1 Hvalid) Hx Hy Hrun)
    as (Hw & c & Hch & Hc & Hout).
  destruct (valid_image_byte img x y 0 Hvalid Hx Hy) as (r & Hr & Hrb & Hrr); [lia |].
  destruct (valid_image_byte img x y 1 Hvalid Hx Hy) as (g & Hg & Hgb & Hgr); [lia |].
  destruct (valid_image_byte img x y 2 Hvalid Hx Hy) as (b & Hb & Hbb & Hbr); [lia |].
  unfold chosen, adjusted, offset_at in Hch. cbn [fst snd] in Hch.
  rewrite Hrr, Hgr, Hbr in Hch.
  assert (Hi : y mod n < n) by (apply Nat.mod_upper_bound; lia).
  assert (Hj : x mod n < n) by (apply Nat.mod_upper_bound; lia).
  set (t := (at2 (normalize size M) (y mod n) (x mod n) * int 255)%js) in *.
  exists r, g, b, (adjust (Js.of_Z r) t), (adjust (Js.of_Z g) t), (adjust (Js.of_Z b) t), c.
  split_and!; [done | done | done | | | | done | done |].
  - by apply (adjust_exact n).
  - by apply (adjust_exact n).
  - by apply (adjust_exact n).
  - unfold rgb_at. by rewrite !Hout by lia.
Qed.

(** ** What a pass returns, and when *)

Lemma all_accepted_false n nm f d w ps :
  all_accepted n nm f d w ps = false ->
  exists p, p ∈ ps ∧ invalid_color (chosen n nm f d w p) = true.
Proof.
  unfold all_accepted. induction ps as [| p ps IH]; [done |]. cbn [forallb].
  destruct (bool_decide _) eqn:E; cbn.
  - intros (q & Hq & Hinv)%IH. exists q. split; [by right | done].
  - intros _. exists p. split; [by left |].
    apply bool_decide_eq_false in E. apply accepted_invalid.
    destruct (accepted _); [contradict E; by eexists | done].
Qed.

Lemma threshold_dither_outcome prefix n size M img f :
  (exists out, threshold_dither prefix n size M (row_major img.(width) img.(height)) img f
               = Ok out ∧
     forall x y, x < img.(width) -> y < img.(height) ->
       invalid_color (chosen n (normalize size M) f img.(data) img.(width) (x, y)) = false) ∨
  (threshold_dither prefix n size M (row_major img.(width) img.(height)) img f
     = Throw (prefix ++ invalid_color_msg) ∧
   exists x y, x < img.(width) ∧ y < img.(height) ∧
     invalid_color (chosen n (normalize size M) f img.(data) img.(width) (x, y)) = true).
Proof.
  rewrite threshold_dither_result.
  destruct (all_accepted _ _ _ _ _ _) eqn:Hall.
  - left. eexists. split; [done |]. intros x y Hx Hy.
    pose proof (all_accepted_elem _ _ _ _ _ _ (x, y) Hall
                  (proj2 (elem_of_row_major _ _ x y) (conj Hx Hy))) as Hacc.
    destruct (invalid_color _) eqn:E; [| done]. by apply accepted_invalid in E.
  - right. split; [done |].
    apply all_accepted_false in Hall as ([x y] & Hin & Hinv).
    apply elem_of_row_major in Hin as [Hx Hy]. by exists x, y.
Qed.

Lemma threshold_dither_valid prefix n size M img f out :
  valid_image img ->
  threshold_dither prefix n size M (row_major img.(width) img.(height)) img f = Ok out ->
  valid_image out ∧ out.(width) = img.(width) ∧ out.(height) = img.(height).
Proof.
  intros [Hlen _]. rewrite threshold_dither_result.
  destruct (all_accepted _ _ _ _ _ _); [| done]. intros [= <-]. cbn.
  split_and!; [| done | done]. split; cbn.
  - by rewrite length_foldl_paint, length_replicate.
  - apply foldl_paint_bytes, Forall_replicate. unfold is_byte. lia.
Qed.

Lemma threshold_dither_answers prefix n size M img f out x y :
  valid_image img -> x < img.(width) -> y < img.(height) ->
  threshold_dither prefix n size M (row_major img.(width) img.(height)) img f = Ok out ->
  exists r g b c, f r g b = Some c ∧ 3 <= length c ∧ shows out x y c.
Proof.
  intros [Hlen _] Hx Hy Hout.
  destruct (threshold_dither_pixel prefix n size M img f out x y Hlen Hx Hy Hout)
    as (_ & c & Hch & Hc & Hk).
  unfold chosen in Hch. eexists _, _, _, c. split_and!; [exact Hch | done |].
  intros k Hk3. rewrite Hk by lia. by rewrite decide_False by lia.
Qed.

(** ** The pattern repeats *)

Lemma chosen_periodic n nm f d w x y x' y' :
  x mod n = x' mod n -> y mod n = y' mod n ->
  (forall k, k < 3 -> d !! (pixel_index w x y + k) = d !! (pixel_index w x' y' + k)) ->
  chosen n nm f d w (x, y) = chosen n nm f d w (x', y').
Proof.
  intros Hx Hy Hd. unfold chosen, adjusted, offset_at, read. cbn [fst snd].
  rewrite Hx, Hy, !Hd by lia. done.
Qed.

Lemma threshold_dither_periodic prefix n size M img f out x y x' y' :
  valid_image img ->
  x < img.(width) -> y < img.(height) -> x' < img.(width) -> y' < img.(height) ->
  x mod n = x' mod n -> y mod n = y' mod n ->
  rgb_at img x y = rgb_at img x' y' ->
  threshold_dither prefix n size M (row_major img.(width) img.(height)) img f = Ok out ->
  rgb_at out x y = rgb_at out x' y'.
Proof.
  intros [Hlen _] Hx Hy Hx' Hy' Hmx Hmy Hrgb Hout.
  destruct (threshold_dither_pixel prefix n size M img f out x y Hlen Hx Hy Hout)
    as (_ & c & Hch & _ & Hk).
  destruct (threshold_dither_pixel prefix n size M img f out x' y' Hlen Hx' Hy' Hout)
    as (_ & c' & Hch' & _ & Hk').
  rewrite (chosen_periodic _ _ _ _ _ x y x' y' Hmx Hmy) in Hch.
  - rewrite Hch' in Hch. injection Hch as ->.
    unfold rgb_at. rewrite !Hk, !Hk' by lia. done.
  - unfold rgb_at, byte_at in Hrgb. injection Hrgb as H0 H1 H2.
    intros k Hk3. destruct k as [| [| [| k]]]; [done | done | done | lia].
Qed.

(** ** Gray pixels against a threshold *)

Lemma gray_adjust_check_bayer : gray_adjust_check 8 64 bayerMatrix = true.
Proof. vm_compute. reflexivity. Qed.

Lemma gray_adjust_check_ordered : gray_adjust_check 4 16 orderedMatrix = true.
Proof. vm_compute. reflexivity. Qed.

Lemma gray_adjust n size M i j v :
  gray_adjust_check n size M = true -> i < n -> j < n -> is_byte v ->
  gray_adjust_ok (adjust (int v) (at2 (normalize size M) i j * int 255)%js)
                 (adjusted128 size (matrix_entry M i j) v) = true.
Proof.
  unfold gray_adjust_check, is_byte. cbv zeta. intros Hall Hi Hj Hv.
  assert (Hin : forall k m, k < m -> In k (seq 0 m)) by (intros; apply in_seq; lia).
  pose proof (proj1 (forallb_forall _ _) Hall i (Hin _ _ Hi)) as Hrow.
  pose proof (proj1 (forallb_forall _ _) Hrow j (Hin _ _ Hj)) as Hcol.
  pose proof (proj1 (forallb_forall _ _) Hcol (Z.to_nat v) (Hin (Z.to_nat v) 256 ltac:(lia)))
    as Hval.
  cbv beta in Hval. by rewrite Z2Nat.id in Hval by lia.
Qed.

Lemma adjusted128_range size m v : (0 <= adjusted128 size m v <= 32640)%Z.
Proof. unfold adjusted128. lia. Qed.

Section GrayThreshold.
Local Open Scope Z_scope.

(** The monochrome resolver on an adjusted gray: white exactly when the
    adjusted level reaches the threshold. *)
Lemma mono_adjusted a k t :
  gray_adjust_ok a k = true -> 0 <= k <= 32640 -> is_byte t ->
  mono t a a a = Some (if 128 * t <=? k then white else black).
Proof.
  unfold gray_adjust_ok, is_byte. intros Hok Hk Ht.
  unfold mono, findClosestMonochromeColor. cbv zeta.
  rewrite (binary_normalize_not_nan t 0 : Js.isNaN (int t) = false).
  rewrite luminance_weighted.
  destruct luminance_weights as [[wr wg] wb]. cbn [fst snd]. cbv zeta in Hok.
  set (gray := (wr * a + wg * a + wb * a)%js) in *.
  apply andb_prop in Hok as [[[Hnan Hlo]%andb_prop Hhi]%andb_prop Heq].
  apply negb_true_iff in Hnan.
  assert (Hp : 2 ^ 53 = 9007199254740992) by done.
  rewrite int_dyadic7 by (change (2 ^ 40) with 1099511627776; lia).
  destruct (Z.leb_spec (128 * t) k) as [Hle | Hgt].
  - destruct (Z.eq_dec (128 * t) k) as [<- | Hne].
    + replace (128 * t mod 128 =? 0) with true in Heq
        by (symmetry; apply Z.eqb_eq; rewrite Z.mul_comm; apply Z.mod_mul; lia).
      cbn [negb orb] in Heq. apply negb_true_iff in Heq. by rewrite Heq.
    + rewrite (lt_le_not_lt (dyadic (k - 1) (-7)) gray); [done | done |].
      rewrite lt_dyadic by (rewrite ?Hp; lia). apply Z.ltb_ge. lia.
  - destruct (Z.eq_dec (k + 1) (128 * t)) as [<- | Hne]; [by rewrite Hhi |].
    rewrite (lt_trans gray (dyadic (k + 1) (-7))); [done | done |].
    rewrite lt_dyadic by (rewrite ?Hp; lia). apply Z.ltb_lt. lia.
Qed.

End GrayThreshold.

Lemma threshold_dither_gray prefix n size M img out x y v t :
  gray_adjust_check n size M = true -> 0 < n ->
  valid_image img -> x < img.(width) -> y < img.(height) ->
  rgb_at img x y = [Some v; Some v; Some v] -> is_byte t ->
  threshold_dither prefix n size M (row_major img.(width) img.(height)) img (mono t) = Ok out ->
  rgb_at out x y =
    if (128 * t <=? adjusted128 size (matrix_entry M (y mod n) (x mod n)) v)%Z
    then [Some 255; Some 255; Some 255]%Z else [Some 0; Some 0; Some 0]%Z.
Proof.
  intros Hcheck Hn Hvalid Hx Hy Hrgb Ht Hrun.
  destruct (threshold_dither_pixel _ _ _ _ _ _ _ x y (proj1 Hvalid) Hx Hy Hrun)
    as (Hw & c & Hch & Hc & Hout).
  destruct (valid_image_byte img x y 0 Hvalid Hx Hy) as (r & Hr & Hrb & Hrr); [lia |].
  destruct (valid_image_byte img x y 1 Hvalid Hx Hy) as (g & Hg & Hgb & Hgr); [lia |].
  destruct (valid_image_byte img x y 2 Hvalid Hx Hy) as (b & Hb & Hbb & Hbr); [lia |].
  unfold rgb_at in Hrgb. rewrite Hr, Hg, Hb in Hrgb. injection Hrgb as -> -> ->.
  unfold chosen, adjusted, offset_at in Hch. cbn [fst snd] in Hch.
  rewrite Hrr, Hgr, Hbr in Hch.
  assert (Hi : y mod n < n) by (apply Nat.mod_upper_bound; lia).
  assert (Hj : x mod n < n) by (apply Nat.mod_upper_bound; lia).
  rewrite (mono_adjusted _ _ t (gray_adjust n size M _ _ v Hcheck Hi Hj Hrb)
             (adjusted128_range _ _ _) Ht) in Hch.
  unfold rgb_at. rewrite !Hout by lia.
  destruct (_ <=? _)%Z; injection Hch as <-; done.
Qed.

(** * Error diffusion: the code against the grid *)

Section Diffusion.
Variable f : resolver.
Variables w h : nat.

(** One block of compound assignments under its guard, read back at a
    colour channel of an arbitrary pixel. *)
Lemma lookup_guarded_add_error (guard : bool) d xn yn eR eG eB k x' y' c :
  length d = w * h * 4 ->
  (guard = true -> xn < w ∧ yn < h) -> x' < w -> c < 3 ->
  (if guard then add_error d (pixel_index w xn yn) eR eG eB k else d)
    !! (pixel_index w x' y' + c) =
  if decide (guard = true ∧ x' = xn ∧ y' = yn)
  then Some (Js.toUint8Clamp
               (read d (pixel_index w x' y' + c) + pick3 c eR eG eB * int k / int 16)%js)
  else d !! (pixel_index w x' y' + c).
Proof.
  intros Hlen Hg Hx' Hc.
  destruct guard; [| by rewrite decide_False by (by intros [? ?])].
  destruct (Hg eq_refl) as [Hxn Hyn].
  case_decide as Heq.
  - destruct Heq as (_ & -> & ->).
    apply lookup_add_error; [| done].
    pose proof (pixel_index_bound w h xn yn Hxn Hyn). lia.
  - apply lookup_add_error_other.
    assert (Hne : (xn, yn) ≠ (x', y')) by (intros [= -> ->]; tauto).
    pose proof (pixel_index_apart w xn yn x' y' Hxn Hx' Hne). lia.
Qed.

Lemma lookup_guarded_add_error_alpha (guard : bool) d xn yn eR eG eB k x' y' :
  (if guard then add_error d (pixel_index w xn yn) eR eG eB k else d)
    !! (pixel_index w x' y' + 3) = d !! (pixel_index w x' y' + 3).
Proof.
  destruct guard; [| done].
  apply lookup_add_error_other. rewrite !pixel_index_4. lia.
Qed.

Lemma length_guarded_add_error (guard : bool) d base eR eG eB k :
  length (if guard then add_error d base eR eG eB k else d) = length d.
Proof. destruct guard; [apply length_add_error | done]. Qed.

Lemma guarded_add_error_bytes (guard : bool) d base eR eG eB k :
  Forall is_byte d -> Forall is_byte (if guard then add_error d base eR eG eB k else d).
Proof. destruct guard; [apply add_error_bytes | done]. Qed.

(** The four guarded blocks of [fs_pixel], their targets written as
    pixels. *)
Definition diffuse (x y : nat) (d : list Z) (eR eG eB : Js.number) : list Z :=
  let d := if (x + 1 <? w)%nat
           then add_error d (pixel_index w (x + 1) y) eR eG eB 7 else d in
  let d := if (1 <=? x)%nat && (y + 1 <? h)%nat
           then add_error d (pixel_index w (x - 1) (y + 1)) eR eG eB 3 else d in
  let d := if (y + 1 <? h)%nat
           then add_error d (pixel_index w x (y + 1)) eR eG eB 5 else d in
  if (x + 1 <? w)%nat && (y + 1 <? h)%nat
  then add_error d (pixel_index w (x + 1) (y + 1)) eR eG eB 1 else d.

Lemma fs_pixel_diffuse y x d o :
  fs_pixel f w h y x (d, o) =
    let idx := pixel_index w x y in
    let r := read d idx in
    let g := read d (idx + 1) in
    let b := read d (idx + 2) in
    match accepted (f r g b) with
    | None => Throw invalid_color_msg
    | Some c =>
        Ok (diffuse x y d (r - chan c 0) (g - chan c 1) (b - chan c 2)%js,
            set_pixel o idx c (read d (idx + 3)))
    end.
Proof.
  unfold fs_pixel, accepted, diffuse. cbv zeta.
  change ((y * w + x) * 4) with (pixel_index w x y).
  destruct (f _ _ _) as [c |]; [| done].
  destruct (length c <? 3)%nat; [done |].
  do 2 f_equal.
  replace ((y * w + x + 1) * 4) with (pixel_index w (x + 1) y)
    by (unfold pixel_index; lia).
  replace (((y + 1) * w + x) * 4) with (pixel_index w x (y + 1))
    by (unfold pixel_index; lia).
  replace (((y + 1) * w + x + 1) * 4) with (pixel_index w (x + 1) (y + 1))
    by (unfold pixel_index; lia).
  replace (0 <=? Z.of_nat x - 1)%Z with (1 <=? x)%nat
    by (destruct (Nat.leb_spec 1 x), (Z.leb_spec 0 (Z.of_nat x - 1)); lia).
  destruct (Nat.leb_spec 1 x) as [Hx | Hx]; [| done].
  replace (((y + 1) * w + x - 1) * 4) with (pixel_index w (x - 1) (y + 1))
    by (unfold pixel_index; lia).
  done.
Qed.

Lemma length_diffuse x y d eR eG eB : length (diffuse x y d eR eG eB) = length d.
Proof. unfold diffuse. by rewrite !length_guarded_add_error. Qed.

Lemma diffuse_bytes x y d eR eG eB :
  Forall is_byte d -> Forall is_byte (diffuse x y d eR eG eB).
Proof. intros H. unfold diffuse. by do 4 apply guarded_add_error_bytes. Qed.

Lemma lookup_diffuse_alpha x y d eR eG eB x' y' :
  diffuse x y d eR eG eB !! (pixel_index w x' y' + 3) = d !! (pixel_index w x' y' + 3).
Proof. unfold diffuse. by rewrite !lookup_guarded_add_error_alpha. Qed.

Lemma lookup_diffuse x y d eR eG eB x' y' c :
  length d = w * h * 4 -> x < w -> y < h -> x' < w -> y' < h -> c < 3 ->
  diffuse x y d eR eG eB !! (pixel_index w x' y' + c) =
    match diffusion_weight x y x' y' with
    | Some k => Some (Js.toUint8Clamp
                        (read d (pixel_index w x' y' + c) + pick3 c eR eG eB * int k / int 16)%js)
    | None => d !! (pixel_index w x' y' + c)
    end.
Proof.
  intros Hlen Hx Hy Hx' Hy' Hc.
  unfold diffuse, read.
  repeat (rewrite lookup_guarded_add_error;
    [ unfold read
    | by rewrite ?length_guarded_add_error
      | intros Hg; repeat (apply andb_prop in Hg as [? ?]);
        repeat match goal with
               | H : (_ <? _)%nat = true |- _ => apply Nat.ltb_lt in H
               | H : (_ <=? _)%nat = true |- _ => apply Nat.leb_le in H
               end; lia
      | done | done ]).
  unfold diffusion_weight.
  destruct (Nat.ltb_spec (x + 1) w), (Nat.ltb_spec (y + 1) h), (Nat.leb_spec 1 x);
    cbn [andb];
    repeat case_decide; try done; try lia;
    repeat match goal with
           | H : ¬ (_ ∧ _) |- _ => exfalso; apply H; clear H; repeat split; (done || lia)
           | H : _ ∧ _ |- _ => destruct H
           end; try done; try lia.
Qed.

Lemma run_fs_accepts ps st :
  (forall r g b, accepted (f r g b) <> None) ->
  exists st', run (fs_pixel f w h) ps st = Ok st'.
Proof.
  intros Hacc. revert st.
  induction ps as [| [x y] ps IH]; intros [d o]; [by eexists |].
  cbn [run fst snd]. rewrite fs_pixel_diffuse. cbv zeta.
  destruct (accepted _) as [c |] eqn:Hc; [| by apply Hacc in Hc].
  cbn. apply IH.
Qed.

Variable src : list Z.
Hypothesis src_len : length src = w * h * 4.
Hypothesis src_bytes : Forall is_byte src.

(** The working copy and the output after the pixels [visited], against
    the grids of the specification. *)
Record related (visited : list (nat * nat)) (st : list Z * list Z) (sst : grid * grid)
  : Prop := {
  rel_len_data : length st.1 = w * h * 4;
  rel_len_out : length st.2 = w * h * 4;
  rel_bytes : Forall is_byte st.1;
  rel_working : forall x y c, x < w -> y < h -> c < 3 ->
    st.1 !! (pixel_index w x y + c) = Some (sst.1 x y c);
  rel_alpha : forall x y, x < w -> y < h ->
    st.1 !! (pixel_index w x y + 3) = src !! (pixel_index w x y + 3);
  rel_output : forall x y c, (x, y) ∈ visited -> x < w -> y < h -> c < 4 ->
    st.2 !! (pixel_index w x y + c) = Some (sst.2 x y c);
  rel_out_alpha : forall x y, x < w -> y < h ->
    st.2 !! (pixel_index w x y + 3) = src !! (pixel_index w x y + 3)
}.

Definition source : grid := grid_of w src.

Lemma related_read visited d o W O x y c :
  related visited (d, o) (W, O) -> x < w -> y < h -> c < 3 ->
  read d (pixel_index w x y + c) = Js.of_Z (W x y c).
Proof.
  intros Hrel Hx Hy Hc. unfold read.
  pose proof (rel_working _ _ _ Hrel x y c Hx Hy Hc) as Hw. cbn [fst snd] in Hw.
  by rewrite Hw.
Qed.

Lemma source_alpha x y :
  x < w -> y < h ->
  exists a, src !! (pixel_index w x y + 3) = Some a ∧ is_byte a ∧ source x y 3 = a.
Proof.
  intros Hx Hy.
  destruct (lookup_lt_is_Some_2 src (pixel_index w x y + 3)) as [a Ha].
  { pose proof (pixel_index_bound w h x y Hx Hy). lia. }
  exists a. split; [done |]. split.
  - eapply Forall_lookup_1; eauto.
  - unfold source, grid_of. by rewrite Ha.
Qed.

Lemma related_step visited st sst x y :
  related visited st sst -> x < w -> y < h ->
  match fs_pixel f w h y x st, diffuse_pixel source f w h y x sst with
  | Ok st', Ok sst' => related (visited ++ [(x, y)]) st' sst'
  | Throw m, Throw m' => m = m'
  | _, _ => False
  end.
Proof.
  destruct st as [d o], sst as [W O]. intros Hrel Hx Hy.
  rewrite fs_pixel_diffuse. unfold diffuse_pixel. cbv zeta.
  pose proof (related_read _ _ _ _ _ x y 0 Hrel Hx Hy) as Hr.
  pose proof (related_read _ _ _ _ _ x y 1 Hrel Hx Hy) as Hg.
  pose proof (related_read _ _ _ _ _ x y 2 Hrel Hx Hy) as Hb.
  rewrite Nat.add_0_r in Hr.
  rewrite Hr, Hg, Hb by lia.
  destruct (accepted _) as [chosen |]; [| done].
  destruct Hrel as [Hld Hlo Hbytes Hwork Halpha Hout Hoa]; cbn [fst snd] in *.
  pose proof (pixel_index_bound w h x y Hx Hy) as Hbound.
  assert (Hstore : Js.toUint8Clamp (read d (pixel_index w x y + 3)) = source x y 3
                   ∧ src !! (pixel_index w x y + 3) = Some (source x y 3)).
  { destruct (source_alpha x y Hx Hy) as (a & Ha & Hbyte & ->).
    unfold read. rewrite Halpha, Ha by done.
    split; [by apply toUint8Clamp_of_Z | done]. }
  destruct Hstore as [Hstore Hsrc].
  split; cbn [fst snd].
  - by rewrite length_diffuse.
  - by rewrite length_set_pixel.
  - by apply diffuse_bytes.
  - intros x' y' c Hx' Hy' Hc.
    rewrite lookup_diffuse by done.
    rewrite decide_True by done.
    destruct (diffusion_weight x y x' y') as [k |]; [| by apply Hwork].
    unfold read. rewrite (Hwork x' y' c) by done.
    do 5 f_equal.
    destruct c as [|[|[|c]]]; [done | done | done | lia].
  - intros x' y' Hx' Hy'. rewrite lookup_diffuse_alpha. by apply Halpha.
  - intros x' y' c Hel Hx' Hy' Hc.
    case_decide as Heq.
    + destruct Heq as [-> ->].
      rewrite lookup_set_pixel by lia. f_equal.
      case_decide as Hc3; done.
    + apply elem_of_app in Hel as [Hel | Hel].
      * rewrite lookup_set_pixel_other; [by apply Hout |].
        assert (Hne : (x, y) ≠ (x', y')) by (intros [= -> ->]; tauto).
        pose proof (pixel_index_apart w x y x' y' Hx Hx' Hne). lia.
      * apply list_elem_of_singleton in Hel as [= -> ->]. tauto.
  - intros x' y' Hx' Hy'.
    destruct (decide ((x, y) = (x', y'))) as [[= <- <-] | Hne].
    + rewrite lookup_set_pixel by lia.
      rewrite decide_True by done. by rewrite Hstore, Hsrc.
    + rewrite lookup_set_pixel_other; [by apply Hoa |].
      pose proof (pixel_index_apart w x y x' y' Hx Hx' Hne). lia.
Qed.

Lemma related_run todo visited st sst :
  related visited st sst -> Forall (in_bounds w h) todo ->
  match run (fs_pixel f w h) todo st, run (diffuse_pixel source f w h) todo sst with
  | Ok st', Ok sst' => related (visited ++ todo) st' sst'
  | Throw m, Throw m' => m = m'
  | _, _ => False
  end.
Proof.
  revert visited st sst.
  induction todo as [| [x y] todo IH]; intros visited st sst Hrel Hin.
  - cbn. by rewrite app_nil_r.
  - inversion Hin as [| ? ? [Hx Hy] Hin']; subst. cbn [run fst snd] in *.
    pose proof (related_step visited st sst x y Hrel Hx Hy) as Hstep.
    destruct (fs_pixel f w h y x st) as [st' | m],
             (diffuse_pixel source f w h y x sst) as [sst' | m']; cbn; try done.
    specialize (IH _ _ _ Hstep Hin').
    by rewrite <- app_assoc in IH.
Qed.

Lemma related_start : related [] (src, src) (source, fun _ _ _ => 0%Z).
Proof.
  split; cbn [fst snd]; try done.
  - intros x y c Hx Hy Hc. unfold source, grid_of.
    destruct (lookup_lt_is_Some_2 src (pixel_index w x y + c)) as [a Ha].
    { pose proof (pixel_index_bound w h x y Hx Hy). lia. }
    by rewrite Ha.
  - intros x y c Hel. by apply elem_of_nil in Hel.
Qed.

End Diffusion.

Lemma floydSteinberg_run img f :
  floydSteinberg (Some img) (Some f) =
    try_catch "Failed to apply Floyd-Steinberg dithering: "
      (st ← run (fs_pixel f img.(width) img.(height)) (row_major img.(width) img.(height))
                (img.(data), img.(data));
       Ok (mkImageData st.2 img.(width) img.(height))).
Proof.
  unfold floydSteinberg. cbv zeta. rewrite nested_loops_row_major.
  by destruct (run _ _ _) as [[d o] | m].
Qed.

Lemma floydSteinberg_related img f out :
  valid_image img -> floydSteinberg (Some img) (Some f) = Ok out ->
  out.(width) = img.(width) ∧ out.(height) = img.(height) ∧
  length out.(data) = img.(width) * img.(height) * 4 ∧
  forall x y, x < img.(width) -> y < img.(height) ->
    byte_at out x y 3 = byte_at img x y 3.
Proof.
  intros [Hlen Hbytes]. rewrite floydSteinberg_run.
  pose proof (related_run f (width img) (height img) (data img) Hlen Hbytes
                (row_major (width img) (height img)) [] _ _
                (related_start _ _ _ Hlen Hbytes) (row_major_in_bounds _ _)) as Hsim.
  destruct (run (fs_pixel _ _ _) _ _) as [[d o] | m]; cbn; [| done].
  intros [= <-]. cbn [width height data].
  destruct (run (diffuse_pixel _ _ _ _) _ _) as [[W G] | m']; [| done].
  destruct Hsim as [_ Hlo _ _ _ _ Hoa]; cbn [fst snd] in *.
  split_and!; try done.
Qed.

Lemma run_fs_bytes f w h ps st st' :
  run (fs_pixel f w h) ps st = Ok st' ->
  Forall is_byte st.2 -> Forall is_byte st'.2 ∧ length st'.2 = length st.2.
Proof.
  revert st. induction ps as [| [x y] ps IH]; intros [d o].
  - cbn. by intros [= <-].
  - cbn [run fst snd]. rewrite fs_pixel_diffuse. cbv zeta.
    destruct (accepted _) as [c |]; [| done]. cbn.
    intros Hrun Hbytes. apply IH in Hrun; cbn [snd] in *.
    + by rewrite length_set_pixel in Hrun.
    + by apply set_pixel_bytes.
Qed.

Lemma floydSteinberg_well_shaped img f :
  valid_image img -> always_accepted f -> well_shaped img (floydSteinberg (Some img) (Some f)).
Proof.
  intros [Hlen Hbytes] Hacc. rewrite floydSteinberg_run.
  destruct (run_fs_accepts f (width img) (height img)
              (row_major (width img) (height img)) (data img, data img)) as [st' Hrun].
  { intros r g b. by apply always_accepted_Some. }
  rewrite Hrun. cbn.
  apply run_fs_bytes in Hrun as [Hb Hl]; [| done]. cbn [snd] in *.
  eexists. split; [reflexivity |]. cbn. split_and!; try done. by rewrite Hl.
Qed.

(** ** The scan on the grid *)

Lemma grid_of_bytes w buf : Forall is_byte buf -> grid_bytes (grid_of w buf).
Proof.
  intros Hb x y c. unfold grid_of.
  destruct (buf !! _) as [v |] eqn:E; cbn; [| unfold is_byte; lia].
  by eapply Forall_lookup_1.
Qed.

Lemma floydSteinberg_grid img f out :
  valid_image img -> floydSteinberg (Some img) (Some f) = Ok out ->
  exists W O,
    run (diffuse_pixel (grid_of img.(width) img.(data)) f img.(width) img.(height))
        (row_major img.(width) img.(height))
        (grid_of img.(width) img.(data), fun _ _ _ => 0%Z) = Ok (W, O) ∧
    out.(width) = img.(width) ∧ out.(height) = img.(height) ∧
    length out.(data) = img.(width) * img.(height) * 4 ∧
    forall x y c, x < img.(width) -> y < img.(height) -> c < 4 ->
      byte_at out x y c = Some (O x y c).
Proof.
  intros [Hlen Hbytes]. rewrite floydSteinberg_run.
  pose proof (related_run f (width img) (height img) (data img) Hlen Hbytes
                (row_major (width img) (height img)) [] _ _
                (related_start _ _ _ Hlen Hbytes) (row_major_in_bounds _ _)) as Hsim.
  unfold source in Hsim.
  destruct (run (fs_pixel _ _ _) _ _) as [[d o] | m],
           (run (diffuse_pixel _ _ _ _) _ _) as [[W O] | m']; cbn in *; try done.
  intros [= <-]. exists W, O.
  destruct Hsim as [_ Hlo _ _ _ Hout _]; cbn [fst snd] in *.
  split_and!; try done.
  intros x y c Hx Hy Hc. unfold byte_at. cbn.
  apply Hout; try done. by apply elem_of_row_major.
Qed.

Section GridRun.
Variable src : grid.
Variable f : resolver.
Variables w h : nat.

Lemma diffuse_pixel_Ok y x W O st' :
  diffuse_pixel src f w h y x (W, O) = Ok st' ->
  exists c,
    f (int (W x y 0)) (int (W x y 1)) (int (W x y 2)) = Some c ∧ 3 <= length c ∧
    (forall x' y' k, st'.2 x' y' k =
       if decide (x' = x ∧ y' = y)
       then (if decide (k = 3) then src x y 3 else channel_byte c k)
       else O x' y' k) ∧
    (forall x' y' k, st'.1 x' y' k =
       if decide (x' < w ∧ y' < h ∧ k < 3)
       then match diffusion_weight x y x' y' with
            | Some n => Js.toUint8Clamp
                          (int (W x' y' k) + (int (W x y k) - chan c k) * int n / int 16)%js
            | None => W x' y' k
            end
       else W x' y' k).
Proof.
  unfold diffuse_pixel.
  destruct (accepted _) as [c |] eqn:Hacc; [| done].
  apply accepted_Some in Hacc as [Hf Hc].
  intros [= <-]. exists c. split_and!; done.
Qed.

Lemma diffuse_pixel_bytes y x st st' :
  diffuse_pixel src f w h y x st = Ok st' -> grid_bytes st.1 -> grid_bytes st'.1.
Proof.
  destruct st as [W O]. intros (c & _ & _ & _ & HW)%diffuse_pixel_Ok Hb x' y' k.
  rewrite HW. destruct (decide _); [| apply Hb].
  destruct (diffusion_weight _ _ _ _); [apply toUint8Clamp_byte | apply Hb].
Qed.

(** Every pixel visited holds an answer of the resolver to three bytes; no
    other pixel of the output is touched. *)
Lemma run_diffuse_answers ps st st' :
  run (diffuse_pixel src f w h) ps st = Ok st' -> grid_bytes st.1 ->
  forall x y,
    ((x, y) ∈ ps ->
     exists r g b c, is_byte r ∧ is_byte g ∧ is_byte b ∧
       f (int r) (int g) (int b) = Some c ∧ 3 <= length c ∧
       forall k, k < 3 -> st'.2 x y k = channel_byte c k) ∧
    ((x, y) ∉ ps -> forall k, st'.2 x y k = st.2 x y k).
Proof.
  revert st. induction ps as [| [px py] ps IH]; intros st Hrun Hb x y.
  - injection Hrun as <-. split; [by intros ?%elem_of_nil | done].
  - cbn [run fst snd] in Hrun.
    destruct (diffuse_pixel src f w h py px st) as [st1 | m] eqn:Hstep; [| done].
    cbn in Hrun.
    pose proof (diffuse_pixel_bytes _ _ _ _ Hstep Hb) as Hb1.
    destruct (IH st1 Hrun Hb1 x y) as [IHin IHout].
    destruct st as [W O]. apply diffuse_pixel_Ok in Hstep as (c & Hf & Hc & HO & _).
    destruct (decide ((x, y) ∈ ps)) as [Hin | Hnin].
    + split; [by intros _; apply IHin | intros Hn; contradict Hn; by right].
    + split.
      * intros [[= -> ->] | Hin]%elem_of_cons; [| done].
        exists (W px py 0), (W px py 1), (W px py 2), c.
        split_and!; try done; try apply Hb.
        intros k Hk. rewrite (IHout Hnin), HO.
        rewrite decide_True by done. by rewrite decide_False by lia.
      * intros Hn k. rewrite (IHout Hnin), HO.
        rewrite decide_False; [done |]. intros [-> ->]. apply Hn. by left.
Qed.

End GridRun.

Lemma floydSteinberg_answers img f out x y :
  valid_image img -> x < img.(width) -> y < img.(height) ->
  floydSteinberg (Some img) (Some f) = Ok out ->
  exists r g b c, is_byte r ∧ is_byte g ∧ is_byte b ∧
    f (int r) (int g) (int b) = Some c ∧ 3 <= length c ∧ shows out x y c.
Proof.
  intros Hv Hx Hy Hout.
  destruct (floydSteinberg_grid img f out Hv Hout) as (W & O & Hrun & _ & _ & _ & Hbytes).
  destruct (run_diffuse_answers _ _ _ _ _ _ _ Hrun (grid_of_bytes _ _ (proj2 Hv)) x y)
    as [Hin _].
  destruct Hin as (r & g & b & c & Hr & Hg & Hb & Hf & Hc & HO); [by apply elem_of_row_major |].
  exists r, g, b, c. split_and!; try done.
  intros k Hk. rewrite Hbytes by lia. f_equal. by apply HO.
Qed.

(** ** Pixels the resolver leaves as they are *)

Lemma write_same d i v : d !! i = Some (Js.toUint8Clamp v) -> write d i v = d.
Proof. intros H. unfold write. by apply list_insert_id. Qed.

(** Adding an error of zero leaves the working copy as it is. *)
Lemma write_add_zero d i k :
  Forall is_byte d -> (S754_zero false * int k / int 16)%js = S754_zero false ->
  write d i (read d i + S754_zero false * int k / int 16)%js = d.
Proof.
  intros Hb Hk. rewrite Hk. unfold read.
  destruct (d !! i) as [v |] eqn:E.
  - apply write_same. rewrite E, add_zero_byte, toUint8Clamp_of_Z; try done;
      by eapply Forall_lookup_1.
  - unfold write. apply list_insert_ge. by apply lookup_ge_None.
Qed.

Lemma add_error_zero d base k :
  Forall is_byte d -> (S754_zero false * int k / int 16)%js = S754_zero false ->
  add_error d base (S754_zero false) (S754_zero false) (S754_zero false) k = d.
Proof.
  intros Hb Hk. unfold add_error. cbv zeta.
  rewrite (write_add_zero d base) by done.
  rewrite (write_add_zero d (base + 1)) by done.
  by rewrite (write_add_zero d (base + 2)).
Qed.

Lemma diffuse_zero w h x y d :
  Forall is_byte d ->
  diffuse w h x y d (S754_zero false) (S754_zero false) (S754_zero false) = d.
Proof.
  intros Hb. unfold diffuse.
  repeat match goal with
         | |- context [if ?g then add_error ?d0 ?base _ _ _ ?k else ?d0] =>
             replace (if g then add_error d0 base (S754_zero false) (S754_zero false)
                                 (S754_zero false) k else d0) with d0
               by (destruct g; [symmetry; apply add_error_zero; [done | vm_compute; reflexivity]
                               | done])
         end.
  done.
Qed.

Lemma set_pixel_same out idx c alpha :
  (forall k, k < 3 -> out !! (idx + k) = Some (channel_byte c k)) ->
  out !! (idx + 3) = Some (Js.toUint8Clamp alpha) ->
  set_pixel out idx c alpha = out.
Proof.
  intros Hk Ha. unfold set_pixel.
  pose proof (Hk 0 ltac:(lia)) as H0. pose proof (Hk 1 ltac:(lia)) as H1.
  pose proof (Hk 2 ltac:(lia)) as H2. rewrite Nat.add_0_r in H0.
  unfold channel_byte in *. cbv zeta.
  by rewrite (write_same out idx), (write_same out (idx + 1)), (write_same out (idx + 2)),
    (write_same out (idx + 3)).
Qed.

Lemma fs_pixel_fixed f img x y :
  valid_image img -> x < img.(width) -> y < img.(height) -> fixed_pixel f img x y ->
  fs_pixel f img.(width) img.(height) y x (img.(data), img.(data))
  = Ok (img.(data), img.(data)).
Proof.
  intros Hv Hx Hy Hfix.
  destruct (valid_image_byte img x y 0 Hv Hx Hy ltac:(lia)) as (r & Hr & Hrb & Hrr).
  destruct (valid_image_byte img x y 1 Hv Hx Hy ltac:(lia)) as (g & Hg & Hgb & Hgr).
  destruct (valid_image_byte img x y 2 Hv Hx Hy ltac:(lia)) as (b & Hb & Hbb & Hbr).
  destruct (valid_image_byte img x y 3 Hv Hx Hy ltac:(lia)) as (a & Ha & Hab & Har).
  destruct (Hfix r g b) as (c & Hf & Hc & H0 & H1 & H2).
  { unfold rgb_at. by rewrite Hr, Hg, Hb. }
  rewrite fs_pixel_diffuse. cbv zeta.
  rewrite Nat.add_0_r in Hrr. rewrite Hrr, Hgr, Hbr, Har, Hf.
  assert (Hacc : accepted (Some c) = Some c) by (apply accepted_Some; done).
  rewrite Hacc, H0, H1, H2, !sub_self_byte by done.
  rewrite diffuse_zero by apply Hv.
  rewrite set_pixel_same; [done | |].
  - intros k Hk. unfold byte_at in *. unfold channel_byte.
    destruct k as [| [| [| k]]]; [| | | lia].
    + rewrite H0, toUint8Clamp_of_Z by done. done.
    + rewrite H1, toUint8Clamp_of_Z by done. done.
    + rewrite H2, toUint8Clamp_of_Z by done. done.
  - rewrite toUint8Clamp_of_Z by done. done.
Qed.

Lemma run_fs_fixed f img ps :
  valid_image img -> Forall (in_bounds img.(width) img.(height)) ps ->
  (forall x y, x < img.(width) -> y < img.(height) -> fixed_pixel f img x y) ->
  run (fs_pixel f img.(width) img.(height)) ps (img.(data), img.(data))
  = Ok (img.(data), img.(data)).
Proof.
  intros Hv Hps Hfix. induction Hps as [| [x y] ps [Hx Hy] _ IH]; [done |].
  cbn [run fst snd]. rewrite fs_pixel_fixed by (done || by apply Hfix). done.
Qed.

Lemma floydSteinberg_fixed img f :
  valid_image img ->
  (forall x y, x < img.(width) -> y < img.(height) -> fixed_pixel f img x y) ->
  floydSteinberg (Some img) (Some f) = Ok img.
Proof.
  intros Hv Hfix. rewrite floydSteinberg_run.
  rewrite run_fs_fixed by (done || apply row_major_in_bounds). cbn. by destruct img.
Qed.

Lemma floydSteinberg_valid img f out :
  valid_image img -> floydSteinberg (Some img) (Some f) = Ok out ->
  valid_image out ∧ out.(width) = img.(width) ∧ out.(height) = img.(height).
Proof.
  intros Hv Hout.
  destruct (floydSteinberg_related img f out Hv Hout) as (Hw & Hh & Hlen & _).
  split_and!; [| done | done]. split; [by rewrite Hw, Hh |].
  rewrite floydSteinberg_run in Hout.
  destruct (run _ _ _) as [st |] eqn:Hrun; [| done]. injection Hout as <-. cbn.
  by apply (run_fs_bytes _ _ _ _ _ _ Hrun), Hv.
Qed.

(** ** Later pixels do not reach earlier ones *)

Lemma diffusion_weight_later x y px py x' y' n :
  diffusion_weight px py x' y' = Some n -> upto x y x' y' -> upto x y px py.
Proof.
  unfold diffusion_weight, upto.
  repeat case_decide; intros [= <-]; lia.
Qed.

Section Causality.
Variables src1 src2 : grid.
Variable f : resolver.
Variables w h x y : nat.
Hypothesis src_agree : forall x' y', x' < w -> upto x y x' y' -> src1 x' y' 3 = src2 x' y' 3.

(** Two states of the scan that agree on the pixels up to [(x, y)]. *)
Definition agree_upto (st1 st2 : grid * grid) : Prop :=
  (forall x' y' k, x' < w -> upto x y x' y' -> k < 3 -> st1.1 x' y' k = st2.1 x' y' k) ∧
  (forall x' y' k, x' < w -> upto x y x' y' -> st1.2 x' y' k = st2.2 x' y' k).

Lemma diffuse_pixel_agree px py st1 st2 st1' st2' :
  px < w ->
  diffuse_pixel src1 f w h py px st1 = Ok st1' ->
  diffuse_pixel src2 f w h py px st2 = Ok st2' ->
  agree_upto st1 st2 -> agree_upto st1' st2'.
Proof.
  intros Hpx H1 H2 [HW HO].
  destruct st1 as [W1 O1], st2 as [W2 O2]. cbn [fst snd] in *.
  apply diffuse_pixel_Ok in H1 as (c1 & Hf1 & _ & HO1 & HW1).
  apply diffuse_pixel_Ok in H2 as (c2 & Hf2 & _ & HO2 & HW2).
  assert (Hsame : upto x y px py -> c1 = c2).
  { intros Hup. rewrite !(HW px py) in Hf1 by (done || lia). congruence. }
  split.
  - intros x' y' k Hx' Hup Hk. rewrite HW1, HW2.
    destruct (decide _); [| by apply HW].
    destruct (diffusion_weight px py x' y') as [n |] eqn:Hwt; [| by apply HW].
    pose proof (diffusion_weight_later x y px py x' y' n Hwt Hup) as Hp.
    rewrite (Hsame Hp), (HW x' y' k), (HW px py k) by done. done.
  - intros x' y' k Hx' Hup. rewrite HO1, HO2.
    destruct (decide _) as [[-> ->] |]; [| by apply HO].
    rewrite (Hsame Hup), (src_agree px py) by done. done.
Qed.

Lemma run_diffuse_agree ps st1 st2 st1' st2' :
  Forall (in_bounds w h) ps ->
  run (diffuse_pixel src1 f w h) ps st1 = Ok st1' ->
  run (diffuse_pixel src2 f w h) ps st2 = Ok st2' ->
  agree_upto st1 st2 -> agree_upto st1' st2'.
Proof.
  intros Hps. revert st1 st2.
  induction Hps as [| [px py] ps [Hpx _] _ IH]; intros st1 st2 H1 H2 Hag.
  - injection H1 as <-. by injection H2 as <-.
  - cbn [run fst snd] in H1, H2. cbn [fst] in Hpx.
    destruct (diffuse_pixel src1 f w h py px st1) as [s1 |] eqn:E1; [| done].
    destruct (diffuse_pixel src2 f w h py px st2) as [s2 |] eqn:E2; [| done].
    cbn in H1, H2. eapply IH; [done | done |]. by eapply diffuse_pixel_agree.
Qed.

End Causality.

(** ** A scan in which every answer is accepted *)

Lemma run_fs_scan f w h st0 todo :
  forall visited st,
    run (fs_pixel f w h) visited st0 = Ok st ->
    (forall v x y rest working output,
       visited ++ todo = v ++ (x, y) :: rest ->
       run (fs_pixel f w h) v st0 = Ok (working, output) ->
       invalid_color (f (read working (pixel_index w x y))
                        (read working (pixel_index w x y + 1))
                        (read working (pixel_index w x y + 2))) = false) ->
    exists st', run (fs_pixel f w h) todo st = Ok st'.
Proof.
  induction todo as [| [x y] todo IH]; intros visited [d o] Hrun Hall; [by eexists |].
  cbn [run fst snd]. rewrite fs_pixel_diffuse. cbv zeta.
  pose proof (Hall visited x y todo d o eq_refl Hrun) as Hok.
  destruct (accepted _) as [c |] eqn:Hc; [| by apply accepted_invalid in Hc; congruence].
  cbn. apply (IH (visited ++ [(x, y)])).
  - rewrite run_app, Hrun. cbn [mbind result_bind run fst snd].
    rewrite fs_pixel_diffuse. cbv zeta. by rewrite Hc.
  - intros v x' y' rest working output Hsplit.
    apply (Hall v x' y' rest). by rewrite <- Hsplit, <- app_assoc.
Qed.

Lemma floydSteinberg_scan_accepts img f :
  (forall visited x y rest working output,
     row_major img.(width) img.(height) = visited ++ (x, y) :: rest ->
     run (fs_pixel f img.(width) img.(height)) visited (img.(data), img.(data))
       = Ok (working, output) ->
     invalid_color (f (read working (pixel_index img.(width) x y))
                      (read working (pixel_index img.(width) x y + 1))
                      (read working (pixel_index img.(width) x y + 2))) = false) ->
  exists out, floydSteinberg (Some img) (Some f) = Ok out.
Proof.
  intros Hall. rewrite floydSteinberg_run.
  destruct (run_fs_scan f img.(width) img.(height) (img.(data), img.(data))
              (row_major img.(width) img.(height)) [] _ eq_refl Hall) as [st' ->].
  by eexists.
Qed.

(** ** Answers of more than three entries *)

Lemma for_loop_ext {St} (body body' : nat -> St -> result St) start count s :
  (forall i s, body i s = body' i s) ->
  for_loop start count body s = for_loop start count body' s.
Proof.
  intros Hext. revert start s.
  induction count as [| count IH]; intros start s; [done |].
  cbn [for_loop]. rewrite Hext. destruct (body' start s) as [s' | m]; cbn; [apply IH | done].
Qed.

Lemma fs_pixel_first_three f w h y x st :
  fs_pixel (first_three f) w h y x st = fs_pixel f w h y x st.
Proof.
  destruct st as [d o]. unfold fs_pixel, first_three.
  destruct (f _ _ _) as [[| c0 [| c1 [| c2 rest]]] |]; done.
Qed.

Lemma bayer_pixel_first_three f nm d w y x o :
  bayer_pixel (first_three f) nm d w y x o = bayer_pixel f nm d w y x o.
Proof.
  unfold bayer_pixel, first_three.
  destruct (f _ _ _) as [[| c0 [| c1 [| c2 rest]]] |]; done.
Qed.

Lemma ordered_pixel_first_three f nm d w y x o :
  ordered_pixel (first_three f) nm d w y x o = ordered_pixel f nm d w y x o.
Proof.
  unfold ordered_pixel, first_three.
  destruct (f _ _ _) as [[| c0 [| c1 [| c2 rest]]] |]; done.
Qed.

Lemma transforms_first_three img f :
  floydSteinberg (Some img) (Some (first_three f)) = floydSteinberg (Some img) (Some f) ∧
  bayer (Some img) (Some (first_three f)) = bayer (Some img) (Some f) ∧
  ordered (Some img) (Some (first_three f)) = ordered (Some img) (Some f).
Proof.
  unfold floydSteinberg, bayer, ordered. cbv zeta. split_and!; f_equal.
  - f_equal. apply for_loop_ext. intros y s. apply for_loop_ext. intros x s'.
    apply fs_pixel_first_three.
  - f_equal. apply for_loop_ext. intros y s. apply for_loop_ext. intros x s'.
    apply bayer_pixel_first_three.
  - f_equal. apply for_loop_ext. intros y s. apply for_loop_ext. intros x s'.
    apply ordered_pixel_first_three.
Qed.

(** * The nearest colour of a palette *)

Lemma closest_step_invalid r g b st c :
  invalid_color c = true -> closest_step r g b st c = st.
Proof.
  unfold invalid_color, closest_step. destruct c as [l |]; [| done].
  by intros ->.
Qed.

(** Entries that fail the check are skipped: when every entry fails it, the
    scan ends with its initial candidate, the first entry. *)
Lemma fold_closest_all_invalid r g b palette st :
  Forall (fun c => invalid_color c = true) palette ->
  fold_left (closest_step r g b) palette st = st.
Proof.
  intros Hall. revert st.
  induction Hall as [| c palette Hc Hall IH]; intros st; [done |].
  cbn. rewrite closest_step_invalid by done. apply IH.
Qed.

Lemma findClosestColor_all_invalid r g b first rest :
  Forall (fun c => invalid_color c = true) (first :: rest) ->
  findClosestColor r g b (Some (first :: rest)) = first.
Proof.
  intros Hall. unfold findClosestColor.
  by rewrite fold_closest_all_invalid.
Qed.

Section ClosestColor.
Variables r g b : Js.number.

(** The scan before any entry has been taken. *)
Definition nothing_yet (seen : list jsval) (st : Js.number * jsval) : Prop :=
  st.1 = Js.Infinity ∧
  forall j c, seen !! j = Some (Some c) -> 3 <= length c ->
    (distance r g b c <? Js.Infinity)%js = false.

(** The scan holding entry [i] of [seen]: no usable entry is nearer, and
    every usable entry before it is strictly farther. *)
Definition nearest_at (seen : list jsval) (i : nat) (c : color) : Prop :=
  seen !! i = Some (Some c) ∧ 3 <= length c ∧
  (forall j c', seen !! j = Some (Some c') -> 3 <= length c' ->
     (distance r g b c' <? distance r g b c)%js = false) ∧
  (forall j c', j < i -> seen !! j = Some (Some c') -> 3 <= length c' ->
     (distance r g b c <? distance r g b c')%js = true).

Definition scan_state (seen : list jsval) (st : Js.number * jsval) : Prop :=
  nothing_yet seen st ∨
  exists i c, nearest_at seen i c ∧ st = (distance r g b c, Some c).

Definition numeric (palette : list jsval) : Prop :=
  forall j c, palette !! j = Some (Some c) -> 3 <= length c ->
    Js.isNaN (distance r g b c) = false.

Lemma lookup_snoc_Some {A} (l : list A) (x y : A) j :
  (l ++ [x]) !! j = Some y -> l !! j = Some y ∧ j < length l ∨ j = length l ∧ x = y.
Proof.
  intros H. destruct (decide (j < length l)) as [Hlt | Hge].
  - rewrite lookup_app_l in H by done. by left.
  - rewrite lookup_app_r in H by lia.
    destruct (j - length l) as [| k] eqn:Hk; cbn in H; [| by destruct k].
    right. split; [lia | congruence].
Qed.

Lemma scan_step seen st e :
  numeric (seen ++ [e]) -> scan_state seen st ->
  scan_state (seen ++ [e]) (closest_step r g b st e).
Proof.
  intros Hnum Hst.
  assert (Hnum' : forall j c, seen !! j = Some (Some c) -> 3 <= length c ->
                    Js.isNaN (distance r g b c) = false).
  { intros j c Hj. apply (Hnum j). rewrite lookup_app_l; [done |].
    by eapply lookup_lt_Some. }
  unfold closest_step.
  destruct e as [l |]; [destruct (Nat.ltb_spec (length l) 3) as [Hshort | Hlong] |].
  - (* an entry with fewer than three channels is skipped *)
    destruct Hst as [[Hinf Hnone] | (i & c & (Hi & Hc & Hmin & Hfirst) & ->)].
    + left. split; [done |]. intros j c Hj Hc.
      apply lookup_snoc_Some in Hj as [[Hj _] | [_ [= <-]]]; [eauto | lia].
    + right. exists i, c. split; [| done]. split_and!; try done.
      * rewrite lookup_app_l; [done | by eapply lookup_lt_Some].
      * intros j c' Hj Hc'.
        apply lookup_snoc_Some in Hj as [[Hj _] | [_ [= <-]]]; [eauto | lia].
      * intros j c' Hlt Hj Hc'.
        apply lookup_snoc_Some in Hj as [[Hj _] | [_ [= <-]]]; [eauto | lia].
  - (* a usable entry *)
    assert (Hl : Js.isNaN (distance r g b l) = false).
    { apply (Hnum (length seen)); [| done].
      rewrite lookup_app_r by lia. by rewrite Nat.sub_diag. }
    destruct Hst as [[Hinf Hnone] | (i & c & (Hi & Hc & Hmin & Hfirst) & ->)].
    + destruct st as [m best]; cbn [fst] in *; subst m.
      destruct (distance r g b l <? Js.Infinity)%js eqn:Hlt.
      * right. exists (length seen), l. split; [| done]. split_and!; try done.
        -- rewrite lookup_app_r by lia. by rewrite Nat.sub_diag.
        -- intros j c' Hj Hc'.
           apply lookup_snoc_Some in Hj as [[Hj _] | [_ [= <-]]]; [| apply lt_irrefl].
           destruct (distance r g b c' <? distance r g b l)%js eqn:Hlt'; [| done].
           rewrite <- (Hnone j c' Hj Hc'). symmetry. by eapply lt_trans.
        -- intros j c' Hj' Hj Hc'.
           apply lookup_snoc_Some in Hj as [[Hj _] | [? _]]; [| lia].
           eapply lt_connex; eauto.
      * left. split; [done |]. intros j c Hj Hc.
        apply lookup_snoc_Some in Hj as [[Hj _] | [_ [= <-]]]; eauto.
    + cbn [fst].
      destruct (distance r g b l <? distance r g b c)%js eqn:Hlt.
      * right. exists (length seen), l. split; [| done]. split_and!; try done.
        -- rewrite lookup_app_r by lia. by rewrite Nat.sub_diag.
        -- intros j c' Hj Hc'.
           apply lookup_snoc_Some in Hj as [[Hj _] | [_ [= <-]]]; [| apply lt_irrefl].
           destruct (distance r g b c' <? distance r g b l)%js eqn:Hlt'; [| done].
           rewrite <- (Hmin j c' Hj Hc'). symmetry. by eapply lt_trans.
        -- intros j c' Hj' Hj Hc'.
           apply lookup_snoc_Some in Hj as [[Hj _] | [? _]]; [| lia].
           eapply lt_connex; eauto.
      * right. exists i, c. split; [| done]. split_and!; try done.
        -- rewrite lookup_app_l; [done | by eapply lookup_lt_Some].
        -- intros j c' Hj Hc'.
           apply lookup_snoc_Some in Hj as [[Hj _] | [_ [= <-]]]; eauto.
        -- intros j c' Hj' Hj Hc'.
           apply lookup_snoc_Some in Hj as [[Hj _] | [-> _]]; [eauto |].
           apply lookup_lt_Some in Hi. lia.
  - (* a null entry is skipped *)
    destruct Hst as [[Hinf Hnone] | (i & c & (Hi & Hc & Hmin & Hfirst) & ->)].
    + left. split; [done |]. intros j c Hj Hc.
      apply lookup_snoc_Some in Hj as [[Hj _] | [_ [=]]]; eauto.
    + right. exists i, c. split; [| done]. split_and!; try done.
      * rewrite lookup_app_l; [done | by eapply lookup_lt_Some].
      * intros j c' Hj Hc'.
        apply lookup_snoc_Some in Hj as [[Hj _] | [_ [=]]]; eauto.
      * intros j c' Hlt Hj Hc'.
        apply lookup_snoc_Some in Hj as [[Hj _] | [_ [=]]]; eauto.
Qed.

Lemma scan_fold todo seen st :
  numeric (seen ++ todo) -> scan_state seen st ->
  scan_state (seen ++ todo) (fold_left (closest_step r g b) todo st).
Proof.
  revert seen st. induction todo as [| e todo IH]; intros seen st Hnum Hst.
  - by rewrite app_nil_r.
  - cbn [fold_left].
    replace (seen ++ e :: todo) with ((seen ++ [e]) ++ todo) in * by by rewrite <- app_assoc.
    apply IH; [done |]. apply scan_step; [| done].
    intros j c Hj. apply (Hnum j). rewrite lookup_app_l; [done |].
    by eapply lookup_lt_Some.
Qed.

End ClosestColor.

Section Skipping.
Variables r g b : Js.number.

Lemma fold_closest_filter palette st :
  fold_left (closest_step r g b) palette st =
    fold_left (closest_step r g b) (filter usable palette) st.
Proof.
  revert st. induction palette as [| c palette IH]; intros st; [done |].
  cbn [fold_left]. destruct (decide (usable c)) as [Hc | Hc].
  - rewrite filter_cons_True by done. cbn [fold_left]. apply IH.
  - rewrite filter_cons_False by done.
    rewrite closest_step_invalid; [apply IH |].
    unfold usable in Hc. by destruct (invalid_color c).
Qed.

(** A step either keeps the state or takes a usable entry. *)
Lemma closest_step_cases st e :
  closest_step r g b st e = st ∨
  exists c, e = Some c ∧ 3 <= length c ∧
    (distance r g b c <? st.1)%js = true ∧
    closest_step r g b st e = (distance r g b c, Some c).
Proof.
  unfold closest_step. destruct e as [c |]; [| by left].
  destruct (Nat.ltb_spec (length c) 3); [by left |].
  destruct (distance r g b c <? st.1)%js eqn:Hlt; [| by left].
  right. by exists c.
Qed.

Lemma fold_closest_below palette m best :
  (m <? Js.Infinity)%js = true ->
  ((fold_left (closest_step r g b) palette (m, best)).1 <? Js.Infinity)%js = true.
Proof.
  revert m best. induction palette as [| e palette IH]; intros m best Hm; [done |].
  cbn [fold_left].
  destruct (closest_step_cases (m, best) e) as [-> | (c & _ & _ & Hlt & ->)].
  - by apply IH.
  - apply IH. cbn [fst] in Hlt. by eapply lt_trans.
Qed.

Lemma fold_closest_reaches palette best c :
  Some c ∈ palette -> 3 <= length c -> (distance r g b c <? Js.Infinity)%js = true ->
  ((fold_left (closest_step r g b) palette (Js.Infinity, best)).1 <? Js.Infinity)%js = true.
Proof.
  intros Hel Hc Hfin. revert best.
  induction palette as [| e palette IH]; intros best; [by apply elem_of_nil in Hel |].
  cbn [fold_left].
  destruct (closest_step_cases (Js.Infinity, best) e) as [Hkeep | (c' & _ & _ & Hlt & ->)].
  - rewrite Hkeep. apply elem_of_cons in Hel as [<- | Hel]; [| by apply IH].
    exfalso. unfold closest_step in Hkeep. cbn [fst] in Hkeep.
    rewrite (proj2 (Nat.ltb_ge _ _) Hc), Hfin in Hkeep.
    injection Hkeep as Hinf _. rewrite Hinf in Hfin. done.
  - by apply fold_closest_below.
Qed.

Lemma fold_closest_candidate palette m best :
  fold_left (closest_step r g b) palette (m, best) = (m, best) ∨
  exists c, fold_left (closest_step r g b) palette (m, best) = (distance r g b c, Some c) ∧
    3 <= length c ∧ Some c ∈ palette.
Proof.
  revert m best. induction palette as [| e palette IH]; intros m best; [by left |].
  cbn [fold_left].
  destruct (closest_step_cases (m, best) e) as [-> | (c & -> & Hc & _ & ->)].
  - destruct (IH m best) as [Hkeep | (c & Hfold & Hc & Hel)]; [by left |].
    right. exists c. split_and!; [done | done | by apply elem_of_cons; right].
  - right. destruct (IH (distance r g b c) (Some c)) as [Hkeep | (c' & Hfold & Hc' & Hel)].
    + exists c. split_and!; [done | done | by apply elem_of_cons; left].
    + exists c'. split_and!; [done | done | by apply elem_of_cons; right].
Qed.

(** The initial candidate matters only when the scan takes no entry. *)
Lemma fold_closest_initial palette m best best' :
  fold_left (closest_step r g b) palette (m, best) = (m, best) ∧
  fold_left (closest_step r g b) palette (m, best') = (m, best') ∨
  fold_left (closest_step r g b) palette (m, best) =
    fold_left (closest_step r g b) palette (m, best').
Proof.
  revert m best best'. induction palette as [| e palette IH]; intros m best best'; [by left |].
  cbn [fold_left].
  destruct (closest_step_cases (m, best) e) as [Hkeep | (c & -> & Hc & Hlt & Htake)].
  - assert (Hkeep' : closest_step r g b (m, best') e = (m, best')).
    { unfold closest_step in *. cbn [fst] in *. destruct e as [c |]; [| done].
      destruct (length c <? 3)%nat; [done |].
      destruct (distance r g b c <? m)%js eqn:Hlt; [| done].
      injection Hkeep as Hm _. rewrite Hm in Hlt. by rewrite lt_irrefl in Hlt. }
    rewrite Hkeep, Hkeep'. apply IH.
  - right. rewrite Htake.
    unfold closest_step. cbn [fst] in *.
    by rewrite (proj2 (Nat.ltb_ge _ _) Hc), Hlt.
Qed.

End Skipping.

(** ** Palettes of bytes *)

Section IntegerDistance.
Local Open Scope Z_scope.

Lemma square_byte_diff a b : is_byte a -> is_byte b -> 0 <= (a - b) * (a - b) <= 65025.
Proof.
  unfold is_byte. intros Ha Hb.
  assert (Hd : -255 <= a - b <= 255) by lia.
  generalize dependent (a - b). intros d Hd.
  split; [apply Z.square_nonneg |].
  assert (0 <= (255 - d) * (255 + d)) by (apply Z.mul_nonneg_nonneg; lia). lia.
Qed.

Lemma distanceZ_range r g b c :
  is_byte r -> is_byte g -> is_byte b -> 0 <= distanceZ r g b c <= 195075.
Proof.
  intros Hr Hg Hb. unfold distanceZ, channel_byte. cbv zeta.
  pose proof (square_byte_diff r _ Hr (toUint8Clamp_byte (chan c 0))).
  pose proof (square_byte_diff g _ Hg (toUint8Clamp_byte (chan c 1))).
  pose proof (square_byte_diff b _ Hb (toUint8Clamp_byte (chan c 2))).
  lia.
Qed.

(** Between bytes the squared distance is computed without rounding. *)
Lemma distance_bytes r g b c :
  is_byte r -> is_byte g -> is_byte b -> byte_color c ->
  distance (int r) (int g) (int b) c = int (distanceZ r g b c).
Proof.
  intros Hr Hg Hb [_ Hc].
  unfold distance, distanceZ. cbv zeta.
  rewrite (Hc 0%nat), (Hc 1%nat), (Hc 2%nat) by lia.
  pose proof (toUint8Clamp_byte (chan c 0)) as H0.
  pose proof (toUint8Clamp_byte (chan c 1)) as H1.
  pose proof (toUint8Clamp_byte (chan c 2)) as H2.
  fold (channel_byte c 0) in *. fold (channel_byte c 1) in *. fold (channel_byte c 2) in *.
  rewrite !sub_bytes by done.
  pose proof (square_byte_diff r _ Hr H0). pose proof (square_byte_diff g _ Hg H1).
  pose proof (square_byte_diff b _ Hb H2).
  unfold is_byte in *.
  rewrite !square_small by lia.
  rewrite !add_small by lia. done.
Qed.

End IntegerDistance.

Lemma findClosestColor_elem r g b first rest :
  findClosestColor r g b (Some (first :: rest)) ∈ first :: rest.
Proof.
  unfold findClosestColor.
  destruct (fold_closest_candidate r g b (first :: rest) Js.Infinity first)
    as [-> | (c & -> & _ & Hin)]; [apply list_elem_of_here | done].
Qed.

Lemma byte_color_numeric r g b palette :
  is_byte r -> is_byte g -> is_byte b -> byte_palette palette ->
  numeric (int r) (int g) (int b) palette.
Proof.
  intros Hr Hg Hb Hpal j c Hj Hc.
  rewrite distance_bytes; [apply binary_normalize_not_nan | done | done | done |].
  apply Hpal; [| done]. by eapply list_elem_of_lookup_2.
Qed.

Lemma lt_distance_bytes r g b c c' :
  is_byte r -> is_byte g -> is_byte b -> byte_color c -> byte_color c' ->
  (distance (int r) (int g) (int b) c <? distance (int r) (int g) (int b) c')%js
  = (distanceZ r g b c <? distanceZ r g b c')%Z.
Proof.
  intros Hr Hg Hb Hc Hc'. rewrite !distance_bytes by done.
  pose proof (distanceZ_range r g b c Hr Hg Hb).
  pose proof (distanceZ_range r g b c' Hr Hg Hb).
  apply lt_small; lia.
Qed.

(** The scan of a palette of bytes from a pixel of bytes, in integers. *)
Lemma findClosestColor_bytes_scan r g b palette :
  is_byte r -> is_byte g -> is_byte b -> byte_palette palette ->
  (exists c, Some c ∈ palette ∧ 3 <= length c) ->
  exists i c,
    palette !! i = Some (Some c) ∧ 3 <= length c ∧
    findClosestColor (int r) (int g) (int b) (Some palette) = Some c ∧
    (forall j c', palette !! j = Some (Some c') -> 3 <= length c' ->
       (distanceZ r g b c <= distanceZ r g b c')%Z) ∧
    (forall j c', j < i -> palette !! j = Some (Some c') -> 3 <= length c' ->
       (distanceZ r g b c < distanceZ r g b c')%Z).
Proof.
  intros Hr Hg Hb Hpal (c0 & Hin0 & Hc0).
  pose proof (byte_color_numeric r g b palette Hr Hg Hb Hpal) as Hnum.
  destruct palette as [| first rest]; [by apply elem_of_nil in Hin0 |].
  unfold findClosestColor.
  pose proof (scan_fold (int r) (int g) (int b) (first :: rest) [] (Js.Infinity, first) Hnum)
    as Hscan.
  cbn [app] in Hscan.
  destruct Hscan as [[_ Hnone] | (i & c & (Hi & Hc & Hmin & Hfirst) & Hst)].
  - left. split; [done |]. intros j c Hj. by rewrite lookup_nil in Hj.
  - apply list_elem_of_lookup_1 in Hin0 as [j0 Hj0].
    specialize (Hnone j0 c0 Hj0 Hc0).
    rewrite distance_bytes in Hnone by (done || by apply Hpal; [eapply list_elem_of_lookup_2 |]).
    pose proof (distanceZ_range r g b c0 Hr Hg Hb).
    rewrite of_Z_dyadic, lt_dyadic_Infinity in Hnone; [done | rewrite pow2_53; lia | lia].
  - assert (Hbc : byte_color c) by (apply Hpal; [by eapply list_elem_of_lookup_2 | done]).
    exists i, c. rewrite Hst. split_and!; [done | done | done | |].
    + intros j c' Hj Hc'.
      assert (Hbc' : byte_color c') by (apply Hpal; [by eapply list_elem_of_lookup_2 | done]).
      specialize (Hmin j c' Hj Hc'). rewrite lt_distance_bytes in Hmin by done.
      by apply Z.ltb_ge in Hmin.
    + intros j c' Hlt Hj Hc'.
      assert (Hbc' : byte_color c') by (apply Hpal; [by eapply list_elem_of_lookup_2 | done]).
      specialize (Hfirst j c' Hlt Hj Hc'). rewrite lt_distance_bytes in Hfirst by done.
      by apply Z.ltb_lt in Hfirst.
Qed.

Lemma distanceZ_zero r g b c :
  distanceZ r g b c = 0%Z ->
  channel_byte c 0 = r ∧ channel_byte c 1 = g ∧ channel_byte c 2 = b.
Proof.
  unfold distanceZ. cbv zeta. intros H.
  pose proof (Z.square_nonneg (r - channel_byte c 0)) as H0.
  pose proof (Z.square_nonneg (g - channel_byte c 1)) as H1.
  pose proof (Z.square_nonneg (b - channel_byte c 2)) as H2.
  assert (E0 : ((r - channel_byte c 0) * (r - channel_byte c 0) = 0)%Z) by lia.
  assert (E1 : ((g - channel_byte c 1) * (g - channel_byte c 1) = 0)%Z) by lia.
  assert (E2 : ((b - channel_byte c 2) * (b - channel_byte c 2) = 0)%Z) by lia.
  apply Z.mul_eq_0 in E0, E1, E2. lia.
Qed.

Lemma distanceZ_self c :
  distanceZ (channel_byte c 0) (channel_byte c 1) (channel_byte c 2) c = 0%Z.
Proof. unfold distanceZ. cbv zeta. lia. Qed.

Lemma findClosestColor_elem_of r g b palette :
  palette <> [] -> findClosestColor r g b (Some palette) ∈ palette.
Proof. destruct palette as [| first rest]; [done |]. intros _. apply findClosestColor_elem. Qed.

(** A colour of the palette is answered with an entry of the same three
    channels. *)
Lemma nearest_of_palette_color palette c :
  byte_palette palette -> Some c ∈ palette -> 3 <= length c ->
  exists c',
    findClosestColor (int (channel_byte c 0)) (int (channel_byte c 1)) (int (channel_byte c 2))
      (Some palette) = Some c' ∧
    Some c' ∈ palette ∧ byte_color c' ∧
    forall k, k < 3 -> chan c' k = chan c k.
Proof.
  intros Hpal Hin Hc.
  pose proof (Hpal c Hin Hc) as [_ Hbc].
  destruct (findClosestColor_bytes_scan (channel_byte c 0) (channel_byte c 1) (channel_byte c 2)
              palette (toUint8Clamp_byte _) (toUint8Clamp_byte _) (toUint8Clamp_byte _) Hpal)
    as (i & c' & Hi & Hc' & Hres & Hmin & _); [by exists c |].
  apply list_elem_of_lookup_1 in Hin as [j Hj].
  specialize (Hmin j c Hj Hc). rewrite distanceZ_self in Hmin.
  pose proof (distanceZ_range (channel_byte c 0) (channel_byte c 1) (channel_byte c 2) c'
                (toUint8Clamp_byte _) (toUint8Clamp_byte _) (toUint8Clamp_byte _)) as Hrange.
  destruct (distanceZ_zero (channel_byte c 0) (channel_byte c 1) (channel_byte c 2) c'
              ltac:(lia)) as (E0 & E1 & E2).
  assert (Hin' : Some c' ∈ palette) by by eapply list_elem_of_lookup_2.
  pose proof (Hpal c' Hin' Hc') as Hbc'.
  exists c'. split_and!; [done | done | done |].
  intros k Hk. destruct Hbc' as [_ Hbc']. rewrite (Hbc' k Hk), (Hbc k Hk).
  f_equal. destruct k as [| [| [| k]]]; [done | done | done | lia].
Qed.

Lemma channel_byte_int c0 c1 c2 k :
  is_byte c0 -> is_byte c1 -> is_byte c2 -> k < 3 ->
  channel_byte [int c0; int c1; int c2] k = nth k [c0; c1; c2] 0%Z.
Proof.
  intros H0 H1 H2 Hk. unfold channel_byte.
  destruct k as [| [| [| k]]]; cbn [chan nth]; try lia; by apply toUint8Clamp_of_Z.
Qed.

Lemma byte_color_int c0 c1 c2 :
  is_byte c0 -> is_byte c1 -> is_byte c2 -> byte_color [int c0; int c1; int c2].
Proof.
  intros H0 H1 H2. split; [cbn; lia |]. intros k Hk.
  rewrite channel_byte_int by done.
  by destruct k as [| [| [| k]]]; [| | | lia].
Qed.

Lemma channel_byte_black k : k < 3 -> channel_byte black k = 0%Z.
Proof. intros Hk. destruct k as [| [| [| k]]]; [done | done | done | lia]. Qed.

Lemma channel_byte_white k : k < 3 -> channel_byte white k = 255%Z.
Proof. intros Hk. destruct k as [| [| [| k]]]; [done | done | done | lia]. Qed.

(** ** The palettes of the library *)

Lemma findClosestMonochromeColor_elem r g b t t' :
  findClosestMonochromeColor r g b t ∈ monochrome t'.
Proof.
  unfold findClosestMonochromeColor, monochrome. cbv zeta.
  destruct (_ <? _)%js; [apply list_elem_of_here | apply list_elem_of_further, list_elem_of_here].
Qed.

Lemma monochrome_entries t e : e ∈ monochrome t -> exists c, e = Some c ∧ length c = 3.
Proof.
  unfold monochrome. intros [-> | [-> | []%elem_of_nil]%elem_of_cons]%elem_of_cons;
    by eexists.
Qed.

Lemma cga_entries e : e ∈ cga -> exists c, e = Some c ∧ length c = 3.
Proof.
  unfold cga.
  intros [-> | [-> | [-> | [-> | []%elem_of_nil]%elem_of_cons]%elem_of_cons]%elem_of_cons]
         %elem_of_cons; by eexists.
Qed.

Lemma monochrome_byte_palette t : byte_palette (monochrome t).
Proof.
  intros c Hin _. unfold monochrome in Hin.
  apply elem_of_cons in Hin as [[= ->] | Hin]; [by apply (byte_color_int 0 0 0) |].
  apply list_elem_of_singleton in Hin as [= ->]. by apply (byte_color_int 255 255 255).
Qed.

Lemma cga_byte_palette : byte_palette cga.
Proof.
  intros c Hin _. unfold cga in Hin.
  repeat (apply elem_of_cons in Hin as [[= ->] | Hin];
          [first [by apply (byte_color_int 0 0 0) | by apply (byte_color_int 85 255 255)
                 | by apply (byte_color_int 255 85 255) | by apply (byte_color_int 255 255 255)] |]).
  by apply elem_of_nil in Hin.
Qed.

Lemma webSafe_eq : webSafe = webSafe_colors.
Proof. vm_compute. reflexivity. Qed.

Lemma elem_of_webSafe e :
  e ∈ webSafe ↔
  exists i j k, i < 6 ∧ j < 6 ∧ k < 6 ∧
    e = Some [int (51 * Z.of_nat i); int (51 * Z.of_nat j); int (51 * Z.of_nat k)].
Proof.
  rewrite webSafe_eq. unfold webSafe_colors.
  repeat setoid_rewrite list_elem_of_bind.
  setoid_rewrite elem_of_seq. setoid_rewrite list_elem_of_singleton.
  split.
  - intros (i & (j & (k & -> & Hk) & Hj) & Hi). exists i, j, k. split_and!; (lia || done).
  - intros (i & j & k & Hi & Hj & Hk & ->). exists i. split; [| lia].
    exists j. split; [| lia]. exists k. split; [done | lia].
Qed.

Lemma webSafe_byte_palette : byte_palette webSafe.
Proof.
  intros c Hin _. apply elem_of_webSafe in Hin as (i & j & k & Hi & Hj & Hk & [= ->]).
  apply byte_color_int; unfold is_byte; lia.
Qed.

Lemma nearest51_range x : is_byte x -> (0 <= nearest51 x <= 5)%Z.
Proof.
  unfold is_byte, nearest51. intros Hx.
  split; [apply Z.div_pos; lia |].
  assert ((x + 25) / 51 < 6)%Z by (apply Z.div_lt_upper_bound; lia). lia.
Qed.

(** No other multiple of 51 is as near: 51 is odd, a byte is never half-way. *)
Lemma nearest51_least x i :
  is_byte x ->
  ((x - 51 * nearest51 x) * (x - 51 * nearest51 x) <= (x - 51 * i) * (x - 51 * i))%Z ∧
  ((x - 51 * nearest51 x) * (x - 51 * nearest51 x) = (x - 51 * i) * (x - 51 * i) ->
   i = nearest51 x)%Z.
Proof.
  unfold is_byte, nearest51. intros Hx.
  pose proof (Z.div_mod (x + 25) 51 ltac:(lia)) as Hdm.
  pose proof (Z.mod_pos_bound (x + 25) 51 ltac:(lia)) as Hm.
  set (q := ((x + 25) / 51)%Z) in *. set (m := ((x + 25) mod 51)%Z) in *.
  assert (Hd : (x - 51 * q = m - 25)%Z) by lia. rewrite Hd.
  replace (x - 51 * i)%Z with (m - 25 + 51 * (q - i))%Z by lia.
  assert (Hi : (i = q - (q - i))%Z) by lia. revert Hi.
  generalize (q - i)%Z. intros t Hi.
  assert (Hexp : ((m - 25 + 51 * t) * (m - 25 + 51 * t) - (m - 25) * (m - 25)
                  = 51 * t * (2 * (m - 25) + 51 * t))%Z) by ring.
  destruct (Z.lt_trichotomy t 0) as [Hneg | [-> | Hpos]].
  - assert (0 < 51 * t * (2 * (m - 25) + 51 * t))%Z by (apply Z.mul_neg_neg; lia). lia.
  - lia.
  - assert (0 < 51 * t * (2 * (m - 25) + 51 * t))%Z by (apply Z.mul_pos_pos; lia). lia.
Qed.

Lemma webSafe_lookup_check :
  forallb (fun i => forallb (fun j => forallb (fun k =>
    bool_decide (webSafe !! (36 * i + 6 * j + k)
                 = Some (Some [int (51 * Z.of_nat i); int (51 * Z.of_nat j);
                               int (51 * Z.of_nat k)])))
    (seq 0 6)) (seq 0 6)) (seq 0 6) = true.
Proof. vm_compute. reflexivity. Qed.

Lemma webSafe_entries e : e ∈ webSafe -> exists c, e = Some c ∧ length c = 3.
Proof. intros (i & j & k & _ & _ & _ & ->)%elem_of_webSafe. by eexists. Qed.

(** * The application *)

(** Whatever the palette chosen, the resolver answers with one of its
    colours, of three channels. *)
Lemma selectPalette_answers p t r g b :
  exists c, (selectPalette p t).2 r g b = Some c ∧ length c = 3 ∧
    Some c ∈ (selectPalette p t).1.
Proof.
  unfold selectPalette. cbv zeta.
  assert (Hmono : exists c, findClosestMonochromeColor r g b t = Some c ∧ length c = 3 ∧
                    Some c ∈ monochrome (int 128)).
  { pose proof (findClosestMonochromeColor_elem r g b t (int 128)) as Hin.
    destruct (monochrome_entries _ _ Hin) as (c & Hc & Hlen). rewrite Hc in *. by exists c. }
  destruct (String.eqb p "1bit"); [done |].
  destruct (String.eqb p "cga").
  { cbn [fst snd].
    pose proof (findClosestColor_elem_of r g b cga ltac:(done)) as Hin.
    destruct (cga_entries _ Hin) as (c & Hc & Hlen). rewrite Hc in *. by exists c. }
  destruct (String.eqb p "websafe"); [| done].
  cbn [fst snd].
  pose proof (findClosestColor_elem_of r g b webSafe ltac:(by rewrite webSafe_eq)) as Hin.
  destruct (webSafe_entries _ Hin) as (c & Hc & Hlen). rewrite Hc in *. by exists c.
Qed.

Lemma selectPalette_accepted p t : always_accepted (selectPalette p t).2.
Proof.
  intros r g b. destruct (selectPalette_answers p t r g b) as (c & Hc & Hlen & _).
  exists c. split; [done | lia].
Qed.

(** What [applyDithering] returns with a resolver that is never rejected. *)
Lemma applyDithering_accepted algorithm img f :
  valid_image img -> always_accepted f ->
  exists out,
    applyDithering algorithm (Some img) f = Ok out ∧
    valid_image out ∧ out.(width) = img.(width) ∧ out.(height) = img.(height) ∧
    forall x y, x < img.(width) -> y < img.(height) ->
      byte_at out x y 3 = byte_at img x y 3 ∧
      exists r g b c, f r g b = Some c ∧ shows out x y c.
Proof.
  intros Hv Hacc.
  assert (Hfs : exists out,
            floydSteinberg (Some img) (Some f) = Ok out ∧
            valid_image out ∧ out.(width) = img.(width) ∧ out.(height) = img.(height) ∧
            forall x y, x < img.(width) -> y < img.(height) ->
              byte_at out x y 3 = byte_at img x y 3 ∧
              exists r g b c, f r g b = Some c ∧ shows out x y c).
  { destruct (floydSteinberg_well_shaped img f Hv Hacc) as (out & Hout & _).
    exists out. destruct (floydSteinberg_valid img f out Hv Hout) as (Hvo & Hw & Hh).
    split_and!; try done. intros x y Hx Hy. split.
    - by apply (floydSteinberg_related img f out Hv Hout).
    - destruct (floydSteinberg_answers img f out x y Hv Hx Hy Hout)
        as (r & g & b & c & _ & _ & _ & Hf & _ & Hshow).
      by exists (int r), (int g), (int b), c. }
  assert (Hth : forall prefix n size M, exists out,
            threshold_dither prefix n size M (row_major img.(width) img.(height)) img f = Ok out ∧
            valid_image out ∧ out.(width) = img.(width) ∧ out.(height) = img.(height) ∧
            forall x y, x < img.(width) -> y < img.(height) ->
              byte_at out x y 3 = byte_at img x y 3 ∧
              exists r g b c, f r g b = Some c ∧ shows out x y c).
  { intros prefix n size M.
    destruct (threshold_dither_well_shaped prefix n size M (row_major img.(width) img.(height))
                img f (proj1 Hv) Hacc) as (out & Hout & _).
    exists out. destruct (threshold_dither_valid _ _ _ _ img f out Hv Hout) as (Hvo & Hw & Hh).
    split_and!; try done. intros x y Hx Hy. split.
    - by eapply threshold_dither_alpha.
    - destruct (threshold_dither_answers _ _ _ _ img f out x y Hv Hx Hy Hout)
        as (r & g & b & c & Hf & _ & Hshow).
      by exists r, g, b, c. }
  unfold applyDithering.
  destruct (String.eqb algorithm "floyd-steinberg"); [done |].
  destruct (String.eqb algorithm "bayer"); [rewrite bayer_row_major; apply Hth |].
  destruct (String.eqb algorithm "ordered"); [rewrite ordered_row_major; apply Hth | done].
Qed.

(** * Evaluations

    The three transforms on a small image of random bytes, with the
    monochrome resolver at threshold 128 and with the nearest colour of the
    CGA palette. *)

Example floydSteinberg_mono_noise3x2 :
  floydSteinberg (Some noise3x2) (Some mono128) =
    Ok (mkImageData
          [255; 255; 255; 102; 0; 0; 0; 255; 255; 255; 255; 158;
           0; 0; 0; 239; 255; 255; 255; 29; 255; 255; 255; 63]%Z 3 2).
Proof. vm_compute. reflexivity. Qed.

Example bayer_mono_noise3x2 :
  bayer (Some noise3x2) (Some mono128) =
    Ok (mkImageData
          [0; 0; 0; 102; 255; 255; 255; 255; 0; 0; 0; 158;
           0; 0; 0; 239; 0; 0; 0; 29; 255; 255; 255; 63]%Z 3 2).
Proof. vm_compute. reflexivity. Qed.

Example ordered_mono_noise3x2 :
  ordered (Some noise3x2) (Some mono128) =
    Ok (mkImageData
          [0; 0; 0; 102; 255; 255; 255; 255; 0; 0; 0; 158;
           255; 255; 255; 239; 0; 0; 0; 29; 255; 255; 255; 63]%Z 3 2).
Proof. vm_compute. reflexivity. Qed.

Example floydSteinberg_cga_noise3x2 :
  floydSteinberg (Some noise3x2) (Some cga_resolver) =
    Ok (mkImageData
          [255; 85; 255; 102; 255; 85; 255; 255; 85; 255; 255; 158;
           0; 0; 0; 239; 85; 255; 255; 29; 255; 85; 255; 63]%Z 3 2).
Proof. vm_compute. reflexivity. Qed.

Example bayer_cga_noise3x2 :
  bayer (Some noise3x2) (Some cga_resolver) =
    Ok (mkImageData
          [0; 0; 0; 102; 255; 255; 255; 255; 0; 0; 0; 158;
           255; 85; 255; 239; 0; 0; 0; 29; 255; 255; 255; 63]%Z 3 2).
Proof. vm_compute. reflexivity. Qed.

Example ordered_cga_noise3x2 :
  ordered (Some noise3x2) (Some cga_resolver) =
    Ok (mkImageData
          [0; 0; 0; 102; 255; 85; 255; 255; 0; 0; 0; 158;
           255; 85; 255; 239; 0; 0; 0; 29; 255; 255; 255; 63]%Z 3 2).
Proof. vm_compute. reflexivity. Qed.

(** * The claims *)

(** C1: [floydSteinberg] is the error diffusion of the specification. On a
    valid image it returns exactly the output grid obtained by visiting the
    pixels in row-major order and, at each pixel, resolving the current
    working colour, writing the chosen colour (with the source alpha) to the
    output, and adding the error, weighted 7/16, 3/16, 5/16 and 1/16, to the
    right, below-left, below and below-right neighbours that lie inside the
    image, each sum rounded and clamped to a byte as it is stored; and it
    throws exactly when that scan does. *)
Theorem floydSteinberg_refines_spec (img : ImageData) (f : resolver) :
  valid_image img ->
  match floydSteinberg (Some img) (Some f),
        floydSteinberg_spec img.(width) img.(height) (grid_of img.(width) img.(data)) f with
  | Ok out, Ok expected =>
      out.(width) = img.(width) ∧ out.(height) = img.(height) ∧
      length out.(data) = img.(width) * img.(height) * 4 ∧
      forall x y c, x < img.(width) -> y < img.(height) -> c < 4 ->
        byte_at out x y c = Some (expected x y c)
  | Throw m, Throw m' => m = ("Failed to apply Floyd-Steinberg dithering: " ++ m')%string
  | _, _ => False
  end.
Proof.
  intros [Hlen Hbytes].
  rewrite floydSteinberg_run. unfold floydSteinberg_spec.
  pose proof (related_run f (width img) (height img) (data img) Hlen Hbytes
                (row_major (width img) (height img)) [] _ _
                (related_start _ _ _ Hlen Hbytes) (row_major_in_bounds _ _)) as Hsim.
  unfold source in Hsim.
  destruct (run (fs_pixel _ _ _) _ _) as [[d o] | m],
           (run (diffuse_pixel _ _ _ _) _ _) as [[W O] | m']; cbn in *; try done.
  - destruct Hsim as [_ Hlo _ _ _ Hout _]; cbn [fst snd] in *.
    repeat split; try done.
    intros x y c Hx Hy Hc. unfold byte_at. cbn.
    apply Hout; try done. by apply elem_of_row_major.
  - by subst.
Qed.

Lemma floydSteinberg_refines_spec_witness :
  valid_image gray2x2 ∧
  match floydSteinberg (Some gray2x2) (Some mono128),
        floydSteinberg_spec 2 2 (grid_of 2 gray2x2.(data)) mono128 with
  | Ok out, Ok expected =>
      out.(width) = 2 ∧ out.(height) = 2 ∧ length out.(data) = 16 ∧
      forall x y c, x < 2 -> y < 2 -> c < 4 -> byte_at out x y c = Some (expected x y c)
  | Throw m, Throw m' => m = ("Failed to apply Floyd-Steinberg dithering: " ++ m')%string
  | _, _ => False
  end.
Proof.
  split.
  - apply valid_imageb_correct. vm_compute. reflexivity.
  - apply (floydSteinberg_refines_spec gray2x2 mono128).
    apply valid_imageb_correct. vm_compute. reflexivity.
Defined.

(** The luminance of the gray 128, step by step. The coefficients round to
    0.29899999999999998801, 0.58699999999999996625 and
    0.11400000000000000411; the products by 128 are exact; the first sum,
    15960757079401037 / 2^47, needs 54 bits and rounds to
    3990189269850259 / 2^45; the second sum is 128 - 7 / 2^49, below 128
    before it is rounded, and rounds to 128 - 2^-46. *)
Lemma luminance_gray128_steps :
  exactly (Js.decimal 299 1000) (5386305154335113 # 18014398509481984) = true ∧
  exactly (Js.decimal 587 1000) (5287225962532962 # 9007199254740992) = true ∧
  exactly (Js.decimal 114 1000) (8214565720323785 # 72057594037927936) = true ∧
  exactly (Js.decimal 299 1000 * int 128)%js (5386305154335113 # 140737488355328) = true ∧
  exactly (Js.decimal 587 1000 * int 128)%js (5287225962532962 # 70368744177664) = true ∧
  exactly (Js.decimal 114 1000 * int 128)%js (8214565720323785 # 562949953421312) = true ∧
  exactly (Js.decimal 299 1000 * int 128 + Js.decimal 587 1000 * int 128)%js
          (3990189269850259 # 35184372088832) = true ∧
  exactly (luminance (int 128) (int 128) (int 128))
          (9007199254740991 # 70368744177664) = true ∧
  Qle_bool 128 ((3990189269850259 # 35184372088832) + (8214565720323785 # 562949953421312))
    = false.
Proof. split_and!; vm_compute; reflexivity. Qed.

(** C2 as stated fails: on the uniform gray 2x2 image with the monochrome
    resolver at threshold 128, [floydSteinberg] does not produce a top row
    of white then black. *)
Lemma gray2x2_top_row_not_white_black :
  ~ exists out,
      floydSteinberg (Some gray2x2) (Some mono128) = Ok out ∧
      rgb_at out 0 0 = [Some 255; Some 255; Some 255]%Z ∧
      rgb_at out 1 0 = [Some 0; Some 0; Some 0]%Z.
Proof.
  intros (out & Hout & H00 & _).
  vm_compute in Hout. injection Hout as <-.
  vm_compute in H00. discriminate H00.
Qed.

(** C2, amended: the luminance of (128,128,128) computed in binary64 is
    128 - 2^-46, below the threshold 128, so pixel (0,0) is black with
    per-channel error 128; the right neighbour's working value becomes
    128 + 128*7/16 = 184, whose luminance is not below 128, so pixel (1,0)
    is white. *)
Theorem gray2x2_top_row :
  exactly (luminance (int 128) (int 128) (int 128)) (128 - (1 # 70368744177664)) = true ∧
  (luminance (int 128) (int 128) (int 128) <? int 128)%js = true ∧
  mono128 (int 128) (int 128) (int 128) = Some black ∧
  (int 128 - chan black 0)%js = int 128 ∧
  (exists d o,
     fs_pixel mono128 2 2 0 0 (gray2x2.(data), gray2x2.(data)) = Ok (d, o) ∧
     d !! 4 = Some 184%Z ∧ d !! 5 = Some 184%Z ∧ d !! 6 = Some 184%Z) ∧
  (luminance (int 184) (int 184) (int 184) <? int 128)%js = false ∧
  mono128 (int 184) (int 184) (int 184) = Some white ∧
  exists out,
    floydSteinberg (Some gray2x2) (Some mono128) = Ok out ∧
    rgb_at out 0 0 = [Some 0; Some 0; Some 0]%Z ∧
    rgb_at out 1 0 = [Some 255; Some 255; Some 255]%Z.
Proof.
  split_and!; try (vm_compute; reflexivity).
  - eexists _, _. split_and!; vm_compute; reflexivity.
  - eexists. split_and!; vm_compute; reflexivity.
Qed.

(** C3 as stated fails: [loud] never returns a well-formed colour (four
    entries, 300 and -20 out of range), yet each transform returns an output
    buffer, the stored bytes rounded and clamped. *)
Lemma malformed_color_not_rejected :
  (forall r g b, spec_well_formed (loud r g b) = false) ∧
  floydSteinberg (Some one_pixel) (Some loud)
    = Ok (mkImageData [255; 0; 128; 255]%Z 1 1) ∧
  bayer (Some one_pixel) (Some loud) = Ok (mkImageData [255; 0; 128; 255]%Z 1 1) ∧
  ordered (Some one_pixel) (Some loud) = Ok (mkImageData [255; 0; 128; 255]%Z 1 1).
Proof.
  split_and!.
  - intros r g b. reflexivity.
  - vm_compute. reflexivity.
  - vm_compute. reflexivity.
  - vm_compute. reflexivity.
Qed.

(** C3, amended: a transform aborts when the resolver's answer is null or
    has fewer than three entries. In [bayer] and [ordered] this is at any
    pixel of the image, for the adjusted channels of that pixel; in
    [floydSteinberg] at any pixel of the scan, for the working values that
    the pixels before it have left. The call then throws and returns no
    buffer. An answer of three entries or more is accepted, whatever it
    holds: when every answer of the pass is one, the transform returns a
    buffer, each pixel of which holds the alpha of the image and the first
    three entries of the answer for that pixel as the array stores them:
    a byte, the value rounded to the nearest integer and clamped to
    [0, 255]. The entries past the third change nothing: the resolver that
    cuts them off gives the same result. *)
Theorem transforms_abort_on_rejected_color (img : ImageData) (f : resolver) :
  (forall x y, x < img.(width) -> y < img.(height) ->
     invalid_color (chosen 8 (normalize 64 bayerMatrix) f img.(data) img.(width) (x, y)) = true ->
     bayer (Some img) (Some f)
       = Throw "Failed to apply Bayer dithering: Invalid color returned from palette") ∧
  (forall x y, x < img.(width) -> y < img.(height) ->
     invalid_color (chosen 4 (normalize 16 orderedMatrix) f img.(data) img.(width) (x, y)) = true ->
     ordered (Some img) (Some f)
       = Throw "Failed to apply Ordered dithering: Invalid color returned from palette") ∧
  (forall visited x y rest working output,
     row_major img.(width) img.(height) = visited ++ (x, y) :: rest ->
     run (fs_pixel f img.(width) img.(height)) visited (img.(data), img.(data))
       = Ok (working, output) ->
     invalid_color (f (read working (pixel_index img.(width) x y))
                      (read working (pixel_index img.(width) x y + 1))
                      (read working (pixel_index img.(width) x y + 2))) = true ->
     floydSteinberg (Some img) (Some f)
       = Throw "Failed to apply Floyd-Steinberg dithering: Invalid color returned from palette") ∧
  (valid_image img -> 0 < img.(width) -> 0 < img.(height) ->
   (forall x y, x < img.(width) -> y < img.(height) ->
      invalid_color (chosen 8 (normalize 64 bayerMatrix) f img.(data) img.(width) (x, y))
        = false) ->
   exists out, bayer (Some img) (Some f) = Ok out ∧
     forall x y, x < img.(width) -> y < img.(height) ->
       byte_at out x y 3 = byte_at img x y 3 ∧
       exists c, chosen 8 (normalize 64 bayerMatrix) f img.(data) img.(width) (x, y) = Some c ∧
         forall k, k < 3 -> byte_at out x y k = Some (Js.toUint8Clamp (chan c k))) ∧
  (valid_image img -> 0 < img.(width) -> 0 < img.(height) ->
   (forall x y, x < img.(width) -> y < img.(height) ->
      invalid_color (chosen 4 (normalize 16 orderedMatrix) f img.(data) img.(width) (x, y))
        = false) ->
   exists out, ordered (Some img) (Some f) = Ok out ∧
     forall x y, x < img.(width) -> y < img.(height) ->
       byte_at out x y 3 = byte_at img x y 3 ∧
       exists c, chosen 4 (normalize 16 orderedMatrix) f img.(data) img.(width) (x, y) = Some c ∧
         forall k, k < 3 -> byte_at out x y k = Some (Js.toUint8Clamp (chan c k))) ∧
  (valid_image img -> 0 < img.(width) -> 0 < img.(height) ->
   (forall visited x y rest working output,
      row_major img.(width) img.(height) = visited ++ (x, y) :: rest ->
      run (fs_pixel f img.(width) img.(height)) visited (img.(data), img.(data))
        = Ok (working, output) ->
      invalid_color (f (read working (pixel_index img.(width) x y))
                       (read working (pixel_index img.(width) x y + 1))
                       (read working (pixel_index img.(width) x y + 2))) = false) ->
   exists out, floydSteinberg (Some img) (Some f) = Ok out ∧
     forall x y, x < img.(width) -> y < img.(height) ->
       byte_at out x y 3 = byte_at img x y 3 ∧
       exists r g b c, f (int r) (int g) (int b) = Some c ∧ 3 <= length c ∧
         forall k, k < 3 -> byte_at out x y k = Some (Js.toUint8Clamp (chan c k))) ∧
  (floydSteinberg (Some img) (Some (first_three f)) = floydSteinberg (Some img) (Some f) ∧
   bayer (Some img) (Some (first_three f)) = bayer (Some img) (Some f) ∧
   ordered (Some img) (Some (first_three f)) = ordered (Some img) (Some f)) ∧
  (forall v, is_byte (Js.toUint8Clamp v)) ∧
  (forall v q, Js.to_Q v = Some q ->
     (q <= 0 -> Js.toUint8Clamp v = 0%Z)%Q ∧
     (255 <= q -> Js.toUint8Clamp v = 255%Z)%Q ∧
     (0 <= q -> q <= 255 ->
        inject_Z (Js.toUint8Clamp v) - (1 # 2) <= q ∧
        q <= inject_Z (Js.toUint8Clamp v) + (1 # 2))%Q).
Proof.
  split_and!.
  - intros x y Hx Hy Hbad. rewrite bayer_row_major. unfold bayer_visiting.
    by rewrite (threshold_dither_rejects _ _ _ _ _ _ x y).
  - intros x y Hx Hy Hbad. rewrite ordered_row_major. unfold ordered_visiting.
    by rewrite (threshold_dither_rejects _ _ _ _ _ _ x y).
  - intros visited x y rest working output Hscan Hrun Hbad.
    rewrite floydSteinberg_run, Hscan, run_app, Hrun. cbn [mbind result_bind run fst snd].
    rewrite fs_pixel_diffuse. cbv zeta.
    apply accepted_invalid in Hbad. by rewrite Hbad.
  - intros Hv _ _ Hall. rewrite bayer_row_major. unfold bayer_visiting.
    destruct (threshold_dither_outcome "Failed to apply Bayer dithering: " 8 64 bayerMatrix img f)
      as [(out & Hout & _) | [_ (x & y & Hx & Hy & Hbad)]];
      [| by rewrite Hall in Hbad].
    exists out. split; [done |]. intros x y Hx Hy.
    split; [by eapply threshold_dither_alpha |].
    destruct (threshold_dither_pixel _ _ _ _ _ _ _ x y (proj1 Hv) Hx Hy Hout)
      as (_ & c & Hc & _ & Hk).
    exists c. split; [done |]. intros k Hk3. rewrite Hk by lia. by rewrite decide_False by lia.
  - intros Hv _ _ Hall. rewrite ordered_row_major. unfold ordered_visiting.
    destruct (threshold_dither_outcome "Failed to apply Ordered dithering: " 4 16 orderedMatrix
                img f) as [(out & Hout & _) | [_ (x & y & Hx & Hy & Hbad)]];
      [| by rewrite Hall in Hbad].
    exists out. split; [done |]. intros x y Hx Hy.
    split; [by eapply threshold_dither_alpha |].
    destruct (threshold_dither_pixel _ _ _ _ _ _ _ x y (proj1 Hv) Hx Hy Hout)
      as (_ & c & Hc & _ & Hk).
    exists c. split; [done |]. intros k Hk3. rewrite Hk by lia. by rewrite decide_False by lia.
  - intros Hv _ _ Hall.
    destruct (floydSteinberg_scan_accepts img f Hall) as [out Hout].
    exists out. split; [done |]. intros x y Hx Hy.
    split; [by apply (floydSteinberg_related img f out Hv Hout) |].
    destruct (floydSteinberg_answers img f out x y Hv Hx Hy Hout)
      as (r & g & b & c & _ & _ & _ & Hf & Hc & Hshow).
    by exists r, g, b, c.
  - apply (transforms_first_three img f).
  - apply (transforms_first_three img f).
  - apply (transforms_first_three img f).
  - apply toUint8Clamp_byte.
  - apply toUint8Clamp_nearest.
Qed.

Lemma transforms_abort_on_rejected_color_witness :
  (1 < gray2x2.(width) ∧ 0 < gray2x2.(height) ∧
   invalid_color (chosen 8 (normalize 64 bayerMatrix) shy gray2x2.(data) gray2x2.(width) (1, 0))
     = true ∧
   bayer (Some gray2x2) (Some shy)
     = Throw "Failed to apply Bayer dithering: Invalid color returned from palette") ∧
  (0 < gray2x2.(width) ∧ 1 < gray2x2.(height) ∧
   invalid_color (chosen 4 (normalize 16 orderedMatrix) shy gray2x2.(data) gray2x2.(width) (0, 1))
     = true ∧
   ordered (Some gray2x2) (Some shy)
     = Throw "Failed to apply Ordered dithering: Invalid color returned from palette") ∧
  (row_major gray2x2.(width) gray2x2.(height) = [(0, 0)] ++ (1, 0) :: [(0, 1); (1, 1)] ∧
   run (fs_pixel shy gray2x2.(width) gray2x2.(height)) [(0, 0)]
       (gray2x2.(data), gray2x2.(data))
     = Ok ([128; 128; 128; 255; 184; 184; 184; 255;
            168; 168; 168; 255; 136; 136; 136; 255]%Z,
           [0; 0; 0; 255; 128; 128; 128; 255;
            128; 128; 128; 255; 128; 128; 128; 255]%Z) ∧
   floydSteinberg (Some gray2x2) (Some shy)
     = Throw "Failed to apply Floyd-Steinberg dithering: Invalid color returned from palette") ∧
  (valid_image noise3x2 ∧ 0 < noise3x2.(width) ∧ 0 < noise3x2.(height) ∧
   (forall x y, x < noise3x2.(width) -> y < noise3x2.(height) ->
      invalid_color
        (chosen 8 (normalize 64 bayerMatrix) loud noise3x2.(data) noise3x2.(width) (x, y))
        = false) ∧
   exists out, bayer (Some noise3x2) (Some loud) = Ok out ∧
     forall x y, x < noise3x2.(width) -> y < noise3x2.(height) ->
       byte_at out x y 3 = byte_at noise3x2 x y 3 ∧
       exists c,
         chosen 8 (normalize 64 bayerMatrix) loud noise3x2.(data) noise3x2.(width) (x, y)
           = Some c ∧
         forall k, k < 3 -> byte_at out x y k = Some (Js.toUint8Clamp (chan c k))) ∧
  (valid_image noise3x2 ∧ 0 < noise3x2.(width) ∧ 0 < noise3x2.(height) ∧
   (forall x y, x < noise3x2.(width) -> y < noise3x2.(height) ->
      invalid_color
        (chosen 4 (normalize 16 orderedMatrix) loud noise3x2.(data) noise3x2.(width) (x, y))
        = false) ∧
   exists out, ordered (Some noise3x2) (Some loud) = Ok out ∧
     forall x y, x < noise3x2.(width) -> y < noise3x2.(height) ->
       byte_at out x y 3 = byte_at noise3x2 x y 3 ∧
       exists c,
         chosen 4 (normalize 16 orderedMatrix) loud noise3x2.(data) noise3x2.(width) (x, y)
           = Some c ∧
         forall k, k < 3 -> byte_at out x y k = Some (Js.toUint8Clamp (chan c k))) ∧
  (valid_image noise3x2 ∧ 0 < noise3x2.(width) ∧ 0 < noise3x2.(height) ∧
   (forall visited x y rest working output,
      row_major noise3x2.(width) noise3x2.(height) = visited ++ (x, y) :: rest ->
      run (fs_pixel loud noise3x2.(width) noise3x2.(height)) visited
          (noise3x2.(data), noise3x2.(data)) = Ok (working, output) ->
      invalid_color (loud (read working (pixel_index noise3x2.(width) x y))
                          (read working (pixel_index noise3x2.(width) x y + 1))
                          (read working (pixel_index noise3x2.(width) x y + 2))) = false) ∧
   exists out, floydSteinberg (Some noise3x2) (Some loud) = Ok out ∧
     forall x y, x < noise3x2.(width) -> y < noise3x2.(height) ->
       byte_at out x y 3 = byte_at noise3x2 x y 3 ∧
       exists r g b c, loud (int r) (int g) (int b) = Some c ∧ 3 <= length c ∧
         forall k, k < 3 -> byte_at out x y k = Some (Js.toUint8Clamp (chan c k))).
Proof.
  assert (Hv : valid_image noise3x2) by (apply valid_imageb_correct; vm_compute; reflexivity).
  assert (Hw : 0 < noise3x2.(width)) by (cbn; lia).
  assert (Hh : 0 < noise3x2.(height)) by (cbn; lia).
  assert (Hbayer : forall x y, x < noise3x2.(width) -> y < noise3x2.(height) ->
            invalid_color
              (chosen 8 (normalize 64 bayerMatrix) loud noise3x2.(data) noise3x2.(width) (x, y))
              = false) by (intros; reflexivity).
  assert (Hordered : forall x y, x < noise3x2.(width) -> y < noise3x2.(height) ->
            invalid_color
              (chosen 4 (normalize 16 orderedMatrix) loud noise3x2.(data) noise3x2.(width)
                 (x, y)) = false) by (intros; reflexivity).
  assert (Hscan : forall visited x y rest working output,
            row_major noise3x2.(width) noise3x2.(height) = visited ++ (x, y) :: rest ->
            run (fs_pixel loud noise3x2.(width) noise3x2.(height)) visited
                (noise3x2.(data), noise3x2.(data)) = Ok (working, output) ->
            invalid_color (loud (read working (pixel_index noise3x2.(width) x y))
                                (read working (pixel_index noise3x2.(width) x y + 1))
                                (read working (pixel_index noise3x2.(width) x y + 2))) = false)
    by (intros; reflexivity).
  pose proof (transforms_abort_on_rejected_color gray2x2 shy) as (Ab & Ao & Af & _).
  pose proof (transforms_abort_on_rejected_color noise3x2 loud)
    as (_ & _ & _ & Kb & Ko & Kf & _).
  split_and!.
  - cbn; lia.
  - cbn; lia.
  - vm_compute. reflexivity.
  - exact (Ab 1 0 ltac:(cbn; lia) ltac:(cbn; lia) ltac:(vm_compute; reflexivity)).
  - cbn; lia.
  - cbn; lia.
  - vm_compute. reflexivity.
  - exact (Ao 0 1 ltac:(cbn; lia) ltac:(cbn; lia) ltac:(vm_compute; reflexivity)).
  - reflexivity.
  - vm_compute. reflexivity.
  - exact (Af [(0, 0)] 1 0 [(0, 1); (1, 1)] _ _
             ltac:(reflexivity) ltac:(vm_compute; reflexivity) ltac:(vm_compute; reflexivity)).
  - exact Hv.
  - exact Hw.
  - exact Hh.
  - exact Hbayer.
  - exact (Kb Hv Hw Hh Hbayer).
  - exact Hv.
  - exact Hw.
  - exact Hh.
  - exact Hordered.
  - exact (Ko Hv Hw Hh Hordered).
  - exact Hv.
  - exact Hw.
  - exact Hh.
  - exact Hscan.
  - exact (Kf Hv Hw Hh Hscan).
Defined.

(** C4 as stated fails. An entry with four channels is not skipped: it is
    the answer here although a three-channel entry is also present. And a
    palette all of whose entries are unusable does not give black: the
    answer is its first entry, of two channels, or null. *)
Lemma findClosestColor_not_skipped_not_black :
  findClosestColor (int 10) (int 10) (int 10)
      (Some [Some [int 200; int 200; int 200]; Some [int 10; int 10; int 10; int 255]])
    = Some [int 10; int 10; int 10; int 255] ∧
  findClosestColor (int 10) (int 10) (int 10) (Some [Some [int 1; int 2]])
    = Some [int 1; int 2] ∧
  findClosestColor (int 10) (int 10) (int 10) (Some [Some [int 1; int 2]]) <> Some black ∧
  findClosestColor (int 10) (int 10) (int 10) (Some [None; Some [int 1]]) = None.
Proof.
  split_and!; try (vm_compute; reflexivity).
  vm_compute. discriminate.
Qed.

(** C4, amended: in [findClosestColor], on a palette with a usable entry
    (three channels or more) at a distance below Infinity, the entries that
    are null or have fewer than three channels are skipped without failing:
    the answer is the one the palette gives without them, and it is a usable
    entry of the palette. *)
Theorem findClosestColor_skips_short_entries (r g b : Js.number) (palette : list jsval) :
  (exists c, Some c ∈ palette ∧ 3 <= length c ∧
     (distance r g b c <? Js.Infinity)%js = true) ->
  findClosestColor r g b (Some palette) =
    findClosestColor r g b (Some (filter usable palette)) ∧
  exists c, findClosestColor r g b (Some palette) = Some c ∧ 3 <= length c ∧
    Some c ∈ palette.
Proof.
  intros (c0 & Hel & Hc0 & Hfin).
  assert (Hel' : Some c0 ∈ filter usable palette).
  { apply list_elem_of_filter. split; [| done].
    unfold usable, invalid_color. by apply Nat.ltb_ge. }
  destruct palette as [| first rest]; [by apply elem_of_nil in Hel |].
  destruct (filter usable (first :: rest)) as [| first' rest'] eqn:Hfilter;
    [by apply elem_of_nil in Hel' |].
  unfold findClosestColor.
  rewrite (fold_closest_filter r g b (first :: rest)), Hfilter.
  pose proof (fold_closest_reaches r g b (first' :: rest') first c0 Hel' Hc0 Hfin) as Hreach.
  assert (Hsame : fold_left (closest_step r g b) (first' :: rest') (Js.Infinity, first) =
                  fold_left (closest_step r g b) (first' :: rest') (Js.Infinity, first')).
  { destruct (fold_closest_initial r g b (first' :: rest') Js.Infinity first first')
      as [[Hkeep _] | Heq]; [| done].
    rewrite Hkeep in Hreach. done. }
  split; [by rewrite Hsame |].
  destruct (fold_closest_candidate r g b (first' :: rest') Js.Infinity first)
    as [Hkeep | (c & Hfold & Hc & Hin)].
  - rewrite Hkeep in Hreach. done.
  - exists c. rewrite Hfold. split_and!; [done | done |].
    rewrite <- Hfilter in Hin. by apply list_elem_of_filter in Hin as [_ Hin].
Qed.

Lemma findClosestColor_skips_short_entries_witness :
  (exists c, Some c ∈ [None; Some [int 1; int 2]; Some white; Some black] ∧ 3 <= length c ∧
     (distance (int 10) (int 10) (int 10) c <? Js.Infinity)%js = true) ∧
  findClosestColor (int 10) (int 10) (int 10)
      (Some [None; Some [int 1; int 2]; Some white; Some black]) =
    findClosestColor (int 10) (int 10) (int 10)
      (Some (filter usable [None; Some [int 1; int 2]; Some white; Some black])) ∧
  exists c,
    findClosestColor (int 10) (int 10) (int 10)
      (Some [None; Some [int 1; int 2]; Some white; Some black]) = Some c ∧
    3 <= length c ∧ Some c ∈ [None; Some [int 1; int 2]; Some white; Some black].
Proof.
  assert (Hex : exists c, Some c ∈ [None; Some [int 1; int 2]; Some white; Some black] ∧
            3 <= length c ∧ (distance (int 10) (int 10) (int 10) c <? Js.Infinity)%js = true).
  { exists white. split_and!; [| cbn; lia | vm_compute; reflexivity].
    apply list_elem_of_In. cbn. tauto. }
  split; [exact Hex |].
  exact (findClosestColor_skips_short_entries (int 10) (int 10) (int 10) _ Hex).
Defined.

(** C5: for [bayer] (8x8 matrix of the values 0..63) and [ordered] (4x4
    matrix of the values 0..15), the output pixel at [(x, y)] is the
    resolver's answer on the three source channels each moved by
    [((M[y mod N][x mod N] + 0.5) / N^2 - 0.5) * 255] and clamped to
    [0, 255]; the binary64 computation of the adjusted channels is exact. *)
Theorem ordered_variants_pixel (img : ImageData) (f : resolver) (x y : nat) :
  valid_image img -> x < img.(width) -> y < img.(height) ->
  matrix_ok 8 bayerMatrix ∧ matrix_ok 4 orderedMatrix ∧
  (forall out, bayer (Some img) (Some f) = Ok out ->
     threshold_pixel_spec 8 64 bayerMatrix img f out x y) ∧
  (forall out, ordered (Some img) (Some f) = Ok out ->
     threshold_pixel_spec 4 16 orderedMatrix img f out x y).
Proof.
  intros Hvalid Hx Hy. split_and!.
  - split; [done |]. repeat constructor; lia.
  - split; [done |]. repeat constructor; lia.
  - intros out. rewrite bayer_row_major.
    apply threshold_dither_spec; [apply adjust_check_bayer | lia | done ..].
  - intros out. rewrite ordered_row_major.
    apply threshold_dither_spec; [apply adjust_check_ordered | lia | done ..].
Qed.

Lemma ordered_variants_pixel_witness :
  valid_image gray2x2 ∧ 1 < gray2x2.(width) ∧ 0 < gray2x2.(height) ∧
  bayer (Some gray2x2) (Some mono128) = Ok gray2x2_dithered ∧
  threshold_pixel_spec 8 64 bayerMatrix gray2x2 mono128 gray2x2_dithered 1 0 ∧
  ordered (Some gray2x2) (Some mono128) = Ok gray2x2_dithered ∧
  threshold_pixel_spec 4 16 orderedMatrix gray2x2 mono128 gray2x2_dithered 1 0.
Proof.
  assert (Hvalid : valid_image gray2x2) by (apply valid_imageb_correct; vm_compute; reflexivity).
  assert (Hx : 1 < gray2x2.(width)) by (cbn; lia).
  assert (Hy : 0 < gray2x2.(height)) by (cbn; lia).
  assert (Hbayer : bayer (Some gray2x2) (Some mono128) = Ok gray2x2_dithered)
    by (vm_compute; reflexivity).
  assert (Hordered : ordered (Some gray2x2) (Some mono128) = Ok gray2x2_dithered)
    by (vm_compute; reflexivity).
  split_and!; [exact Hvalid | exact Hx | exact Hy | exact Hbayer | | exact Hordered |].
  - exact (proj1 (proj2 (proj2 (ordered_variants_pixel gray2x2 mono128 1 0 Hvalid Hx Hy)))
             gray2x2_dithered Hbayer).
  - exact (proj2 (proj2 (proj2 (ordered_variants_pixel gray2x2 mono128 1 0 Hvalid Hx Hy)))
             gray2x2_dithered Hordered).
Defined.

(** C6: in [bayer] and [ordered] an output pixel depends on its own source
    pixel and coordinates only. Two images of the same dimensions that agree
    on the four bytes of pixel [(x, y)] give outputs that agree on that
    pixel; and visiting the pixels in any permutation of the row-major order
    gives the same result, byte for byte. *)
Theorem ordered_variants_local :
  (forall img1 img2 f x y,
     img1.(width) = img2.(width) -> img1.(height) = img2.(height) ->
     length img1.(data) = img1.(width) * img1.(height) * 4 ->
     length img2.(data) = img2.(width) * img2.(height) * 4 ->
     x < img1.(width) -> y < img1.(height) ->
     (forall k, k < 4 -> byte_at img1 x y k = byte_at img2 x y k) ->
     (forall out1 out2,
        bayer (Some img1) (Some f) = Ok out1 -> bayer (Some img2) (Some f) = Ok out2 ->
        forall k, k < 4 -> byte_at out1 x y k = byte_at out2 x y k) ∧
     (forall out1 out2,
        ordered (Some img1) (Some f) = Ok out1 -> ordered (Some img2) (Some f) = Ok out2 ->
        forall k, k < 4 -> byte_at out1 x y k = byte_at out2 x y k)) ∧
  (forall img f order,
     order ≡ₚ row_major img.(width) img.(height) ->
     bayer_visiting order img f = bayer (Some img) (Some f) ∧
     ordered_visiting order img f = ordered (Some img) (Some f)).
Proof.
  split.
  - intros img1 img2 f x y Hw Hh Hl1 Hl2 Hx Hy Hsame. split.
    + intros out1 out2. rewrite !bayer_row_major.
      by apply threshold_dither_local.
    + intros out1 out2. rewrite !ordered_row_major.
      by apply threshold_dither_local.
  - intros img f order Hperm.
    assert (Hin : Forall (fun p => p.1 < img.(width)) order).
    { rewrite Hperm. eapply Forall_impl; [apply row_major_in_bounds |]. by intros p [? ?]. }
    rewrite bayer_row_major, ordered_row_major.
    split; by apply threshold_dither_perm.
Qed.

Lemma ordered_variants_local_witness :
  (gray2x2.(width) = gray2x2_marked.(width) ∧ gray2x2.(height) = gray2x2_marked.(height) ∧
   length gray2x2.(data) = gray2x2.(width) * gray2x2.(height) * 4 ∧
   length gray2x2_marked.(data) = gray2x2_marked.(width) * gray2x2_marked.(height) * 4 ∧
   1 < gray2x2.(width) ∧ 0 < gray2x2.(height) ∧
   (forall k, k < 4 -> byte_at gray2x2 1 0 k = byte_at gray2x2_marked 1 0 k) ∧
   bayer (Some gray2x2) (Some mono128) = Ok gray2x2_dithered ∧
   bayer (Some gray2x2_marked) (Some mono128) = Ok gray2x2_marked_dithered ∧
   ordered (Some gray2x2) (Some mono128) = Ok gray2x2_dithered ∧
   ordered (Some gray2x2_marked) (Some mono128) = Ok gray2x2_marked_dithered ∧
   (forall k, k < 4 ->
      byte_at gray2x2_dithered 1 0 k = byte_at gray2x2_marked_dithered 1 0 k)) ∧
  (rev (row_major 2 2) ≡ₚ row_major gray2x2.(width) gray2x2.(height) ∧
   bayer_visiting (rev (row_major 2 2)) gray2x2 mono128
     = bayer (Some gray2x2) (Some mono128) ∧
   ordered_visiting (rev (row_major 2 2)) gray2x2 mono128
     = ordered (Some gray2x2) (Some mono128)).
Proof.
  assert (Hsame : forall k, k < 4 -> byte_at gray2x2 1 0 k = byte_at gray2x2_marked 1 0 k).
  { intros k Hk. destruct k as [|[|[|[|k]]]]; [reflexivity .. | lia]. }
  assert (Hperm : rev (row_major 2 2) ≡ₚ row_major gray2x2.(width) gray2x2.(height)).
  { symmetry. apply Permutation_rev. }
  assert (Hb1 : bayer (Some gray2x2) (Some mono128) = Ok gray2x2_dithered)
    by (vm_compute; reflexivity).
  assert (Hb2 : bayer (Some gray2x2_marked) (Some mono128) = Ok gray2x2_marked_dithered)
    by (vm_compute; reflexivity).
  assert (Ho1 : ordered (Some gray2x2) (Some mono128) = Ok gray2x2_dithered)
    by (vm_compute; reflexivity).
  assert (Ho2 : ordered (Some gray2x2_marked) (Some mono128) = Ok gray2x2_marked_dithered)
    by (vm_compute; reflexivity).
  split.
  - split_and!; [reflexivity | reflexivity | reflexivity | reflexivity | cbn; lia | cbn; lia
                | exact Hsame | exact Hb1 | exact Hb2 | exact Ho1 | exact Ho2 |].
    exact (proj1 (proj1 ordered_variants_local gray2x2 gray2x2_marked mono128 1 0
             eq_refl eq_refl eq_refl eq_refl ltac:(cbn; lia) ltac:(cbn; lia) Hsame)
             gray2x2_dithered gray2x2_marked_dithered Hb1 Hb2).
  - split; [exact Hperm |].
    exact (proj2 ordered_variants_local gray2x2 mono128 (rev (row_major 2 2)) Hperm).
Defined.

(** C7 as stated fails inside the range of colours, on a palette that holds
    an entry of four channels: the entry is not passed over. At
    (250, 250, 250) it is as near as white and comes before it, and it is
    the answer, although white is the nearest of the two well-formed
    colours of the palette. *)
Lemma findClosestColor_returns_four_channels :
  (forall e, e ∈ mixed_palette -> spec_well_formed e = true ->
     e = Some black ∨ e = Some white) ∧
  spec_well_formed (Some white) = true ∧
  (distance (int 250) (int 250) (int 250) white
     <? distance (int 250) (int 250) (int 250) black)%js = true ∧
  findClosestColor (int 250) (int 250) (int 250) (Some mixed_palette)
    = Some [int 255; int 255; int 255; int 128] ∧
  spec_well_formed (Some [int 255; int 255; int 255; int 128]) = false ∧
  findClosestColor (int 250) (int 250) (int 250) (Some mixed_palette) <> Some white.
Proof.
  split_and!.
  - intros e Hin Hwf. unfold mixed_palette in Hin.
    apply elem_of_cons in Hin as [-> | Hin]; [vm_compute in Hwf; discriminate |].
    apply elem_of_cons in Hin as [-> | Hin]; [vm_compute in Hwf; discriminate |].
    apply elem_of_cons in Hin as [-> | Hin]; [by left |].
    apply elem_of_cons in Hin as [-> | Hin]; [vm_compute in Hwf; discriminate |].
    apply list_elem_of_singleton in Hin as ->. by right.
  - vm_compute. reflexivity.
  - vm_compute. reflexivity.
  - vm_compute. reflexivity.
  - vm_compute. reflexivity.
  - vm_compute. discriminate.
Qed.

(** C7, amended: for r, g, b in the range of channel values and a palette
    whose usable entries (three channels or more) hold channel values, one
    such entry at least, [findClosestColor] returns a usable entry of least
    squared distance dr^2 + dg^2 + db^2, and the first such: every distance
    is a finite number, no usable entry is nearer and every usable entry
    before it is strictly farther. *)
Theorem findClosestColor_first_nearest (r g b : Js.number) (palette : list jsval) :
  channel_value r -> channel_value g -> channel_value b ->
  channel_palette palette ->
  (exists c, Some c ∈ palette ∧ 3 <= length c) ->
  exists i c,
    palette !! i = Some (Some c) ∧ 3 <= length c ∧
    findClosestColor r g b (Some palette) = Some c ∧
    (forall j c', palette !! j = Some (Some c') -> 3 <= length c' ->
       Js.is_finite (distance r g b c') = true ∧
       (distance r g b c' <? distance r g b c)%js = false) ∧
    (forall j c', j < i -> palette !! j = Some (Some c') -> 3 <= length c' ->
       (distance r g b c <? distance r g b c')%js = true).
Proof.
  intros Hr Hg Hb Hpal (c0 & Hin0 & Hc0).
  assert (Hfin : forall j c, palette !! j = Some (Some c) -> 3 <= length c ->
            Js.is_finite (distance r g b c) = true ∧
            (distance r g b c <? Js.Infinity)%js = true).
  { intros j c Hj Hc.
    assert (Hin : Some c ∈ palette) by by eapply list_elem_of_lookup_2.
    apply distance_channel_values; try done; apply (Hpal c Hin Hc); lia. }
  assert (Hnum : numeric r g b palette).
  { intros j c Hj Hc. destruct (Hfin j c Hj Hc) as [H _]. by destruct (distance r g b c). }
  destruct palette as [| first rest]; [by apply elem_of_nil in Hin0 |].
  unfold findClosestColor.
  pose proof (scan_fold r g b (first :: rest) [] (Js.Infinity, first) Hnum) as Hscan.
  cbn [app] in Hscan.
  destruct Hscan as [[_ Hnone] | (i & c & (Hi & Hc & Hmin & Hfirst) & Hst)].
  - left. split; [done |]. intros j c Hj. by rewrite lookup_nil in Hj.
  - apply list_elem_of_lookup_1 in Hin0 as [j0 Hj0].
    destruct (Hfin j0 c0 Hj0 Hc0) as [_ Hlt]. by rewrite (Hnone j0 c0 Hj0 Hc0) in Hlt.
  - exists i, c. rewrite Hst. split_and!; [done | done | done | | done].
    intros j c' Hj Hc'. split; [by apply (Hfin j c') | by apply (Hmin j c')].
Qed.

Lemma findClosestColor_first_nearest_witness :
  channel_value (Js.decimal 2505 10) ∧ channel_value (int 250) ∧
  channel_palette mixed_palette ∧
  (exists c, Some c ∈ mixed_palette ∧ 3 <= length c) ∧
  exists i c,
    mixed_palette !! i = Some (Some c) ∧ 3 <= length c ∧
    findClosestColor (Js.decimal 2505 10) (int 250) (int 250) (Some mixed_palette) = Some c ∧
    (forall j c', mixed_palette !! j = Some (Some c') -> 3 <= length c' ->
       Js.is_finite (distance (Js.decimal 2505 10) (int 250) (int 250) c') = true ∧
       (distance (Js.decimal 2505 10) (int 250) (int 250) c'
          <? distance (Js.decimal 2505 10) (int 250) (int 250) c)%js = false) ∧
    (forall j c', j < i -> mixed_palette !! j = Some (Some c') -> 3 <= length c' ->
       (distance (Js.decimal 2505 10) (int 250) (int 250) c
          <? distance (Js.decimal 2505 10) (int 250) (int 250) c')%js = true).
Proof.
  assert (Hr : channel_value (Js.decimal 2505 10)) by (split; vm_compute; reflexivity).
  assert (Hg : channel_value (int 250)) by (split; vm_compute; reflexivity).
  assert (Hpal : channel_palette mixed_palette).
  { intros c Hin Hc k Hk.
    repeat (apply elem_of_cons in Hin as [Heq | Hin]; [try discriminate Heq |]);
      [.. | by apply elem_of_nil in Hin]; injection Heq as ->;
      try (cbn in Hc; lia);
      destruct k as [| [| [| k]]]; try lia; split; vm_compute; reflexivity. }
  assert (Hex : exists c, Some c ∈ mixed_palette ∧ 3 <= length c).
  { exists black. split; [apply list_elem_of_In; cbn; tauto | cbn; lia]. }
  split; [exact Hr |]. split; [exact Hg |]. split; [exact Hpal |]. split; [exact Hex |].
  exact (findClosestColor_first_nearest (Js.decimal 2505 10) (int 250) (int 250) mixed_palette
           Hr Hg Hg Hpal Hex).
Defined.

(** The two colours the specification looks up in the CGA palette. *)
Lemma findClosestColor_cga :
  findClosestColor (int 10) (int 10) (int 10) (Some cga) = Some black ∧
  findClosestColor (int 90) (int 250) (int 250) (Some cga)
    = Some [int 85; int 255; int 255].
Proof. split; vm_compute; reflexivity. Qed.

(** C8: [findClosestMonochromeColor] is a total function that computes the
    luminance 0.299 r + 0.587 g + 0.114 b, replaces a threshold that is not
    a number by 128, and answers black when the luminance is below the
    threshold and white otherwise; its answer is always black or white, it
    is white at (200,200,200,128) and black at (50,50,50,128). *)
Theorem findClosestMonochromeColor_spec (r g b threshold : Js.number) :
  findClosestMonochromeColor r g b threshold = Some (resolveMonochrome_spec r g b threshold) ∧
  (findClosestMonochromeColor r g b threshold = Some black ∨
   findClosestMonochromeColor r g b threshold = Some white) ∧
  findClosestMonochromeColor (int 200) (int 200) (int 200) (int 128) = Some white ∧
  findClosestMonochromeColor (int 50) (int 50) (int 50) (int 128) = Some black.
Proof.
  split_and!.
  - unfold findClosestMonochromeColor, resolveMonochrome_spec, luminance. cbv zeta.
    by destruct (_ <? _)%js.
  - unfold findClosestMonochromeColor. cbv zeta.
    destruct (_ <? _)%js; [by left | by right].
  - vm_compute. reflexivity.
  - vm_compute. reflexivity.
Qed.

(** C9: each of the three transforms copies the alpha channel: on a valid
    image, the alpha byte of every output pixel is the alpha byte of the
    same pixel of the source. *)
Theorem alpha_preserved (img : ImageData) (f : resolver) (x y : nat) :
  valid_image img -> x < img.(width) -> y < img.(height) ->
  (forall out, floydSteinberg (Some img) (Some f) = Ok out ->
     byte_at out x y 3 = byte_at img x y 3) ∧
  (forall out, bayer (Some img) (Some f) = Ok out ->
     byte_at out x y 3 = byte_at img x y 3) ∧
  (forall out, ordered (Some img) (Some f) = Ok out ->
     byte_at out x y 3 = byte_at img x y 3).
Proof.
  intros Hvalid Hx Hy. split_and!.
  - intros out Hout.
    by apply (floydSteinberg_related img f out Hvalid Hout).
  - intros out. rewrite bayer_row_major. by apply threshold_dither_alpha.
  - intros out. rewrite ordered_row_major. by apply threshold_dither_alpha.
Qed.

Lemma alpha_preserved_witness :
  valid_image translucent2x2 ∧ 1 < translucent2x2.(width) ∧ 1 < translucent2x2.(height) ∧
  floydSteinberg (Some translucent2x2) (Some mono128) = Ok translucent2x2_diffused ∧
  byte_at translucent2x2_diffused 1 1 3 = byte_at translucent2x2 1 1 3 ∧
  bayer (Some translucent2x2) (Some mono128) = Ok translucent2x2_diffused ∧
  ordered (Some translucent2x2) (Some mono128) = Ok translucent2x2_ordered ∧
  byte_at translucent2x2_ordered 1 1 3 = byte_at translucent2x2 1 1 3.
Proof.
  assert (Hvalid : valid_image translucent2x2)
    by (apply valid_imageb_correct; vm_compute; reflexivity).
  assert (Hx : 1 < translucent2x2.(width)) by (cbn; lia).
  assert (Hy : 1 < translucent2x2.(height)) by (cbn; lia).
  assert (Hfs : floydSteinberg (Some translucent2x2) (Some mono128)
                = Ok translucent2x2_diffused) by (vm_compute; reflexivity).
  assert (Hbayer : bayer (Some translucent2x2) (Some mono128) = Ok translucent2x2_diffused)
    by (vm_compute; reflexivity).
  assert (Hordered : ordered (Some translucent2x2) (Some mono128)
                     = Ok translucent2x2_ordered) by (vm_compute; reflexivity).
  split_and!; [exact Hvalid | exact Hx | exact Hy | exact Hfs | | exact Hbayer
              | exact Hordered |].
  - exact (proj1 (alpha_preserved translucent2x2 mono128 1 1 Hvalid Hx Hy)
             translucent2x2_diffused Hfs).
  - exact (proj2 (proj2 (alpha_preserved translucent2x2 mono128 1 1 Hvalid Hx Hy))
             translucent2x2_ordered Hordered).
Defined.

(** C10: on a valid image (a byte buffer of length width*height*4) and with
    a resolver whose every answer has at least three entries, each of the
    three transforms returns a buffer of the same width and height, of
    length width*height*4, all of whose entries are integers in [0, 255],
    whatever numbers the resolver's answers hold. *)
Theorem output_well_shaped (img : ImageData) (f : resolver) :
  valid_image img -> always_accepted f ->
  well_shaped img (floydSteinberg (Some img) (Some f)) ∧
  well_shaped img (bayer (Some img) (Some f)) ∧
  well_shaped img (ordered (Some img) (Some f)).
Proof.
  intros Hvalid Hacc. split_and!.
  - by apply floydSteinberg_well_shaped.
  - rewrite bayer_row_major. apply threshold_dither_well_shaped; [apply Hvalid | done].
  - rewrite ordered_row_major. apply threshold_dither_well_shaped; [apply Hvalid | done].
Qed.

Lemma output_well_shaped_witness :
  valid_image translucent2x2 ∧ always_accepted loud ∧
  (well_shaped translucent2x2 (floydSteinberg (Some translucent2x2) (Some loud)) ∧
   well_shaped translucent2x2 (bayer (Some translucent2x2) (Some loud)) ∧
   well_shaped translucent2x2 (ordered (Some translucent2x2) (Some loud))).
Proof.
  assert (Hvalid : valid_image translucent2x2)
    by (apply valid_imageb_correct; vm_compute; reflexivity).
  assert (Hacc : always_accepted loud).
  { intros r g b. eexists. split; [reflexivity | cbn; lia]. }
  split; [exact Hvalid |]. split; [exact Hacc |].
  exact (output_well_shaped translucent2x2 loud Hvalid Hacc).
Defined.

(** * Further properties of the code *)

(** ** The palettes *)

(** X1: [webSafe] returns the 216 colours (51 i, 51 j, 51 k), i, j, k from
    0 to 5, each once, the colour of (i, j, k) at index 36 i + 6 j + k; the
    fallback palette of its [catch] is never returned. *)
Theorem webSafe_palette :
  length webSafe = 216 ∧ NoDup webSafe ∧ webSafe <> webSafe_fallback ∧
  forall i j k, i < 6 -> j < 6 -> k < 6 ->
    webSafe !! (36 * i + 6 * j + k)
    = Some (Some [int (51 * Z.of_nat i); int (51 * Z.of_nat j); int (51 * Z.of_nat k)]).
Proof.
  split_and!.
  - by rewrite webSafe_eq.
  - apply (bool_decide_eq_true_1 (NoDup webSafe)). vm_compute. reflexivity.
  - intros H. by apply (f_equal length) in H.
  - intros i j k Hi Hj Hk.
    assert (Hin : forall n, n < 6 -> In n (seq 0 6)) by (intros; apply in_seq; lia).
    pose proof (proj1 (forallb_forall _ _) webSafe_lookup_check i (Hin _ Hi)) as H1.
    pose proof (proj1 (forallb_forall _ _) H1 j (Hin _ Hj)) as H2.
    pose proof (proj1 (forallb_forall _ _) H2 k (Hin _ Hk)) as H3.
    by apply bool_decide_eq_true_1 in H3.
Qed.

(** X2: [findClosestColor] never makes up a colour. Without a palette, or
    with an empty one, it answers black; otherwise its answer is an entry of
    the palette: the first entry, or an entry of three channels or more. *)
Theorem findClosestColor_returns_entry (r g b : Js.number) :
  findClosestColor r g b None = Some black ∧
  findClosestColor r g b (Some []) = Some black ∧
  forall first rest,
    findClosestColor r g b (Some (first :: rest)) ∈ first :: rest ∧
    (findClosestColor r g b (Some (first :: rest)) = first ∨
     usable (findClosestColor r g b (Some (first :: rest)))).
Proof.
  split_and!; [done | done |]. intros first rest.
  split; [apply findClosestColor_elem |].
  unfold findClosestColor.
  destruct (fold_closest_candidate r g b (first :: rest) Js.Infinity first)
    as [-> | (c & -> & Hc & _)]; [by left | right].
  unfold usable, invalid_color. cbn [snd]. by apply Nat.ltb_ge.
Qed.

(** X3: between a pixel of bytes and a palette whose usable entries hold
    integer bytes, the distances are computed without rounding:
    [findClosestColor] returns the first usable entry that minimises the
    integer (r - c0)^2 + (g - c1)^2 + (b - c2)^2. *)
Theorem findClosestColor_bytes (r g b : Z) (palette : list jsval) :
  is_byte r -> is_byte g -> is_byte b -> byte_palette palette ->
  (exists c, Some c ∈ palette ∧ 3 <= length c) ->
  exists i c,
    palette !! i = Some (Some c) ∧ 3 <= length c ∧
    findClosestColor (int r) (int g) (int b) (Some palette) = Some c ∧
    (forall j c', palette !! j = Some (Some c') -> 3 <= length c' ->
       (distanceZ r g b c <= distanceZ r g b c')%Z) ∧
    (forall j c', j < i -> palette !! j = Some (Some c') -> 3 <= length c' ->
       (distanceZ r g b c < distanceZ r g b c')%Z).
Proof. apply findClosestColor_bytes_scan. Qed.

Lemma findClosestColor_bytes_witness :
  is_byte 200 ∧ is_byte 30 ∧ is_byte 180 ∧ byte_palette cga ∧
  (exists c, Some c ∈ cga ∧ 3 <= length c) ∧
  exists i c,
    cga !! i = Some (Some c) ∧ 3 <= length c ∧
    findClosestColor (int 200) (int 30) (int 180) (Some cga) = Some c ∧
    (forall j c', cga !! j = Some (Some c') -> 3 <= length c' ->
       (distanceZ 200 30 180 c <= distanceZ 200 30 180 c')%Z) ∧
    (forall j c', j < i -> cga !! j = Some (Some c') -> 3 <= length c' ->
       (distanceZ 200 30 180 c < distanceZ 200 30 180 c')%Z).
Proof.
  assert (H200 : is_byte 200) by (unfold is_byte; lia).
  assert (H30 : is_byte 30) by (unfold is_byte; lia).
  assert (H180 : is_byte 180) by (unfold is_byte; lia).
  assert (Hex : exists c, Some c ∈ cga ∧ 3 <= length c).
  { exists black. split; [apply list_elem_of_here | cbn; lia]. }
  split; [exact H200 |]. split; [exact H30 |]. split; [exact H180 |].
  split; [exact cga_byte_palette |]. split; [exact Hex |].
  exact (findClosestColor_bytes 200 30 180 cga H200 H30 H180 cga_byte_palette Hex).
Defined.

(** X4: on a pixel of bytes, the nearest colour of the web-safe palette is
    found channel by channel: each channel goes to the nearest multiple of
    51, which is 51 * ((x + 25) / 51). *)
Theorem findClosestColor_webSafe (r g b : Z) :
  is_byte r -> is_byte g -> is_byte b ->
  findClosestColor (int r) (int g) (int b) (Some webSafe)
  = Some [int (51 * nearest51 r); int (51 * nearest51 g); int (51 * nearest51 b)].
Proof.
  intros Hr Hg Hb.
  pose proof (nearest51_range r Hr) as Hqr. pose proof (nearest51_range g Hg) as Hqg.
  pose proof (nearest51_range b Hb) as Hqb.
  assert (Hbest : Some [int (51 * nearest51 r); int (51 * nearest51 g); int (51 * nearest51 b)]
                  ∈ webSafe).
  { apply elem_of_webSafe.
    exists (Z.to_nat (nearest51 r)), (Z.to_nat (nearest51 g)), (Z.to_nat (nearest51 b)).
    rewrite !Z2Nat.id by lia. split_and!; (lia || done). }
  destruct (findClosestColor_bytes_scan r g b webSafe Hr Hg Hb webSafe_byte_palette)
    as (n & c & Hn & _ & -> & Hmin & _).
  { eexists. split; [exact Hbest | cbn; lia]. }
  apply list_elem_of_lookup_1 in Hbest as [n' Hn'].
  specialize (Hmin n' _ Hn' ltac:(cbn; lia)).
  apply list_elem_of_lookup_2, elem_of_webSafe in Hn as (i & j & k & Hi & Hj & Hk & [= ->]).
  unfold distanceZ in Hmin. cbv zeta in Hmin.
  rewrite !channel_byte_int in Hmin by (unfold is_byte; lia). cbn [nth] in Hmin.
  destruct (nearest51_least r (Z.of_nat i) Hr) as [Hr1 Hr2].
  destruct (nearest51_least g (Z.of_nat j) Hg) as [Hg1 Hg2].
  destruct (nearest51_least b (Z.of_nat k) Hb) as [Hb1 Hb2].
  rewrite Hr2, Hg2, Hb2 by lia. done.
Qed.

Lemma findClosestColor_webSafe_witness :
  is_byte 100 ∧ is_byte 150 ∧ is_byte 200 ∧
  findClosestColor (int 100) (int 150) (int 200) (Some webSafe)
  = Some [int (51 * nearest51 100); int (51 * nearest51 150); int (51 * nearest51 200)].
Proof.
  assert (H100 : is_byte 100) by (unfold is_byte; lia).
  assert (H150 : is_byte 150) by (unfold is_byte; lia).
  assert (H200 : is_byte 200) by (unfold is_byte; lia).
  split; [exact H100 |]. split; [exact H150 |]. split; [exact H200 |].
  exact (findClosestColor_webSafe 100 150 200 H100 H150 H200).
Defined.

(** X5: on a pixel of bytes, the nearest colour of the palette of
    [monochrome] is black when r + g + b is at most 382 and white
    otherwise, whatever the argument of [monochrome]. *)
Theorem findClosestColor_monochrome (r g b : Z) (t : Js.number) :
  is_byte r -> is_byte g -> is_byte b ->
  findClosestColor (int r) (int g) (int b) (Some (monochrome t))
  = Some (if (r + g + b <=? 382)%Z then black else white).
Proof.
  intros Hr Hg Hb.
  destruct (findClosestColor_bytes_scan r g b (monochrome t) Hr Hg Hb
              (monochrome_byte_palette t))
    as (i & c & Hi & _ & -> & Hmin & Hfirst).
  { exists black. split; [apply list_elem_of_here | cbn; lia]. }
  assert (Hdiff : (distanceZ r g b white - distanceZ r g b black
                   = 195075 - 510 * (r + g + b))%Z).
  { unfold distanceZ. cbv zeta. rewrite !channel_byte_black, !channel_byte_white by lia. ring. }
  destruct i as [| [| i]]; cbn in Hi; [| | done]; injection Hi as <-.
  - specialize (Hmin 1 white eq_refl ltac:(cbn; lia)).
    destruct (Z.leb_spec (r + g + b) 382); [done | lia].
  - specialize (Hfirst 0 black ltac:(lia) eq_refl ltac:(cbn; lia)).
    destruct (Z.leb_spec (r + g + b) 382); [lia | done].
Qed.

Lemma findClosestColor_monochrome_witness :
  is_byte 100 ∧ is_byte 150 ∧ is_byte 200 ∧
  findClosestColor (int 100) (int 150) (int 200) (Some (monochrome (int 128)))
  = Some (if (100 + 150 + 200 <=? 382)%Z then black else white).
Proof.
  assert (H100 : is_byte 100) by (unfold is_byte; lia).
  assert (H150 : is_byte 150) by (unfold is_byte; lia).
  assert (H200 : is_byte 200) by (unfold is_byte; lia).
  split; [exact H100 |]. split; [exact H150 |]. split; [exact H200 |].
  exact (findClosestColor_monochrome 100 150 200 (int 128) H100 H150 H200).
Defined.

(** X6: the colours of a palette of bytes are fixed points of
    [findClosestColor]: asked for the nearest colour to a usable entry, it
    answers with a usable entry of the same three channels. *)
Theorem findClosestColor_fixes_palette (palette : list jsval) (c : color) :
  byte_palette palette -> Some c ∈ palette -> 3 <= length c ->
  exists c',
    findClosestColor (int (channel_byte c 0)) (int (channel_byte c 1)) (int (channel_byte c 2))
      (Some palette) = Some c' ∧
    Some c' ∈ palette ∧ byte_color c' ∧
    forall k, k < 3 -> chan c' k = chan c k.
Proof. apply nearest_of_palette_color. Qed.

Lemma findClosestColor_fixes_palette_witness :
  byte_palette cga ∧ Some [int 255; int 85; int 255] ∈ cga ∧
  3 <= length [int 255; int 85; int 255] ∧
  exists c',
    findClosestColor (int (channel_byte [int 255; int 85; int 255] 0))
                     (int (channel_byte [int 255; int 85; int 255] 1))
                     (int (channel_byte [int 255; int 85; int 255] 2)) (Some cga) = Some c' ∧
    Some c' ∈ cga ∧ byte_color c' ∧
    forall k, k < 3 -> chan c' k = chan [int 255; int 85; int 255] k.
Proof.
  assert (Hin : Some [int 255; int 85; int 255] ∈ cga).
  { apply list_elem_of_In. cbn. tauto. }
  assert (Hlen : 3 <= length [int 255; int 85; int 255]) by (cbn; lia).
  split; [exact cga_byte_palette |]. split; [exact Hin |]. split; [exact Hlen |].
  exact (findClosestColor_fixes_palette cga _ cga_byte_palette Hin Hlen).
Defined.

(** X7: on a gray pixel (v, v, v) of bytes and with an integer threshold
    t, [findClosestMonochromeColor] compares the gray level with the
    threshold: white when t < v, black when v < t. (At v = t the rounding of
    the luminance decides.) *)
Theorem findClosestMonochromeColor_gray (v t : Z) :
  is_byte v -> (Z.abs t < 2 ^ 53)%Z ->
  ((t < v)%Z ->
   findClosestMonochromeColor (int v) (int v) (int v) (int t) = Some white) ∧
  ((v < t)%Z ->
   findClosestMonochromeColor (int v) (int v) (int v) (int t) = Some black).
Proof.
  intros Hv Ht. destruct (gray_luminance v Hv) as (Hnan & Hlo & Hhi).
  unfold is_byte in Hv. unfold findClosestMonochromeColor. cbv zeta.
  rewrite (binary_normalize_not_nan t 0 : Js.isNaN (int t) = false).
  split; intros Hvt.
  - rewrite (lt_le_not_lt (int (v - 1)) _ (int t)); [done | done |].
    rewrite lt_int by (rewrite ?pow2_53; lia). apply Z.ltb_ge. lia.
  - rewrite (le_lt_trans _ (int v) (int t)); [done | done | done |].
    rewrite lt_int by (rewrite ?pow2_53; lia). apply Z.ltb_lt. lia.
Qed.

Lemma findClosestMonochromeColor_gray_witness :
  is_byte 128 ∧ (Z.abs 100 < 2 ^ 53)%Z ∧
  ((100 < 128)%Z ->
   findClosestMonochromeColor (int 128) (int 128) (int 128) (int 100) = Some white) ∧
  ((128 < 100)%Z ->
   findClosestMonochromeColor (int 128) (int 128) (int 128) (int 100) = Some black).
Proof.
  assert (H128 : is_byte 128) by (unfold is_byte; lia).
  assert (H100 : (Z.abs 100 < 2 ^ 53)%Z) by (vm_compute; reflexivity).
  split; [exact H128 |]. split; [exact H100 |].
  exact (findClosestMonochromeColor_gray 128 100 H128 H100).
Defined.

(** ** The three transforms *)

(** X8: every pixel of what a transform returns is an answer of the
    resolver, as the array stores it (each channel rounded and clamped). In
    [floydSteinberg] the resolver is only ever asked about integer bytes. *)
Theorem dithering_outputs_are_answers (img : ImageData) (f : resolver) (x y : nat) :
  valid_image img -> x < img.(width) -> y < img.(height) ->
  (forall out, floydSteinberg (Some img) (Some f) = Ok out ->
     exists r g b c, is_byte r ∧ is_byte g ∧ is_byte b ∧
       f (int r) (int g) (int b) = Some c ∧ 3 <= length c ∧ shows out x y c) ∧
  (forall out, bayer (Some img) (Some f) = Ok out ->
     exists r g b c, f r g b = Some c ∧ 3 <= length c ∧ shows out x y c) ∧
  (forall out, ordered (Some img) (Some f) = Ok out ->
     exists r g b c, f r g b = Some c ∧ 3 <= length c ∧ shows out x y c).
Proof.
  intros Hv Hx Hy. split_and!; intros out Hout.
  - by apply (floydSteinberg_answers img).
  - rewrite bayer_row_major in Hout. by eapply threshold_dither_answers.
  - rewrite ordered_row_major in Hout. by eapply threshold_dither_answers.
Qed.

Lemma dithering_outputs_are_answers_witness :
  valid_image noise3x2 ∧ 1 < noise3x2.(width) ∧ 1 < noise3x2.(height) ∧
  (forall out, floydSteinberg (Some noise3x2) (Some mono128) = Ok out ->
     exists r g b c, is_byte r ∧ is_byte g ∧ is_byte b ∧
       mono128 (int r) (int g) (int b) = Some c ∧ 3 <= length c ∧ shows out 1 1 c) ∧
  (forall out, bayer (Some noise3x2) (Some mono128) = Ok out ->
     exists r g b c, mono128 r g b = Some c ∧ 3 <= length c ∧ shows out 1 1 c) ∧
  (forall out, ordered (Some noise3x2) (Some mono128) = Ok out ->
     exists r g b c, mono128 r g b = Some c ∧ 3 <= length c ∧ shows out 1 1 c).
Proof.
  assert (Hv : valid_image noise3x2) by (apply valid_imageb_correct; vm_compute; reflexivity).
  assert (Hx : 1 < noise3x2.(width)) by (cbn; lia).
  assert (Hy : 1 < noise3x2.(height)) by (cbn; lia).
  split; [exact Hv |]. split; [exact Hx |]. split; [exact Hy |].
  exact (dithering_outputs_are_answers noise3x2 mono128 1 1 Hv Hx Hy).
Defined.

(** X10: on an image of width * height * 4 bytes, of positive width and
    height, [bayer] and [ordered] return a buffer exactly when the
    resolver's answer for the adjusted colour of every pixel of the image
    passes the check (not null, three entries or more). *)
Theorem ordered_variants_succeed_iff (img : ImageData) (f : resolver) :
  valid_image img -> 0 < img.(width) -> 0 < img.(height) ->
  ((exists out, bayer (Some img) (Some f) = Ok out) ↔
   forall x y, x < img.(width) -> y < img.(height) ->
     invalid_color (chosen 8 (normalize 64 bayerMatrix) f img.(data) img.(width) (x, y)) = false) ∧
  ((exists out, ordered (Some img) (Some f) = Ok out) ↔
   forall x y, x < img.(width) -> y < img.(height) ->
     invalid_color (chosen 4 (normalize 16 orderedMatrix) f img.(data) img.(width) (x, y)) = false).
Proof.
  intros _ _ _. split.
  - rewrite bayer_row_major. unfold bayer_visiting.
    destruct (threshold_dither_outcome "Failed to apply Bayer dithering: " 8 64 bayerMatrix img f)
      as [(out & -> & Hall) | [-> (x & y & Hx & Hy & Hinv)]].
    + split; [done | by eexists].
    + split; [by intros [? [=]] |]. intros Hall. by rewrite Hall in Hinv.
  - rewrite ordered_row_major. unfold ordered_visiting.
    destruct (threshold_dither_outcome "Failed to apply Ordered dithering: " 4 16 orderedMatrix
                img f) as [(out & -> & Hall) | [-> (x & y & Hx & Hy & Hinv)]].
    + split; [done | by eexists].
    + split; [by intros [? [=]] |]. intros Hall. by rewrite Hall in Hinv.
Qed.

Lemma ordered_variants_succeed_iff_witness :
  valid_image noise3x2 ∧ 0 < noise3x2.(width) ∧ 0 < noise3x2.(height) ∧
  ((exists out, bayer (Some noise3x2) (Some cga_resolver) = Ok out) ↔
   forall x y, x < noise3x2.(width) -> y < noise3x2.(height) ->
     invalid_color (chosen 8 (normalize 64 bayerMatrix) cga_resolver noise3x2.(data)
                      noise3x2.(width) (x, y)) = false) ∧
  ((exists out, ordered (Some noise3x2) (Some cga_resolver) = Ok out) ↔
   forall x y, x < noise3x2.(width) -> y < noise3x2.(height) ->
     invalid_color (chosen 4 (normalize 16 orderedMatrix) cga_resolver noise3x2.(data)
                      noise3x2.(width) (x, y)) = false).
Proof.
  assert (Hv : valid_image noise3x2) by (apply valid_imageb_correct; vm_compute; reflexivity).
  assert (Hw : 0 < noise3x2.(width)) by (cbn; lia).
  assert (Hh : 0 < noise3x2.(height)) by (cbn; lia).
  split; [exact Hv |]. split; [exact Hw |]. split; [exact Hh |].
  exact (ordered_variants_succeed_iff noise3x2 cga_resolver Hv Hw Hh).
Defined.

(** X11: the pattern of [bayer] repeats every 8 pixels in both directions
    and that of [ordered] every 4: two pixels of the same colour whose
    coordinates agree modulo 8 (modulo 4) come out in the same colour. *)
Theorem ordered_variants_periodic (img : ImageData) (f : resolver) (x y x' y' : nat) :
  valid_image img ->
  x < img.(width) -> y < img.(height) -> x' < img.(width) -> y' < img.(height) ->
  rgb_at img x y = rgb_at img x' y' ->
  (x mod 8 = x' mod 8 -> y mod 8 = y' mod 8 ->
   forall out, bayer (Some img) (Some f) = Ok out -> rgb_at out x y = rgb_at out x' y') ∧
  (x mod 4 = x' mod 4 -> y mod 4 = y' mod 4 ->
   forall out, ordered (Some img) (Some f) = Ok out -> rgb_at out x y = rgb_at out x' y').
Proof.
  intros Hv Hx Hy Hx' Hy' Hrgb. split; intros Hmx Hmy out Hout.
  - rewrite bayer_row_major in Hout. by eapply threshold_dither_periodic.
  - rewrite ordered_row_major in Hout. by eapply threshold_dither_periodic.
Qed.

Lemma ordered_variants_periodic_witness :
  valid_image stripe9x1 ∧
  0 < stripe9x1.(width) ∧ 0 < stripe9x1.(height) ∧
  8 < stripe9x1.(width) ∧ 0 < stripe9x1.(height) ∧
  rgb_at stripe9x1 0 0 = rgb_at stripe9x1 8 0 ∧
  (0 mod 8 = 8 mod 8 -> 0 mod 8 = 0 mod 8 ->
   forall out, bayer (Some stripe9x1) (Some cga_resolver) = Ok out ->
     rgb_at out 0 0 = rgb_at out 8 0) ∧
  (0 mod 4 = 8 mod 4 -> 0 mod 4 = 0 mod 4 ->
   forall out, ordered (Some stripe9x1) (Some cga_resolver) = Ok out ->
     rgb_at out 0 0 = rgb_at out 8 0).
Proof.
  assert (Hv : valid_image stripe9x1) by (apply valid_imageb_correct; vm_compute; reflexivity).
  assert (H0 : 0 < stripe9x1.(width)) by (cbn; lia).
  assert (H8 : 8 < stripe9x1.(width)) by (cbn; lia).
  assert (Hy : 0 < stripe9x1.(height)) by (cbn; lia).
  assert (Hrgb : rgb_at stripe9x1 0 0 = rgb_at stripe9x1 8 0) by reflexivity.
  split; [exact Hv |]. split; [exact H0 |]. split; [exact Hy |]. split; [exact H8 |].
  split; [exact Hy |]. split; [exact Hrgb |].
  exact (ordered_variants_periodic stripe9x1 cga_resolver 0 0 8 0 Hv H0 Hy H8 Hy Hrgb).
Defined.

(** X12: [bayer] and [ordered] with the monochrome resolver at an integer
    threshold t in 0..255, on a gray pixel (v, v, v): the pixel comes out
    white exactly when the gray level moved by the offset of its matrix
    entry m and clamped, which is [adjusted128 / 128], is at least t, and
    black otherwise; the luminance computed in binary64 never decides
    otherwise. *)
Theorem ordered_variants_gray (img : ImageData) (x y : nat) (v t : Z) :
  valid_image img -> x < img.(width) -> y < img.(height) ->
  rgb_at img x y = [Some v; Some v; Some v] -> is_byte t ->
  (forall out, bayer (Some img) (Some (mono t)) = Ok out ->
     rgb_at out x y =
       if (128 * t <=? adjusted128 64 (matrix_entry bayerMatrix (y mod 8) (x mod 8)) v)%Z
       then [Some 255; Some 255; Some 255]%Z else [Some 0; Some 0; Some 0]%Z) ∧
  (forall out, ordered (Some img) (Some (mono t)) = Ok out ->
     rgb_at out x y =
       if (128 * t <=? adjusted128 16 (matrix_entry orderedMatrix (y mod 4) (x mod 4)) v)%Z
       then [Some 255; Some 255; Some 255]%Z else [Some 0; Some 0; Some 0]%Z).
Proof.
  intros Hv Hx Hy Hrgb Ht. split; intros out Hout.
  - rewrite bayer_row_major in Hout.
    eapply (threshold_dither_gray _ 8 64 bayerMatrix img out x y v t gray_adjust_check_bayer);
      [lia | done..| exact Hout].
  - rewrite ordered_row_major in Hout.
    eapply (threshold_dither_gray _ 4 16 orderedMatrix img out x y v t
              gray_adjust_check_ordered); [lia | done..| exact Hout].
Qed.

Lemma ordered_variants_gray_witness :
  valid_image gray2x2 ∧ 1 < gray2x2.(width) ∧ 0 < gray2x2.(height) ∧
  rgb_at gray2x2 1 0 = [Some 128; Some 128; Some 128]%Z ∧ is_byte 128 ∧
  (forall out, bayer (Some gray2x2) (Some (mono 128)) = Ok out ->
     rgb_at out 1 0 =
       if (128 * 128 <=? adjusted128 64 (matrix_entry bayerMatrix (0 mod 8) (1 mod 8)) 128)%Z
       then [Some 255; Some 255; Some 255]%Z else [Some 0; Some 0; Some 0]%Z) ∧
  (forall out, ordered (Some gray2x2) (Some (mono 128)) = Ok out ->
     rgb_at out 1 0 =
       if (128 * 128 <=? adjusted128 16 (matrix_entry orderedMatrix (0 mod 4) (1 mod 4)) 128)%Z
       then [Some 255; Some 255; Some 255]%Z else [Some 0; Some 0; Some 0]%Z).
Proof.
  assert (Hv : valid_image gray2x2) by (apply valid_imageb_correct; vm_compute; reflexivity).
  assert (Hx : 1 < gray2x2.(width)) by (cbn; lia).
  assert (Hy : 0 < gray2x2.(height)) by (cbn; lia).
  assert (Hrgb : rgb_at gray2x2 1 0 = [Some 128; Some 128; Some 128]%Z) by reflexivity.
  assert (Ht : is_byte 128) by (unfold is_byte; lia).
  split; [exact Hv |]. split; [exact Hx |]. split; [exact Hy |]. split; [exact Hrgb |].
  split; [exact Ht |].
  exact (ordered_variants_gray gray2x2 1 0 128 128 Hv Hx Hy Hrgb Ht).
Defined.

(** X13: an image every pixel of which the resolver answers with that
    pixel's own colour comes back from [floydSteinberg] unchanged: every
    error is zero and nothing is diffused. *)
Theorem floydSteinberg_fixed_image (img : ImageData) (f : resolver) :
  valid_image img ->
  (forall x y, x < img.(width) -> y < img.(height) -> fixed_pixel f img x y) ->
  floydSteinberg (Some img) (Some f) = Ok img.
Proof. apply floydSteinberg_fixed. Qed.

Lemma floydSteinberg_fixed_image_witness :
  valid_image checker2x2 ∧
  (forall x y, x < checker2x2.(width) -> y < checker2x2.(height) ->
     fixed_pixel mono128 checker2x2 x y) ∧
  floydSteinberg (Some checker2x2) (Some mono128) = Ok checker2x2.
Proof.
  assert (Hv : valid_image checker2x2) by (apply valid_imageb_correct; vm_compute; reflexivity).
  assert (Hfix : forall x y, x < checker2x2.(width) -> y < checker2x2.(height) ->
            fixed_pixel mono128 checker2x2 x y).
  { intros x y Hx Hy r g b Hrgb. cbn in Hx, Hy.
    destruct x as [| [| x]], y as [| [| y]]; try lia;
      injection Hrgb as <- <- <-; eexists;
      (split; [vm_compute; reflexivity | split; [cbn; lia | done]]). }
  split; [exact Hv |]. split; [exact Hfix |].
  exact (floydSteinberg_fixed_image checker2x2 mono128 Hv Hfix).
Defined.

(** X14: with the nearest colour of a palette of bytes as resolver,
    [floydSteinberg] is idempotent: applied to its own result it returns
    that result. *)
Theorem floydSteinberg_idempotent (img out : ImageData) (palette : list jsval) :
  valid_image img -> byte_palette palette ->
  (exists c, Some c ∈ palette ∧ 3 <= length c) ->
  floydSteinberg (Some img) (Some (nearest_in palette)) = Ok out ->
  floydSteinberg (Some out) (Some (nearest_in palette)) = Ok out.
Proof.
  intros Hv Hpal Hex Hout.
  destruct (floydSteinberg_valid img _ out Hv Hout) as (Hvout & Hw & Hh).
  apply floydSteinberg_fixed; [done |].
  intros x y Hx Hy r g b Hrgb.
  destruct (floydSteinberg_answers img _ out x y Hv ltac:(lia) ltac:(lia) Hout)
    as (r0 & g0 & b0 & c & Hr0 & Hg0 & Hb0 & Hf & Hc & Hshow).
  destruct (findClosestColor_bytes_scan r0 g0 b0 palette Hr0 Hg0 Hb0 Hpal Hex)
    as (i & c2 & Hi & _ & Hres & _).
  unfold nearest_in in Hf. rewrite Hres in Hf. injection Hf as ->.
  assert (Hin : Some c ∈ palette) by by eapply list_elem_of_lookup_2.
  destruct (nearest_of_palette_color palette c Hpal Hin Hc)
    as (c' & Hres' & Hin' & [Hc' _] & Hsame).
  pose proof (Hpal c Hin Hc) as [_ Hbc].
  unfold rgb_at in Hrgb.
  rewrite (Hshow 0), (Hshow 1), (Hshow 2) in Hrgb by lia.
  injection Hrgb as <- <- <-.
  exists c'. unfold nearest_in. rewrite Hres'.
  split_and!; [done | done | | |]; rewrite Hsame by lia; apply Hbc; lia.
Qed.

Lemma floydSteinberg_idempotent_witness :
  valid_image noise3x2 ∧ byte_palette cga ∧ (exists c, Some c ∈ cga ∧ 3 <= length c) ∧
  floydSteinberg (Some noise3x2) (Some (nearest_in cga)) = Ok noise3x2_cga_diffused ∧
  floydSteinberg (Some noise3x2_cga_diffused) (Some (nearest_in cga))
    = Ok noise3x2_cga_diffused.
Proof.
  assert (Hv : valid_image noise3x2) by (apply valid_imageb_correct; vm_compute; reflexivity).
  assert (Hex : exists c, Some c ∈ cga ∧ 3 <= length c).
  { exists black. split; [apply list_elem_of_here | cbn; lia]. }
  assert (Hout : floydSteinberg (Some noise3x2) (Some (nearest_in cga))
                 = Ok noise3x2_cga_diffused) by (vm_compute; reflexivity).
  split; [exact Hv |]. split; [exact cga_byte_palette |]. split; [exact Hex |].
  split; [exact Hout |].
  exact (floydSteinberg_idempotent noise3x2 noise3x2_cga_diffused cga Hv cga_byte_palette
           Hex Hout).
Defined.

(** X15: in [floydSteinberg] no pixel influences a pixel visited before it.
    Two valid images of the same dimensions that agree on every pixel up to
    (x, y) in row-major order give results that agree on every pixel up to
    (x, y), whatever the later pixels hold. *)
Theorem floydSteinberg_causal (img1 img2 out1 out2 : ImageData) (f : resolver) (x y : nat) :
  valid_image img1 -> valid_image img2 ->
  img1.(width) = img2.(width) -> img1.(height) = img2.(height) ->
  (forall x' y' k, x' < img1.(width) -> y' < img1.(height) -> upto x y x' y' -> k < 4 ->
     byte_at img1 x' y' k = byte_at img2 x' y' k) ->
  floydSteinberg (Some img1) (Some f) = Ok out1 ->
  floydSteinberg (Some img2) (Some f) = Ok out2 ->
  forall x' y' k, x' < img1.(width) -> y' < img1.(height) -> upto x y x' y' -> k < 4 ->
    byte_at out1 x' y' k = byte_at out2 x' y' k.
Proof.
  intros Hv1 Hv2 Hw Hh Hsame Hout1 Hout2 x' y' k Hx' Hy' Hup Hk.
  destruct (floydSteinberg_grid img1 f out1 Hv1 Hout1) as (W1 & O1 & Hrun1 & _ & _ & _ & Hb1).
  destruct (floydSteinberg_grid img2 f out2 Hv2 Hout2) as (W2 & O2 & Hrun2 & _ & _ & _ & Hb2).
  rewrite <- Hw, <- Hh in Hrun2, Hb2.
  rewrite Hb1, Hb2 by done. f_equal.
  assert (Hgrid : forall x0 y0 k0, x0 < img1.(width) -> upto x y x0 y0 -> k0 < 4 ->
            grid_of img1.(width) img1.(data) x0 y0 k0
            = grid_of img1.(width) img2.(data) x0 y0 k0).
  { intros x0 y0 k0 Hx0 Hup0 Hk0. unfold grid_of.
    destruct (decide (y0 < img1.(height))) as [Hy0 | Hy0].
    - specialize (Hsame x0 y0 k0 Hx0 Hy0 Hup0 Hk0). unfold byte_at in Hsame.
      rewrite <- Hw in Hsame. by rewrite Hsame.
    - destruct Hv1 as [Hl1 _], Hv2 as [Hl2 _]. rewrite <- Hw, <- Hh in Hl2.
      rewrite !(proj2 (lookup_ge_None _ _)); [done | |];
        rewrite ?Hl1, ?Hl2; unfold pixel_index; nia. }
  pose proof (run_diffuse_agree _ _ f img1.(width) img1.(height) x y
                (fun x0 y0 Hx0 Hup0 => Hgrid x0 y0 3 Hx0 Hup0 ltac:(lia))
                _ _ _ _ _ (row_major_in_bounds _ _) Hrun1 Hrun2) as [_ HO].
  - split; cbn [fst snd]; [| done].
    intros x0 y0 k0 Hx0 Hup0 Hk0. apply Hgrid; (done || lia).
  - by apply HO.
Qed.

Lemma floydSteinberg_causal_witness :
  valid_image gray2x2 ∧ valid_image gray2x2_tail ∧
  gray2x2.(width) = gray2x2_tail.(width) ∧ gray2x2.(height) = gray2x2_tail.(height) ∧
  (forall x' y' k, x' < gray2x2.(width) -> y' < gray2x2.(height) -> upto 0 1 x' y' -> k < 4 ->
     byte_at gray2x2 x' y' k = byte_at gray2x2_tail x' y' k) ∧
  floydSteinberg (Some gray2x2) (Some mono128) = Ok gray2x2_diffused ∧
  floydSteinberg (Some gray2x2_tail) (Some mono128) = Ok gray2x2_tail_diffused ∧
  forall x' y' k, x' < gray2x2.(width) -> y' < gray2x2.(height) -> upto 0 1 x' y' -> k < 4 ->
    byte_at gray2x2_diffused x' y' k = byte_at gray2x2_tail_diffused x' y' k.
Proof.
  assert (Hv1 : valid_image gray2x2) by (apply valid_imageb_correct; vm_compute; reflexivity).
  assert (Hv2 : valid_image gray2x2_tail)
    by (apply valid_imageb_correct; vm_compute; reflexivity).
  assert (Hsame : forall x' y' k, x' < gray2x2.(width) -> y' < gray2x2.(height) ->
            upto 0 1 x' y' -> k < 4 -> byte_at gray2x2 x' y' k = byte_at gray2x2_tail x' y' k).
  { intros x' y' k Hx' Hy' Hup Hk. cbn in Hx', Hy'. unfold upto in Hup.
    destruct x' as [| [| x']], y' as [| [| y']], k as [| [| [| [| k]]]]; try lia; reflexivity. }
  assert (Hout1 : floydSteinberg (Some gray2x2) (Some mono128) = Ok gray2x2_diffused)
    by (vm_compute; reflexivity).
  assert (Hout2 : floydSteinberg (Some gray2x2_tail) (Some mono128) = Ok gray2x2_tail_diffused)
    by (vm_compute; reflexivity).
  split; [exact Hv1 |]. split; [exact Hv2 |]. split; [reflexivity |]. split; [reflexivity |].
  split; [exact Hsame |]. split; [exact Hout1 |]. split; [exact Hout2 |].
  exact (floydSteinberg_causal gray2x2 gray2x2_tail gray2x2_diffused gray2x2_tail_diffused
           mono128 0 1 Hv1 Hv2 eq_refl eq_refl Hsame Hout1 Hout2).
Defined.

(** X16: the compound assignments [data[i] += error * k / 16] of
    [floydSteinberg], between bytes, are computed without rounding error
    before the store: with the error the difference of a pixel byte and an
    answer byte, the byte stored is (16 v + (pixel - answer) k) / 16 rounded
    to the nearest integer, a tie going to the even one, and clamped to
    0..255. *)
Theorem add_error_integers (d : list Z) (base : nat) (k : Z) (pixel answer : nat -> Z)
    (j : nat) (v : Z) :
  Forall is_byte d -> base + 2 < length d ->
  (forall i, is_byte (pixel i)) -> (forall i, is_byte (answer i)) ->
  (0 < k <= 7)%Z -> j < 3 -> d !! (base + j) = Some v ->
  add_error d base (int (pixel 0) - int (answer 0))%js (int (pixel 1) - int (answer 1))%js
            (int (pixel 2) - int (answer 2))%js k !! (base + j)
  = Some (clamp_byte (round16 (16 * v + (pixel j - answer j) * k))).
Proof.
  intros Hd Hlen Hp Ha Hk Hj Hv.
  rewrite lookup_add_error by done. f_equal.
  unfold read. rewrite Hv.
  assert (Hvb : is_byte v) by by eapply Forall_lookup_1.
  destruct j as [| [| [| j]]]; [| | | lia]; cbn [pick3]; by apply diffusion_store.
Qed.

Lemma add_error_integers_witness :
  Forall is_byte gray2x2.(data) ∧ 4 + 2 < length gray2x2.(data) ∧
  (forall i : nat, is_byte 128) ∧ (forall i : nat, is_byte 255) ∧
  (0 < 7 <= 7)%Z ∧ 0 < 3 ∧ gray2x2.(data) !! (4 + 0) = Some 128%Z ∧
  add_error gray2x2.(data) 4 (int 128 - int 255)%js (int 128 - int 255)%js
            (int 128 - int 255)%js 7 !! (4 + 0)
  = Some (clamp_byte (round16 (16 * 128 + (128 - 255) * 7))).
Proof.
  assert (Hd : Forall is_byte gray2x2.(data)).
  { apply (valid_imageb_correct gray2x2). vm_compute. reflexivity. }
  assert (Hlen : 4 + 2 < length gray2x2.(data)) by (cbn; lia).
  assert (Hp : forall i : nat, is_byte 128) by (intros _; unfold is_byte; lia).
  assert (Ha : forall i : nat, is_byte 255) by (intros _; unfold is_byte; lia).
  assert (Hk : (0 < 7 <= 7)%Z) by lia.
  assert (Hj : 0 < 3) by lia.
  assert (Hv : gray2x2.(data) !! (4 + 0) = Some 128%Z) by reflexivity.
  split; [exact Hd |]. split; [exact Hlen |]. split; [exact Hp |]. split; [exact Ha |].
  split; [exact Hk |]. split; [exact Hj |]. split; [exact Hv |].
  exact (add_error_integers gray2x2.(data) 4 7 (fun _ => 128%Z) (fun _ => 255%Z) 0 128
           Hd Hlen Hp Ha Hk Hj Hv).
Defined.

(** ** The application *)

(** X17: [processImage] with a valid image loaded shows the loader and
    schedules a function that does not fail, whatever the values of the
    three controls: run on the state the call leaves, it stores the result
    in [currentDitheredImageData] and draws it, enables the download button,
    hides the loader again and leaves the error modal as it was. The result
    has the dimensions and the alpha channel of the image, and every pixel
    of it is a colour of the palette selected. *)
Theorem processImage_succeeds (c : Controls) (app : App) (img : ImageData) :
  app.(currentImageData) = Some img -> valid_image img ->
  exists shown scheduled out,
    processImage c app = (shown, Some scheduled) ∧
    shown = mkApp (Some img) app.(currentDitheredImageData) app.(ditheredCanvas)
                  app.(downloadBtn_disabled) false
                  app.(errorModal_hidden) app.(errorMessage_textContent) ∧
    scheduled shown
      = mkApp (Some img) (Some out) (Some out) false true
              app.(errorModal_hidden) app.(errorMessage_textContent) ∧
    valid_image out ∧ out.(width) = img.(width) ∧ out.(height) = img.(height) ∧
    forall x y, x < img.(width) -> y < img.(height) ->
      byte_at out x y 3 = byte_at img x y 3 ∧
      exists col, Some col ∈ (selectPalette c.(palette) c.(threshold)).1 ∧
        shows out x y col.
Proof.
  intros Himg Hv.
  destruct (applyDithering_accepted c.(algorithm) img (selectPalette c.(palette) c.(threshold)).2
              Hv (selectPalette_accepted _ _)) as (out & Hout & Hvo & Hw & Hh & Hpix).
  eexists _, _, out. unfold processImage. rewrite Himg.
  split; [reflexivity |]. split; [reflexivity |].
  unfold processImage_timeout. cbn [currentImageData]. rewrite Hout. cbn.
  split_and!; try done. intros x y Hx Hy.
  destruct (Hpix x y Hx Hy) as (Ha & r & g & b & col & Hf & Hshow).
  split; [done |]. exists col. split; [| done].
  destruct (selectPalette_answers c.(palette) c.(threshold) r g b) as (c' & Hf' & _ & Hin).
  congruence.
Qed.

Lemma processImage_succeeds_witness :
  app_loaded.(currentImageData) = Some noise3x2 ∧ valid_image noise3x2 ∧
  exists shown scheduled out,
    processImage bayer_cga app_loaded = (shown, Some scheduled) ∧
    shown = mkApp (Some noise3x2) app_loaded.(currentDitheredImageData)
                  app_loaded.(ditheredCanvas) app_loaded.(downloadBtn_disabled) false
                  app_loaded.(errorModal_hidden) app_loaded.(errorMessage_textContent) ∧
    scheduled shown
      = mkApp (Some noise3x2) (Some out) (Some out) false true
              app_loaded.(errorModal_hidden) app_loaded.(errorMessage_textContent) ∧
    valid_image out ∧ out.(width) = noise3x2.(width) ∧ out.(height) = noise3x2.(height) ∧
    forall x y, x < noise3x2.(width) -> y < noise3x2.(height) ->
      byte_at out x y 3 = byte_at noise3x2 x y 3 ∧
      exists col, Some col ∈ (selectPalette bayer_cga.(palette) bayer_cga.(threshold)).1 ∧
        shows out x y col.
Proof.
  assert (Hv : valid_image noise3x2) by (apply valid_imageb_correct; vm_compute; reflexivity).
  split; [reflexivity |]. split; [exact Hv |].
  exact (processImage_succeeds bayer_cga app_loaded noise3x2 eq_refl Hv).
Defined.
